(** * esbuild-dynamic-import: the import rewriter and its cache-checked loader

    A shallow embedding of [src/index.ts].

    - Strings are lists of code units, restricted to the code units below
      256 ([list ascii]); white space and line terminators are the
      JavaScript ones of that range.
    - The built-in operations the source calls ([String.prototype.replace],
      [replaceAll], [matchAll], [trim], [RegExp.prototype.test]) are
      modelled with a backtracking matcher that follows the ECMAScript
      priority order (left alternative first, greedy quantifiers longest
      first, lazy ones shortest first) and with the substitution patterns of
      replacement texts ([$$], [$&], [$1], ...).
    - The collaborators that are not part of the repository are parameters:
      the four functions of Node's [path] the source calls, the glob
      resolver and the file read.  A promise is either fulfilled with a
      value or rejected; the reason of a rejection is not modelled.  A POSIX
      instance of [path] is given for the concrete runs.
    - [replaceImports] returns its promise together with what it did to the
      world: the calls of the glob resolver and the number of
      [console.error] calls. *)

From Stdlib Require Import Ascii String DecimalString.
From Stdlib Require Import List Arith Bool Lia.
Import ListNotations.

Set Implicit Arguments.
Local Open Scope char_scope.
Local Open Scope nat_scope.
Local Open Scope list_scope.

(** ** Strings *)

Definition str := list ascii.

(** A string literal of the source. *)
Definition s_ (s : string) : str := list_ascii_of_string s.

Definition str_eqb (a b : str) : bool :=
  if list_eq_dec ascii_dec a b then true else false.

(** [`${n}`] for a non-negative integer [n]. *)
Definition dec (n : nat) : str := s_ (NilEmpty.string_of_uint (Nat.to_uint n)).

(** ** Character classes of the regular expressions of the source *)

Definition chr (c : ascii) : ascii -> bool := Ascii.eqb c.

(** JavaScript white space and line terminators below code unit 256:
    TAB, LF, VT, FF, CR, SP and NBSP. *)
Definition isSpace (c : ascii) : bool :=
  let n := nat_of_ascii c in
  ((9 <=? n) && (n <=? 13)) || (n =? 32) || (n =? 160).

(** [.] without the [s] flag: anything but a line terminator. *)
Definition dot (c : ascii) : bool :=
  let n := nat_of_ascii c in
  negb ((n =? 10) || (n =? 13)).

(** The double quote (code unit 34, [\x22]) and the line feed. *)
Definition DQUOTE : ascii := "034".
Definition LF : ascii := "010".

Definition isQuote (c : ascii) : bool := chr DQUOTE c || chr "'" c.
Definition notQuote (c : ascii) : bool := negb (isQuote c).
Definition notQuoteSpace (c : ascii) : bool := negb (isQuote c || isSpace c).
Definition notRParen (c : ascii) : bool := negb (chr ")" c).
Definition isDigit (c : ascii) : bool :=
  let n := nat_of_ascii c in (48 <=? n) && (n <=? 57).
Definition digitVal (c : ascii) : nat := nat_of_ascii c - 48.

(** ** Regular expressions

    Every quantifier of the source applies to a single character class, so
    [Star] carries a class and a greediness flag. *)

Inductive re : Type :=
| Eps
| Chr (p : ascii -> bool)
| Cat (r1 r2 : re)
| Alt (r1 r2 : re)
| Star (greedy : bool) (p : ascii -> bool)
| Grp (n : nat) (r : re)
| Bol
| Eol.

Fixpoint Lit (s : str) : re :=
  match s with
  | [] => Eps
  | [c] => Chr (chr c)
  | c :: s' => Cat (Chr (chr c)) (Lit s')
  end.

Definition Plus (p : ascii -> bool) : re := Cat (Chr p) (Star true p).

Fixpoint Seq (rs : list re) : re :=
  match rs with
  | [] => Eps
  | [r] => r
  | r :: rs' => Cat r (Seq rs')
  end.

(** Captures: the most recent binding of a group comes first. *)
Definition caps := list (nat * str).

Fixpoint capture (n : nat) (cs : caps) : option str :=
  match cs with
  | [] => None
  | (k, v) :: cs' => if k =? n then Some v else capture n cs'
  end.

(** The matcher is written in continuation-passing style: [k] is what has to
    match after [r]; the first success in priority order wins. *)
Definition cont := nat -> str -> caps -> option (nat * caps).

Fixpoint star_greedy (p : ascii -> bool) (pos : nat) (rest : str) (cs : caps)
  (k : cont) : option (nat * caps) :=
  match rest with
  | c :: rest' =>
      if p c then
        match star_greedy p (S pos) rest' cs k with
        | Some x => Some x
        | None => k pos rest cs
        end
      else k pos rest cs
  | [] => k pos rest cs
  end.

Fixpoint star_lazy (p : ascii -> bool) (pos : nat) (rest : str) (cs : caps)
  (k : cont) : option (nat * caps) :=
  match k pos rest cs with
  | Some x => Some x
  | None =>
      match rest with
      | c :: rest' => if p c then star_lazy p (S pos) rest' cs k else None
      | [] => None
      end
  end.

Fixpoint rmatch (r : re) (pos : nat) (rest : str) (cs : caps) (k : cont)
  : option (nat * caps) :=
  match r with
  | Eps => k pos rest cs
  | Chr p =>
      match rest with
      | c :: rest' => if p c then k (S pos) rest' cs else None
      | [] => None
      end
  | Cat r1 r2 =>
      rmatch r1 pos rest cs (fun pos' rest' cs' => rmatch r2 pos' rest' cs' k)
  | Alt r1 r2 =>
      match rmatch r1 pos rest cs k with
      | Some x => Some x
      | None => rmatch r2 pos rest cs k
      end
  | Star true p => star_greedy p pos rest cs k
  | Star false p => star_lazy p pos rest cs k
  | Grp n r' =>
      rmatch r' pos rest cs
        (fun pos' rest' cs' => k pos' rest' ((n, firstn (pos' - pos) rest) :: cs'))
  | Bol => if pos =? 0 then k pos rest cs else None
  | Eol => match rest with [] => k pos rest cs | _ :: _ => None end
  end.

Definition accept : cont := fun pos _ cs => Some (pos, cs).

(** One attempt of the pattern at position [pos], [rest] being the subject
    from [pos] on: the end of the match and its captures. *)
Definition execAt (r : re) (pos : nat) (rest : str) : option (nat * caps) :=
  rmatch r pos rest [] accept.

(** A match object: [index], the matched text ([match[0]]) and the groups. *)
Record Match : Type := mkMatch {
  m_index : nat;
  m_text : str;
  m_caps : caps
}.

(** [m[n]] of a match object, the empty string standing for [undefined]. *)
Definition group (n : nat) (m : Match) : str :=
  match capture n (m_caps m) with Some v => v | None => [] end.

(** [s.matchAll(/r/g)]: the successive matches from left to right; after a
    match the scan resumes at its end, after an empty match one unit later.
    [skip] counts the units of the subject still covered by the last match. *)
Fixpoint scanAll (r : re) (pos : nat) (rest : str) (skip : nat) : list Match :=
  match skip with
  | S skip' =>
      match rest with
      | [] => []
      | _ :: rest' => scanAll r (S pos) rest' skip'
      end
  | 0 =>
      match execAt r pos rest with
      | Some (e, cs) =>
          mkMatch pos (firstn (e - pos) rest) cs ::
          match rest with
          | [] => []
          | _ :: rest' => scanAll r (S pos) rest' (e - pos - 1)
          end
      | None =>
          match rest with
          | [] => []
          | _ :: rest' => scanAll r (S pos) rest' 0
          end
      end
  end.

Definition matchAll (r : re) (s : str) : list Match := scanAll r 0 s 0.

(** [/r/.test(s)] for a pattern without the [g] flag. *)
Fixpoint testFrom (r : re) (pos : nat) (rest : str) : bool :=
  match execAt r pos rest with
  | Some _ => true
  | None =>
      match rest with
      | [] => false
      | _ :: rest' => testFrom r (S pos) rest'
      end
  end.

Definition test (r : re) (s : str) : bool := testFrom r 0 s.

(** ** Replacement templates (ECMAScript GetSubstitution)

    [matched] is the matched text, [s] the subject, [position] the index of
    the match, [cs] its captures and [m] the number of groups of the
    pattern ([0] for a string pattern). *)
Definition captureText (n : nat) (cs : caps) : str :=
  match capture n cs with Some v => v | None => [] end.

Fixpoint getSubstitution (matched s : str) (position : nat) (cs : caps)
  (m : nat) (tmpl : str) : str :=
  match tmpl with
  | [] => []
  | c :: t =>
      if negb (chr "$" c) then c :: getSubstitution matched s position cs m t
      else
        match t with
        | [] => [c]
        | d :: t' =>
            if chr "$" d then "$" :: getSubstitution matched s position cs m t'
            else if chr "&" d then matched ++ getSubstitution matched s position cs m t'
            else if chr "`" d then firstn position s ++ getSubstitution matched s position cs m t'
            else if chr "'" d then
              skipn (position + length matched) s ++ getSubstitution matched s position cs m t'
            else if isDigit d then
              let one :=
                if (1 <=? digitVal d) && (digitVal d <=? m)
                then captureText (digitVal d) cs ++ getSubstitution matched s position cs m t'
                else c :: d :: getSubstitution matched s position cs m t' in
              match t' with
              | e :: t'' =>
                  if isDigit e then
                    let nn := 10 * digitVal d + digitVal e in
                    if (1 <=? nn) && (nn <=? m)
                    then captureText nn cs ++ getSubstitution matched s position cs m t''
                    else one
                  else one
              | [] => one
              end
            else c :: getSubstitution matched s position cs m t
        end
  end.

Fixpoint ngroups (r : re) : nat :=
  match r with
  | Cat r1 r2 | Alt r1 r2 => ngroups r1 + ngroups r2
  | Grp _ r' => S (ngroups r')
  | _ => 0
  end.

(** [s.replace(/r/, tmpl)] ([global = false]) and [s.replaceAll(/r/g, tmpl)],
    [s.replace(/r/g, tmpl)] ([global = true]): the subject is copied, every
    match (the first one only without [g]) giving way to its substitution. *)
Fixpoint replaceFrom (global : bool) (r : re) (tmpl s : str) (pos : nat)
  (rest : str) (skip : nat) : str :=
  match skip with
  | S skip' =>
      match rest with
      | [] => []
      | _ :: rest' => replaceFrom global r tmpl s (S pos) rest' skip'
      end
  | 0 =>
      match execAt r pos rest with
      | Some (e, cs) =>
          getSubstitution (firstn (e - pos) rest) s pos cs (ngroups r) tmpl ++
          (if global then
             match rest with
             | [] => []
             | c :: rest' =>
                 if e =? pos then c :: replaceFrom global r tmpl s (S pos) rest' 0
                 else replaceFrom global r tmpl s (S pos) rest' (e - pos - 1)
             end
           else skipn (e - pos) rest)
      | None =>
          match rest with
          | [] => []
          | c :: rest' => c :: replaceFrom global r tmpl s (S pos) rest' 0
          end
      end
  end.

Definition replaceRe (global : bool) (r : re) (tmpl s : str) : str :=
  replaceFrom global r tmpl s 0 s 0.

(** [s.replace(pat, repl)] with a string pattern: the first occurrence of
    [pat], if any, gives way to the expansion of [repl]. *)
Fixpoint prefixb (p s : str) : bool :=
  match p, s with
  | [], _ => true
  | a :: p', b :: s' => Ascii.eqb a b && prefixb p' s'
  | _ :: _, [] => false
  end.

Fixpoint indexOfFrom (pat : str) (pos : nat) (rest : str) : option nat :=
  if prefixb pat rest then Some pos
  else match rest with
       | [] => None
       | _ :: rest' => indexOfFrom pat (S pos) rest'
       end.

Definition indexOf (pat s : str) : option nat := indexOfFrom pat 0 s.

Definition replaceStr (s pat repl : str) : str :=
  match indexOf pat s with
  | None => s
  | Some i =>
      firstn i s ++ getSubstitution pat s i [] 0 repl ++ skipn (i + length pat) s
  end.

(** [s.trim()] *)
Fixpoint trimStart (s : str) : str :=
  match s with
  | c :: s' => if isSpace c then trimStart s' else s
  | [] => []
  end.

Definition trimEnd (s : str) : str := rev (trimStart (rev s)).
Definition trim (s : str) : str := trimEnd (trimStart s).

(** ** JavaScript [Map]: insertion-ordered, [set] on a present key keeps its
    place *)
Definition JsMap (V : Type) := list (str * V).

Fixpoint map_get {V} (k : str) (m : JsMap V) : option V :=
  match m with
  | [] => None
  | (k', v) :: m' => if str_eqb k' k then Some v else map_get k m'
  end.

Definition map_has {V} (k : str) (m : JsMap V) : bool :=
  match map_get k m with Some _ => true | None => false end.

Fixpoint map_set {V} (k : str) (v : V) (m : JsMap V) : JsMap V :=
  match m with
  | [] => [(k, v)]
  | (k', v') :: m' =>
      if str_eqb k' k then (k', v) :: m' else (k', v') :: map_set k v m'
  end.

Definition map_size {V} (m : JsMap V) : nat := length m.

(** ** Promises, as far as the source observes them *)
Inductive promise (A : Type) : Type :=
| Fulfilled (a : A)
| Rejected.
Arguments Rejected {A}.

(** [Promise.all]: fulfilled with all the values, rejected as soon as one of
    the promises is. *)
Fixpoint promiseAll {A} (ps : list (promise A)) : promise (list A) :=
  match ps with
  | [] => Fulfilled []
  | Fulfilled a :: ps' =>
      match promiseAll ps' with
      | Fulfilled l => Fulfilled (a :: l)
      | Rejected => Rejected
      end
  | Rejected :: _ => Rejected
  end.

(** ** The regular expressions of [index.ts] *)

(** In the patterns quoted below [\x22] stands for the double quote.

    [/import\(([^)]+)\)/g] *)
Definition importRe : re :=
  Seq [Lit (s_ "import("); Grp 1 (Plus notRParen); Lit (s_ ")")].

(** [/(?:\/\*.*?\*\/)|(?:\/\/.*\n)/g] *)
Definition commentRe : re :=
  Alt (Seq [Lit (s_ "/*"); Star false dot; Lit (s_ "*/")])
      (Seq [Lit (s_ "//"); Star true dot; Chr (chr LF)]).

(** Line 54, str+var.  Group 1: a quote, [\s*], a plus sign, [\s*];
    group 2: [[^\x22'\s]]; flag [g]. *)
Definition strVarRe : re :=
  Seq [Grp 1 (Seq [Chr isQuote; Star true isSpace; Chr (chr "+"); Star true isSpace]);
       Grp 2 (Chr notQuoteSpace)].

(** [/([^\x22'\s])(\s*\+\s*[\x22'])/g] *)
Definition varStrRe : re :=
  Seq [Grp 1 (Chr notQuoteSpace);
       Grp 2 (Seq [Star true isSpace; Chr (chr "+"); Star true isSpace; Chr isQuote])].

(** Line 56, var+var.  Group 1: [[^\x22'\s]]; group 2: [\s*], a plus
    sign, [\s*]; group 3: [[^\x22'\s]]; flag [g]. *)
Definition varVarRe : re :=
  Seq [Grp 1 (Chr notQuoteSpace);
       Grp 2 (Seq [Star true isSpace; Chr (chr "+"); Star true isSpace]);
       Grp 3 (Chr notQuoteSpace)].

(** [/[\x22']\s*\+\s*[\x22']/g] *)
Definition strStrRe : re :=
  Seq [Chr isQuote; Star true isSpace; Chr (chr "+"); Star true isSpace; Chr isQuote].

(** [/()(^[^\x22'])/g] *)
Definition beginVarRe : re := Seq [Grp 1 Eps; Grp 2 (Seq [Bol; Chr notQuote])].

(** [/^[\x22']/g] *)
Definition beginStrRe : re := Seq [Bol; Chr isQuote].

(** [/([^\x22'])()$/g] *)
Definition endVarRe : re := Seq [Grp 1 (Chr notQuote); Grp 2 Eps; Eol].

(** [/[\x22']$/g] *)
Definition endStrRe : re := Seq [Chr isQuote; Eol].

(** [/`/g] *)
Definition backtickRe : re := Chr (chr "`").

(** [/^.*\${.*?}.*$/] *)
Definition interpolatedRe : re :=
  Seq [Bol; Star true dot; Lit (s_ "${"); Star false dot; Lit (s_ "}");
       Star true dot; Eol].

(** [/\${.*?}/g] *)
Definition markerRe : re := Seq [Lit (s_ "${"); Star false dot; Lit (s_ "}")].

(** [/(\.js)$/] *)
Definition jsEndRe : re := Seq [Grp 1 (Lit (s_ ".js")); Eol].

(** [/\.(js|json)$/] *)
Definition jsJsonEndRe : re :=
  Seq [Lit (s_ "."); Grp 1 (Alt (Lit (s_ "js")) (Lit (s_ "json"))); Eol].

(** [/\.js$/] *)
Definition jsSuffixRe : re := Seq [Lit (s_ ".js"); Eol].

(** [/.$/] *)
Definition lastCharRe : re := Seq [Chr dot; Eol].

(** ** The [path] module

    [index.ts] calls four functions of Node's [path]; the rewriter is
    parametric in them. *)
Record PathApi : Type := {
  extname : str -> str;
  isAbsolute : str -> bool;
  normalize : str -> str;
  dirname : str -> str
}.

(** The POSIX flavour of Node's [path], for the concrete runs. *)
Module Posix.

Definition isSlash : ascii -> bool := chr "/".

Definition isAbsolute (p : str) : bool :=
  match p with c :: _ => isSlash c | [] => false end.

Fixpoint splitSlash (p : str) : list str :=
  match p with
  | [] => [[]]
  | c :: p' =>
      if isSlash c then [] :: splitSlash p'
      else match splitSlash p' with
           | seg :: segs => (c :: seg) :: segs
           | [] => [[c]]
           end
  end.

Fixpoint joinSlash (segs : list str) : str :=
  match segs with
  | [] => []
  | [seg] => seg
  | seg :: segs' => seg ++ "/" :: joinSlash segs'
  end.

(** One segment of [normalizeString]: empty segments and [.] are dropped,
    [..] removes the segment before it or, where there is none to remove,
    is kept when the path is relative. *)
Definition normStep (allowAboveRoot : bool) (res : list str) (seg : str)
  : list str :=
  if str_eqb seg [] || str_eqb seg (s_ ".") then res
  else if str_eqb seg (s_ "..") then
    match rev res with
    | l :: _ =>
        if str_eqb l (s_ "..")
        then (if allowAboveRoot then res ++ [s_ ".."] else res)
        else removelast res
    | [] => if allowAboveRoot then [s_ ".."] else []
    end
  else res ++ [seg].

Definition normalize (path : str) : str :=
  match path with
  | [] => s_ "."
  | c :: _ =>
      let isAbs := isSlash c in
      let trailingSeparator :=
        match rev path with l :: _ => isSlash l | [] => false end in
      let p := joinSlash (fold_left (normStep (negb isAbs)) (splitSlash path) []) in
      match p with
      | [] => if isAbs then s_ "/"
              else if trailingSeparator then s_ "./" else s_ "."
      | _ :: _ =>
          (if isAbs then s_ "/" else []) ++ p ++
          (if trailingSeparator then s_ "/" else [])
      end
  end.

Fixpoint dropSlashes (s : str) : str :=
  match s with
  | c :: s' => if isSlash c then dropSlashes s' else s
  | [] => []
  end.

Fixpoint takeSegment (s : str) : str :=
  match s with
  | c :: s' => if isSlash c then [] else c :: takeSegment s'
  | [] => []
  end.

(** The reversed extension (without its dot) and what precedes the dot,
    reading the last path component from its end. *)
Fixpoint splitAtDot (rbase : str) : option (str * str) :=
  match rbase with
  | [] => None
  | c :: r =>
      if chr "." c then Some ([], r)
      else match splitAtDot r with
           | Some (e, pre) => Some (c :: e, pre)
           | None => None
           end
  end.

Definition extname (path : str) : str :=
  let rbase := takeSegment (dropSlashes (rev path)) in
  match splitAtDot rbase with
  | None => []
  | Some (_, []) => []
  | Some (e, _ :: _) =>
      if str_eqb rbase (s_ "..") then [] else "." :: rev e
  end.

(** The index of the slash that ends the directory part, scanning from the
    end of the path down to index 1. *)
Fixpoint findEnd (rtl : str) (i : nat) (matchedSlash : bool) : option nat :=
  match rtl with
  | [] => None
  | c :: rtl' =>
      if isSlash c then
        if matchedSlash then findEnd rtl' (i - 1) true else Some i
      else findEnd rtl' (i - 1) false
  end.

Definition dirname (path : str) : str :=
  match path with
  | [] => s_ "."
  | c :: tl =>
      let hasRoot := isSlash c in
      match findEnd (rev tl) (length tl) true with
      | None => if hasRoot then s_ "/" else s_ "."
      | Some e => if hasRoot && (e =? 1) then s_ "//" else firstn e path
      end
  end.

Definition api : PathApi :=
  Build_PathApi extname isAbsolute normalize dirname.

End Posix.

(** ** Configuration *)

Record DynamicImportConfig : Type := {
  transformExtensions : option (list str);
  changeRelativeToAbsolute : option bool;
  filter : option re;
  loader : option str
}.

(** Truthiness of an optional boolean. *)
Definition truthy (b : option bool) : bool :=
  match b with Some true => true | _ => false end.

(** [Array.isArray(xs) && xs.includes(x)] *)
Definition isArrayIncluding (xs : option (list str)) (x : str) : bool :=
  match xs with
  | Some l => existsb (str_eqb x) l
  | None => false
  end.

(** ** The import rewriter *)

Record ImportData : Type := {
  fullImport : str;
  pathString : str
}.

(** The variables the loop over the matches assigns to. *)
Record LoopState : Type := {
  ls_fileContents : str;
  ls_importsToReplace : list ImportData;
  ls_globImports : list str
}.

(** What [replaceImports] does to the world: the calls of the glob resolver
    (pattern and [cwd]) and the number of [console.error] calls. *)
Record Effects : Type := {
  globCalls : list (str * str);
  consoleErrors : nat
}.

Definition noEffects : Effects := {| globCalls := []; consoleErrors := 0 |}.

(** The state of the deduplicating [filter] callback: the two maps and the
    elements kept so far. *)
Record DedupeState : Type := {
  uniqueFilePathsMap : JsMap nat;
  moduleMap : JsMap str;
  dedupedImportFilePaths : list str
}.

(** Lines 50 to 65: the destination path of a match argument. *)
Definition concatToTemplate (d : str) : str :=
  replaceRe true endStrRe (s_ "`")
  (replaceRe true endVarRe (s_ "$1}`")
  (replaceRe true beginStrRe (s_ "`")
  (replaceRe true beginVarRe (s_ "`${$2")
  (replaceRe true strStrRe []
  (replaceRe true varVarRe (s_ "$1}${$3")
  (replaceRe true varStrRe (s_ "$1}")
  (replaceRe true strVarRe (s_ "${$2") d))))))).

Definition destinationOf (arg : str) : str :=
  let destinationFile := trim (replaceRe true commentRe [] arg) in
  let destinationFile :=
    match trim destinationFile with
    | c :: _ => if chr "`" c then destinationFile else concatToTemplate destinationFile
    | [] => concatToTemplate destinationFile
    end in
  trim (replaceRe true backtickRe [] destinationFile).

Definition importFunctionString : str :=
  s_ "function _DynamicImport(path) {const mod=_DynamicImportModuleMap[path];if(mod) {mod[Symbol.toStringTag]='Module';}return Promise.resolve(mod);}".

Section Rewriter.

Variable Path : PathApi.
Variable FastGlob : str -> str -> promise (list str).

Definition rewriteCondition (config : DynamicImportConfig)
  (destinationFile fileExtension : str) : bool :=
  truthy (changeRelativeToAbsolute config)
    && negb (isAbsolute Path destinationFile)
    && str_eqb fileExtension (s_ ".js")
  || str_eqb fileExtension (s_ ".json").

Definition queueCondition (config : DynamicImportConfig)
  (destinationFile fileExtension : str) : bool :=
  isArrayIncluding (transformExtensions config) fileExtension
    && test interpolatedRe destinationFile.

(** The body of the loop over the matches (lines 48 to 79). *)
Definition processMatch (resolveDir : str) (config : DynamicImportConfig)
  (st : LoopState) (m : Match) : LoopState :=
  let destinationFile := destinationOf (group 1 m) in
  let fileExtension := extname Path destinationFile in
  if rewriteCondition config destinationFile fileExtension then
    let normalizedPath :=
      normalize Path (resolveDir ++ s_ "/" ++ destinationFile) in
    {| ls_fileContents :=
         replaceStr (ls_fileContents st) (group 1 m)
           (s_ "`" ++ normalizedPath ++ s_ "`");
       ls_importsToReplace := ls_importsToReplace st;
       ls_globImports := ls_globImports st |}
  else if queueCondition config destinationFile fileExtension then
    {| ls_fileContents := ls_fileContents st;
       ls_importsToReplace :=
         ls_importsToReplace st ++
         [{| fullImport := m_text m;
             pathString := s_ "`" ++ destinationFile ++ s_ "`" |}];
       ls_globImports :=
         ls_globImports st ++ [replaceRe true markerRe (s_ "**/*") destinationFile] |}
  else st.

Definition classify (fileContents resolveDir : str)
  (config : DynamicImportConfig) : LoopState :=
  fold_left (processMatch resolveDir config) (matchAll importRe fileContents)
    {| ls_fileContents := fileContents;
       ls_importsToReplace := [];
       ls_globImports := [] |}.

(** Lines 82 to 92: every pattern is handed to the glob resolver, the
    promises are joined, a rejection is caught and logged. *)
Definition resolveGlobs (resolveDir : str) (globImports : list str)
  : list str * Effects :=
  let filenameImportPromises :=
    map (fun globImport => FastGlob globImport resolveDir) globImports in
  let calls := map (fun globImport => (globImport, resolveDir)) globImports in
  match promiseAll filenameImportPromises with
  | Fulfilled paths => (concat paths, {| globCalls := calls; consoleErrors := 0 |})
  | Rejected => ([], {| globCalls := calls; consoleErrors := 1 |})
  end.

(** Lines 95 to 105.  The callback of [filter] returns an array, which is
    truthy whatever it holds. *)
Definition arrayIsTruthy (xs : list str) : bool := true.

Definition withExtensionless (importFilePaths : list str) : list str :=
  let jsImportFilePaths :=
    List.filter (fun filePath =>
      if test jsEndRe filePath
      then arrayIsTruthy [filePath; replaceRe false jsJsonEndRe [] filePath]
      else arrayIsTruthy [filePath]) importFilePaths in
  importFilePaths ++
  map (fun jsFilePath => replaceRe false jsSuffixRe [] jsFilePath) jsImportFilePaths.

(** Lines 113 to 122: the callback of the deduplicating [filter]. *)
Definition slotName (slot : option nat) : str :=
  s_ "_DynamicImportModule" ++
  match slot with Some n => dec n | None => s_ "undefined" end.

Definition dedupeStep (resolveDir : str) (st : DedupeState) (filePath : str)
  : DedupeState :=
  let pathNormalized := normalize Path (resolveDir ++ s_ "/" ++ filePath) in
  let fresh := negb (map_has pathNormalized (uniqueFilePathsMap st)) in
  let unique' :=
    if fresh
    then map_set pathNormalized (map_size (uniqueFilePathsMap st)) (uniqueFilePathsMap st)
    else uniqueFilePathsMap st in
  {| uniqueFilePathsMap := unique';
     moduleMap :=
       map_set filePath (slotName (map_get pathNormalized unique')) (moduleMap st);
     dedupedImportFilePaths :=
       if fresh then dedupedImportFilePaths st ++ [filePath]
       else dedupedImportFilePaths st |}.

Definition dedupe (resolveDir : str) (importFilePaths : list str) : DedupeState :=
  fold_left (dedupeStep resolveDir) importFilePaths
    {| uniqueFilePathsMap := []; moduleMap := []; dedupedImportFilePaths := [] |}.

(** Lines 124 to 127: [reduce] with the accumulator and the index. *)
Definition importStringStep (acc : str * nat) (path : str) : str * nat :=
  let '(accum, i) := acc in
  let accum := if negb (str_eqb accum []) then accum ++ [LF] else accum in
  (accum ++ s_ "import * as _DynamicImportModule" ++ dec i ++ s_ " from '"
     ++ path ++ s_ "';", S i).

Definition importStringOf (deduped : list str) : str :=
  fst (fold_left importStringStep deduped ([], 0)).

(** Lines 129 to 136. *)
Definition objectMapStringOf (mm : JsMap str) : str :=
  replaceRe false lastCharRe (s_ "};")
    (fold_left (fun objectMapString '(key, value) =>
                  objectMapString ++ s_ "'" ++ key ++ s_ "':" ++ value ++ s_ ",")
       mm (s_ "const _DynamicImportModuleMap = {")).

(** Lines 142 to 144. *)
Definition substituteImport (fileContents : str) (importData : ImportData) : str :=
  replaceStr fileContents (fullImport importData)
    (s_ "_DynamicImport(" ++ pathString importData ++ s_ ")").

Definition replaceImports (fileContents resolveDir : str)
  (config : DynamicImportConfig) : promise str * Effects :=
  let st := classify fileContents resolveDir config in
  let fileContents := ls_fileContents st in
  if 0 <? length (ls_globImports st) then
    let '(importFilePaths, eff) := resolveGlobs resolveDir (ls_globImports st) in
    let importFilePaths := withExtensionless importFilePaths in
    if length importFilePaths =? 0 then (Fulfilled fileContents, eff)
    else
      let d := dedupe resolveDir importFilePaths in
      let importString := importStringOf (dedupedImportFilePaths d) in
      let objectMapString := objectMapStringOf (moduleMap d) in
      let jsStr :=
        importString ++ [LF] ++ objectMapString ++ [LF]
          ++ importFunctionString ++ [LF] in
      let fileContents :=
        fold_left substituteImport (ls_importsToReplace st) fileContents in
      (Fulfilled (jsStr ++ fileContents), eff)
  else (Fulfilled fileContents, noEffects).

End Rewriter.

(** ** The cache-checked loader and the plugin factory *)

Record OnLoadResult : Type := {
  contents : str;
  resultLoader : str
}.

Record CacheValue : Type := {
  fileContents : str;
  output : OnLoadResult
}.

Definition Cache := JsMap CacheValue.

Section Loader.

Variable Path : PathApi.
Variable FastGlob : str -> str -> promise (list str).
Variable readFile : str -> promise str.

(** The callback of [build.onLoad] (lines 24 to 38): the result, the cache
    afterwards and what the call did to the world.  A rejected read leaves
    the callback before the cache is looked at. *)
Definition onLoad (config : DynamicImportConfig) (defaultLoader : str)
  (cache : Cache) (args_path : str) : promise OnLoadResult * Cache * Effects :=
  let resolveDir := dirname Path args_path in
  let fileExtension := extname Path args_path in
  let loader :=
    if str_eqb fileExtension (s_ ".json") then s_ "json" else defaultLoader in
  match readFile args_path with
  | Rejected => (Rejected, cache, noEffects)
  | Fulfilled fileContents' =>
      let value := map_get args_path cache in
      let stale :=
        match value with
        | None => true
        | Some v => negb (str_eqb (fileContents v) fileContents')
        end in
      if stale then
        match replaceImports Path FastGlob fileContents' resolveDir config with
        | (Fulfilled contents, eff) =>
            let value :=
              {| fileContents := fileContents';
                 output := {| contents := contents; resultLoader := loader |} |} in
            (Fulfilled (output value), map_set args_path value cache, eff)
        | (Rejected, eff) => (Rejected, cache, eff)
        end
      else
        match value with
        | Some v => (Fulfilled (output v), cache, noEffects)
        | None => (Rejected, cache, noEffects)
        end
  end.

(** The hooks a plugin has registered with the host: the filter, the
    callback and the cache the callback closes over. *)
Record OnLoadHook : Type := {
  hookFilter : re;
  hookCallback : Cache -> str -> promise OnLoadResult * Cache * Effects;
  hookCache : Cache
}.

Definition PluginBuild := list OnLoadHook.

Record Plugin : Type := {
  name : str;
  setup : PluginBuild -> PluginBuild
}.

(** A call either returns or throws an [Error] with a message. *)
Inductive completion (A : Type) : Type :=
| Returned (a : A)
| Thrown (message : str).

(** The default export (lines 13 to 41). *)
Definition dynamicImport (config : DynamicImportConfig) : completion Plugin :=
  if negb (match transformExtensions config with Some _ => true | None => false end)
     && negb (truthy (changeRelativeToAbsolute config))
  then Thrown _ (s_ "Either transformExtensions needs to be supplied or changeRelativeToAbsolute needs to be true")
  else
    let filter := match filter config with Some f => f | None => jsJsonEndRe end in
    let defaultLoader := match loader config with Some l => l | None => s_ "js" end in
    Returned
      {| name := s_ "rtvision:dynamic-import";
         setup := fun build =>
           let cache : Cache := [] in
           build ++ [{| hookFilter := filter;
                        hookCallback := onLoad config defaultLoader;
                        hookCache := cache |}] |}.

End Loader.

(** ** Notions the statements are written with *)

(** An [import(...)] occurrence: the text [import(], a non-empty argument
    free of closing parentheses, and a closing parenthesis. *)
Definition importOccurs (s : str) : Prop :=
  exists pre a post,
    s = pre ++ s_ "import(" ++ a ++ s_ ")" ++ post /\
    a <> [] /\ Forall (fun c => c <> ")") a.

(** [pat] occurs in [s] at index [i]. *)
Definition occursAt (pat s : str) (i : nat) : Prop :=
  exists post, skipn i s = pat ++ post /\ i <= length s.

(** [s] is [pre ++ pat ++ post] and [pat] occurs nowhere before. *)
Definition firstOccurrence (pat s pre post : str) : Prop :=
  s = pre ++ pat ++ post /\
  forall j, j < length pre -> prefixb pat (skipn j s) = false.

(** A replacement text in which no dollar sign starts a substitution
    pattern of a string-pattern [replace]. *)
Fixpoint plainTemplate (t : str) : bool :=
  match t with
  | [] => true
  | c :: t' =>
      if chr "$" c then
        match t' with
        | d :: _ =>
            negb (chr "$" d || chr "&" d || chr "`" d || chr "'" d)
              && plainTemplate t'
        | [] => true
        end
      else plainTemplate t'
  end.

(** The body of a template literal that the extraction of lines 50 to 65
    leaves as it is: no backtick, nothing a comment could be made of
    (asterisk, line feed), no white space at either end. *)
Definition cleanTemplateBody (t : str) : Prop :=
  Forall (fun c => c <> "`" /\ c <> "*" /\ c <> LF) t /\ trim t = t.

Fixpoint intercalate (sep : str) (l : list str) : str :=
  match l with
  | [] => []
  | [x] => x
  | x :: l' => x ++ sep ++ intercalate sep l'
  end.

Definition importLine (ip : nat * str) : str :=
  s_ "import * as _DynamicImportModule" ++ dec (fst ip) ++ s_ " from '"
    ++ snd ip ++ s_ "';".

Definition numbered {A} (l : list A) : list (nat * A) :=
  combine (seq 0 (length l)) l.

Definition mapEntry (kv : str * str) : str :=
  s_ "'" ++ fst kv ++ s_ "':" ++ snd kv.

(** The first spelling of every distinct normalized path, in the order in
    which the normalized paths are first seen. *)
Fixpoint firstSeenFrom (norm : str -> str) (seen paths : list str) : list str :=
  match paths with
  | [] => []
  | p :: ps =>
      if existsb (str_eqb (norm p)) seen then firstSeenFrom norm seen ps
      else p :: firstSeenFrom norm (seen ++ [norm p]) ps
  end.

Definition firstSeen (norm : str -> str) (paths : list str) : list str :=
  firstSeenFrom norm [] paths.

(** The distinct elements of a list, each at its first occurrence. *)
Fixpoint distinctFrom (seen l : list str) : list str :=
  match l with
  | [] => []
  | x :: l' =>
      if existsb (str_eqb x) seen then distinctFrom seen l'
      else x :: distinctFrom (seen ++ [x]) l'
  end.

Definition distinct (l : list str) : list str := distinctFrom [] l.

Fixpoint indexIn (x : str) (l : list str) : option nat :=
  match l with
  | [] => None
  | y :: l' => if str_eqb y x then Some 0 else option_map S (indexIn x l')
  end.

(** [p] without a trailing [.js]. *)
Definition stripJs (p : str) : str :=
  match rev p with
  | c3 :: c2 :: c1 :: r => if str_eqb [c1; c2; c3] (s_ ".js") then rev r else p
  | _ => p
  end.

(** The normalized absolute path the deduplication compares. *)
Definition normalizedIn (Path : PathApi) (resolveDir filePath : str) : str :=
  normalize Path (resolveDir ++ s_ "/" ++ filePath).

(** The text [import(] occurs nowhere in [s]. *)
Definition noImportText (s : str) : Prop :=
  forall u v, s <> u ++ s_ "import(" ++ v.

(** A unit of a path written without quotes, white space, backticks, plus
    signs, asterisks and closing parentheses. *)
Definition plainPathChar (c : ascii) : bool :=
  negb (isQuote c || isSpace c || chr "`" c || chr "+" c || chr "*" c || chr ")" c).

(** The code put before the text: the import lines, the object literal with
    the given entries, the lookup function, each followed by a line feed. *)
Definition generatedCode (importLines entries : list str) : str :=
  intercalate [LF] importLines ++ [LF]
    ++ (s_ "const _DynamicImportModuleMap = {"
          ++ intercalate (s_ ",") entries ++ s_ "};") ++ [LF]
    ++ importFunctionString ++ [LF].

(** ** Replacements of first occurrences, one call after the other *)












(** ** Predicates of the proofs *)

(** No attempt of [r] succeeds on any suffix of [rest]. *)
Definition neverMatches (r : re) (rest : str) : Prop :=
  forall pos pre rest', rest = pre ++ rest' -> execAt r pos rest' = None.

(** What line 44 hands to the loop: the matched text is [import(], the
    first group and [)]. *)
Definition importMatch (m : Match) : Prop :=
  m_text m = s_ "import(" ++ group 1 m ++ s_ ")" /\
  group 1 m <> [] /\ Forall (fun c => c <> ")") (group 1 m).

(** An entry of [importsToReplace]: the text of an import call whose
    destination passed the second test of the loop and not the first. *)
Definition queuedImport (Path : PathApi) (config : DynamicImportConfig)
  (d : ImportData) : Prop :=
  exists a,
    fullImport d = s_ "import(" ++ a ++ s_ ")" /\
    a <> [] /\ Forall (fun c => c <> ")") a /\
    pathString d = s_ "`" ++ destinationOf a ++ s_ "`" /\
    rewriteCondition Path config (destinationOf a)
      (extname Path (destinationOf a)) = false /\
    queueCondition config (destinationOf a)
      (extname Path (destinationOf a)) = true.

(** The module map only names slots of the numbering. *)
Definition consistent (Path : PathApi) (resolveDir : str) (st : DedupeState) : Prop :=
  forall k v,
    map_get k (moduleMap st) = Some v ->
    exists i, map_get (normalizedIn Path resolveDir k) (uniqueFilePathsMap st) = Some i /\
              v = slotName (Some i).

(** The numbering gives the kept spellings their positions. *)
Definition numbering (Path : PathApi) (resolveDir : str) (st : DedupeState) : Prop :=
  map snd (uniqueFilePathsMap st) = seq 0 (length (uniqueFilePathsMap st)) /\
  map fst (uniqueFilePathsMap st) =
    map (normalizedIn Path resolveDir) (dedupedImportFilePaths st).

(** No attempt of [r] succeeds on a suffix of [rest], [rest] standing at
    index [pos] of the subject. *)
Definition noMatchFrom (r : re) (pos : nat) (rest : str) : Prop :=
  forall pre rest', rest = pre ++ rest' -> execAt r (pos + length pre) rest' = None.

(** ** Notions of the further properties *)

(** A destination written as text and [${...}] markers by turns, and the
    glob pattern with [**/*] for every marker. *)
Definition withMarkers (segments : list (str * str)) (tail : str) : str :=
  concat (map (fun '(a, b) => a ++ s_ "${" ++ b ++ s_ "}") segments) ++ tail.

Definition globPatternOf (segments : list (str * str)) (tail : str) : str :=
  concat (map (fun '(a, _) => a ++ s_ "**/*") segments) ++ tail.

(** The text [${] occurs nowhere in [s]. *)
Definition noMarkerStart (s : str) : Prop :=
  forall u v, s <> u ++ s_ "${" ++ v.

(** [p] ends with [suffix]. *)
Definition endsWith (suffix p : str) : Prop := exists q, p = q ++ suffix.

(** A call of the registered callback by the host: the path, what the read
    of the file gives at that moment and the glob resolver as it answers
    at that moment.  The calls are taken one after the other: a call has
    returned before the next one starts. *)
Record LoadCall : Type := {
  lc_path : str;
  lc_read : promise str;
  lc_glob : str -> str -> promise (list str)
}.

Definition loadCall (Path : PathApi) (config : DynamicImportConfig)
  (defaultLoader : str) (cache : Cache) (c : LoadCall)
  : promise OnLoadResult * Cache * Effects :=
  onLoad Path (lc_glob c) (fun _ => lc_read c) config defaultLoader cache (lc_path c).

(** The cache of a hook after the calls, the first one finding it empty. *)
Definition cacheAfter (Path : PathApi) (config : DynamicImportConfig)
  (defaultLoader : str) (calls : list LoadCall) : Cache :=
  fold_left (fun cache c => snd (fst (loadCall Path config defaultLoader cache c)))
    calls [].

(** Line 27. *)
Definition loaderFor (Path : PathApi) (defaultLoader path : str) : str :=
  if str_eqb (extname Path path) (s_ ".json") then s_ "json" else defaultLoader.

(** White space other than the line feed. *)
Definition blankChar (c : ascii) : bool := isSpace c && negb (chr LF c).

(** Neither [/*] nor [//] occurs in [s]. *)
Definition noCommentStart (s : str) : Prop :=
  forall u v, s <> u ++ s_ "/*" ++ v /\ s <> u ++ s_ "//" ++ v.

(** ** Concrete configurations and resolvers for the runs *)

(** [{ transformExtensions: ['.js'] }] *)
Definition configTransformJs : DynamicImportConfig :=
  {| transformExtensions := Some [s_ ".js"];
     changeRelativeToAbsolute := None;
     filter := None;
     loader := None |}.

(** [{ changeRelativeToAbsolute: true }] *)
Definition configAbsolute : DynamicImportConfig :=
  {| transformExtensions := None;
     changeRelativeToAbsolute := Some true;
     filter := None;
     loader := None |}.

(** A resolver that finds [mod-a.js] and [mod-b.js] for every pattern. *)
Definition globTwoModules (pattern cwd : str) : promise (list str) :=
  Fulfilled [s_ "mod-a.js"; s_ "mod-b.js"].


(** A resolver that finds one file under two spellings. *)
Definition globTwoSpellings (pattern cwd : str) : promise (list str) :=
  Fulfilled [s_ "lib/a.js"; s_ "./lib/a.js"].

Definition globNothing (pattern cwd : str) : promise (list str) := Fulfilled [].

Definition globFailing (pattern cwd : str) : promise (list str) := Rejected.

(** A file system with one file. *)
Definition readOnly (path contents : str) (p : str) : promise str :=
  if str_eqb p path then Fulfilled contents else Rejected.

(** * Proofs *)

Lemma str_eqb_eq (a b : str) : str_eqb a b = true <-> a = b.
Proof.
  unfold str_eqb. destruct (list_eq_dec ascii_dec a b); split; congruence.
Qed.

Lemma str_eqb_refl (a : str) : str_eqb a a = true.
Proof. now apply str_eqb_eq. Qed.

Lemma str_eqb_neq (a b : str) : str_eqb a b = false <-> a <> b.
Proof.
  unfold str_eqb. destruct (list_eq_dec ascii_dec a b); split; congruence.
Qed.

Lemma chr_true (a c : ascii) : chr a c = true <-> c = a.
Proof. unfold chr. rewrite Ascii.eqb_eq. split; congruence. Qed.

Lemma chr_false (a c : ascii) : chr a c = false <-> c <> a.
Proof. unfold chr. rewrite Ascii.eqb_neq. split; congruence. Qed.

Arguments chr : simpl never.
Arguments isSpace : simpl never.
Arguments dot : simpl never.
Arguments isQuote : simpl never.
Arguments notQuote : simpl never.
Arguments notQuoteSpace : simpl never.
Arguments notRParen : simpl never.
Arguments isDigit : simpl never.

(** ** The matcher *)

Section Stars.

Variable p : ascii -> bool.
Variable k : cont.

(** A successful greedy run stops after some units of the class, and
    the continuation succeeds there. *)
Lemma star_greedy_sound (x : nat * caps) :
  forall rest pos cs,
    star_greedy p pos rest cs k = Some x ->
    exists w rest',
      rest = w ++ rest' /\ Forall (fun c => p c = true) w /\
      k (pos + length w) rest' cs = Some x.
Proof.
  induction rest as [|c rest IH]; simpl; intros pos cs H.
  - exists [], []. rewrite Nat.add_0_r. auto.
  - destruct (p c) eqn:Hc.
    + destruct (star_greedy p (S pos) rest cs k) eqn:Hs.
      * injection H as ->. apply IH in Hs as (w & rest' & -> & Hw & Hk).
        exists (c :: w), rest'. simpl. rewrite <- plus_n_Sm. auto.
      * exists [], (c :: rest). rewrite Nat.add_0_r. auto.
    + exists [], (c :: rest). rewrite Nat.add_0_r. auto.
Qed.

Lemma star_lazy_sound (x : nat * caps) :
  forall rest pos cs,
    star_lazy p pos rest cs k = Some x ->
    exists w rest',
      rest = w ++ rest' /\ Forall (fun c => p c = true) w /\
      k (pos + length w) rest' cs = Some x.
Proof.
  induction rest as [|c rest IH]; simpl; intros pos cs H.
  - destruct (k pos [] cs) eqn:Hk; [|discriminate].
    exists [], []. rewrite Nat.add_0_r. injection H as ->. auto.
  - destruct (k pos (c :: rest) cs) eqn:Hk.
    + injection H as ->. exists [], (c :: rest). rewrite Nat.add_0_r. auto.
    + destruct (p c) eqn:Hc; [|discriminate].
      apply IH in H as (w & rest' & -> & Hw & Hk').
      exists (c :: w), rest'. simpl. rewrite <- plus_n_Sm. auto.
Qed.

(** The longest run wins as soon as the continuation accepts it. *)
Lemma star_greedy_longest (x : nat * caps) :
  forall w rest' pos cs,
    Forall (fun c => p c = true) w ->
    k (pos + length w) rest' cs = Some x ->
    match rest' with c :: _ => p c = false | [] => True end ->
    star_greedy p pos (w ++ rest') cs k = Some x.
Proof.
  induction w as [|c w IH]; simpl; intros rest' pos cs Hw Hk Hr.
  - rewrite Nat.add_0_r in Hk.
    destruct rest' as [|c r]; simpl; auto. now rewrite Hr.
  - inversion Hw; subst. rewrite H1.
    rewrite (IH rest' (S pos) cs); auto.
    now rewrite <- plus_n_Sm in Hk.
Qed.

End Stars.

(** ** The pattern of line 44 *)

Ltac eat H :=
  match type of H with
  | match ?r with [] => None | _ :: _ => _ end = Some _ =>
      let c := fresh "c" in
      let E := fresh "E" in
      destruct r as [|c r]; [discriminate H|];
      match type of H with
      | (if ?b then _ else None) = Some _ =>
          destruct b eqn:E; [|discriminate H]
      end
  end.

Lemma execAt_importRe_sound pos rest e cs :
  execAt importRe pos rest = Some (e, cs) ->
  exists a rest',
    rest = s_ "import(" ++ a ++ s_ ")" ++ rest' /\
    a <> [] /\ Forall (fun c => c <> ")") a /\
    e = pos + length (s_ "import(" ++ a ++ s_ ")") /\ cs = [(1, a)].
Proof.
  unfold execAt, importRe. cbn -[firstn Nat.sub]. intros H.
  do 8 eat H.
  apply star_greedy_sound in H as (w & rest' & -> & Hw & H).
  eat H. unfold accept in H. injection H as <- <-.
  repeat match goal with E : chr _ _ = true |- _ => apply chr_true in E; subst end.
  unfold notRParen in E6. apply negb_true_iff, chr_false in E6.
  exists (c6 :: w), rest'. repeat split.
  - discriminate.
  - constructor; auto. eapply Forall_impl; [|exact Hw].
    intros a Ha. unfold notRParen in Ha. now apply negb_true_iff, chr_false in Ha.
  - simpl. rewrite length_app. simpl. lia.
  - do 3 f_equal.
    match goal with
    | |- firstn ?n _ = _ =>
        assert (Hn : n = S (length w)) by (destruct pos; try lia; simpl; lia); rewrite Hn
    end.
    simpl. f_equal. rewrite firstn_app, Nat.sub_diag, firstn_all. simpl. apply app_nil_r.
Qed.

Lemma execAt_importRe_complete pos a rest' :
  a <> [] -> Forall (fun c => c <> ")") a ->
  execAt importRe pos (s_ "import(" ++ a ++ s_ ")" ++ rest') =
  Some (pos + length (s_ "import(" ++ a ++ s_ ")"), [(1, a)]).
Proof.
  intros Ha Hf. destruct a as [|c w]; [congruence|]. inversion Hf; subst.
  unfold execAt, importRe. cbn -[firstn Nat.sub].
  assert (Hc : notRParen c = true)
    by (unfold notRParen; now apply negb_true_iff, chr_false).
  rewrite Hc.
  set (n7 := S (S (S (S (S (S (S pos))))))).
  erewrite star_greedy_longest with (p := notRParen) (w := w) (rest' := ")" :: rest').
  - reflexivity.
  - eapply Forall_impl; [|exact H2]. intros a Ha'.
    unfold notRParen. now apply negb_true_iff, chr_false.
  - cbn -[firstn Nat.sub]. unfold accept.
    replace (chr ")" ")") with true by (symmetry; now apply chr_true).
    f_equal. f_equal.
    + rewrite length_app. simpl. lia.
    + do 2 f_equal.
      match goal with
      | |- firstn ?n _ = _ => replace n with (S (length w)) by (subst n7; lia)
      end.
      simpl. f_equal. rewrite firstn_app, Nat.sub_diag, firstn_all. simpl. apply app_nil_r.
  - reflexivity.
Qed.

(** ** Scanning *)

Section Scanning.

Variable r : re.

(** Every match object of a scan comes from a successful attempt. *)
Lemma scanAll_Forall (P : Match -> Prop) :
  (forall pos rest e cs,
      execAt r pos rest = Some (e, cs) ->
      P (mkMatch pos (firstn (e - pos) rest) cs)) ->
  forall rest pos skip, Forall P (scanAll r pos rest skip).
Proof.
  intros HP. induction rest as [|c rest IH]; intros pos skip.
  - destruct skip; simpl; auto.
    destruct (execAt r pos []) as [[e cs]|] eqn:He; auto.
  - destruct skip; simpl; auto.
    destruct (execAt r pos (c :: rest)) as [[e cs]|] eqn:He; auto.
Qed.

Lemma neverMatches_tail c rest : neverMatches r (c :: rest) -> neverMatches r rest.
Proof. intros H pos pre rest' ->. apply (H pos (c :: pre)). reflexivity. Qed.

Lemma neverMatches_here rest pos : neverMatches r rest -> execAt r pos rest = None.
Proof. intros H. apply (H pos []). reflexivity. Qed.

Lemma scanAll_never rest :
  neverMatches r rest -> forall pos, scanAll r pos rest 0 = [].
Proof.
  induction rest as [|c rest IH]; intros H pos; simpl;
    rewrite (neverMatches_here pos H); auto.
  apply IH. eapply neverMatches_tail; eauto.
Qed.

Lemma replaceFrom_never global tmpl s rest :
  neverMatches r rest -> forall pos, replaceFrom global r tmpl s pos rest 0 = rest.
Proof.
  induction rest as [|c rest IH]; intros H pos; simpl;
    rewrite (neverMatches_here pos H); auto.
  f_equal. apply IH. eapply neverMatches_tail; eauto.
Qed.

Lemma replaceRe_never global tmpl s :
  neverMatches r s -> replaceRe global r tmpl s = s.
Proof. intros H. unfold replaceRe. now apply replaceFrom_never. Qed.

End Scanning.

(** ** Occurrences of [import(...)] *)

Lemma importOccurs_cons c s : importOccurs s -> importOccurs (c :: s).
Proof.
  intros (pre & a & post & -> & Ha & Hf). exists (c :: pre), a, post. auto.
Qed.

Lemma scanAll_importRe_sound :
  forall rest pos skip, scanAll importRe pos rest skip <> [] -> importOccurs rest.
Proof.
  induction rest as [|c rest IH]; intros pos skip H.
  - destruct skip; simpl in H; [|congruence].
    destruct (execAt importRe pos []) as [[e cs]|] eqn:He; [|congruence].
    apply execAt_importRe_sound in He as (a & rest' & Hr & _). discriminate.
  - destruct skip; simpl in H.
    + destruct (execAt importRe pos (c :: rest)) as [[e cs]|] eqn:He.
      * apply execAt_importRe_sound in He as (a & rest' & Hr & Ha & Hf & _).
        exists [], a, rest'. auto.
      * apply importOccurs_cons. eapply IH; eauto.
    + apply importOccurs_cons. eapply IH; eauto.
Qed.

Lemma scanAll_importRe_complete a post :
  a <> [] -> Forall (fun c => c <> ")") a ->
  forall pre pos skip,
    skip <= length pre ->
    scanAll importRe pos (pre ++ s_ "import(" ++ a ++ s_ ")" ++ post) skip <> [].
Proof.
  intros Ha Hf. induction pre as [|c pre IH]; intros pos skip Hs.
  - simpl in Hs. assert (skip = 0) by lia. subst.
    rewrite app_nil_l. change (s_ "import(" ++ a ++ s_ ")" ++ post)
      with (s_ "import(" ++ a ++ s_ ")" ++ post).
    unfold scanAll. destruct (s_ "import(" ++ a ++ s_ ")" ++ post) eqn:E; [discriminate|].
    fold scanAll. rewrite <- E, execAt_importRe_complete by auto. discriminate.
  - simpl in Hs. destruct skip; simpl.
    + destruct (execAt importRe pos _) as [[e cs]|]; [discriminate|].
      apply IH. lia.
    + apply IH. lia.
Qed.

(** The scan of line 44 finds nothing exactly in the texts without an
    [import(...)] occurrence. *)
Lemma matchAll_importRe_nil s : matchAll importRe s = [] <-> ~ importOccurs s.
Proof.
  split.
  - intros H (pre & a & post & -> & Ha & Hf).
    eapply scanAll_importRe_complete with (skip := 0); eauto. lia.
  - intros H. destruct (matchAll importRe s) eqn:E; auto.
    exfalso. apply H. eapply scanAll_importRe_sound with (pos := 0) (skip := 0).
    unfold matchAll in E. rewrite E. discriminate.
Qed.

(** ** String patterns and replacement texts *)

Lemma prefixb_app pat post : prefixb pat (pat ++ post) = true.
Proof.
  induction pat as [|c pat IH]; simpl; auto.
  now rewrite Ascii.eqb_refl.
Qed.

Lemma prefixb_true pat : forall s, prefixb pat s = true -> exists post, s = pat ++ post.
Proof.
  induction pat as [|c pat IH]; intros s H; simpl in *.
  - now exists s.
  - destruct s as [|d s]; [discriminate|].
    apply andb_true_iff in H as [Hc Hp]. apply Ascii.eqb_eq in Hc. subst.
    apply IH in Hp as [post ->]. now exists post.
Qed.

Lemma indexOfFrom_first pat post :
  forall pre pos,
    (forall j, j < length pre -> prefixb pat (skipn j (pre ++ pat ++ post)) = false) ->
    indexOfFrom pat pos (pre ++ pat ++ post) = Some (pos + length pre).
Proof.
  induction pre as [|c pre IH]; intros pos H.
  - simpl. destruct (pat ++ post) eqn:E; simpl;
      rewrite <- E, prefixb_app; f_equal; lia.
  - pose proof (H 0 ltac:(simpl; lia)) as H0. simpl in H0 |- *. rewrite H0.
    rewrite IH; [f_equal; lia|].
    intros j Hj. apply (H (S j)). simpl. lia.
Qed.

Lemma indexOfFrom_sound pat :
  forall rest pos i,
    indexOfFrom pat pos rest = Some i ->
    exists pre post,
      firstOccurrence pat rest pre post /\ i = pos + length pre.
Proof.
  induction rest as [|c rest IH]; intros pos i H; simpl in H.
  - destruct (prefixb pat []) eqn:E; [|discriminate]. injection H as <-.
    apply prefixb_true in E as [post E].
    exists [], post. split; [split|]; simpl; auto; lia.
  - destruct (prefixb pat (c :: rest)) eqn:E.
    + injection H as <-. apply prefixb_true in E as [post E].
      exists [], post. split; [split|]; simpl; auto; lia.
    + apply IH in H as (pre & post & [Hs Hf] & ->).
      exists (c :: pre), post. split; [split|]; simpl.
      * now rewrite Hs.
      * intros [|j] Hj; simpl; auto. apply Hf. lia.
      * lia.
Qed.

Lemma indexOfFrom_none pat :
  forall rest pos,
    indexOfFrom pat pos rest = None ->
    forall pre post, rest <> pre ++ pat ++ post.
Proof.
  induction rest as [|c rest IH]; intros pos H pre post E; simpl in H.
  - destruct (prefixb pat []) eqn:Ep; [discriminate|].
    symmetry in E. apply app_eq_nil in E as [-> E]. apply app_eq_nil in E as [-> _].
    discriminate.
  - destruct (prefixb pat (c :: rest)) eqn:Ep; [discriminate|].
    destruct pre as [|d pre]; simpl in E.
    + rewrite E, prefixb_app in Ep. discriminate.
    + injection E as -> E. eapply IH; eauto.
Qed.

Lemma no_group_in_range v : (1 <=? v) && (v <=? 0) = false.
Proof. destruct v; reflexivity. Qed.

(** A replacement text without substitution patterns stands for itself. *)
Lemma getSubstitution_plain matched s position cs :
  forall n t, length t <= n -> plainTemplate t = true ->
              getSubstitution matched s position cs 0 t = t.
Proof.
  induction n as [|n IH]; intros t Hn Hp.
  - destruct t; [reflexivity|simpl in Hn; lia].
  - destruct t as [|c t]; [reflexivity|]. simpl in Hn.
    cbn [getSubstitution]. cbn [plainTemplate] in Hp.
    destruct (chr "$" c) eqn:Hc; cbn [negb].
    + destruct t as [|d t]; [reflexivity|].
      apply andb_true_iff in Hp as [Hd Hp].
      apply negb_true_iff in Hd.
      repeat (apply orb_false_iff in Hd as [Hd ?]).
      rewrite Hd, H1, H0, H. simpl in Hn.
      assert (Hdt : getSubstitution matched s position cs 0 (d :: t) = d :: t)
        by (apply IH; simpl; auto; lia).
      destruct (isDigit d) eqn:Hdig; [|now rewrite Hdt].
      assert (Ht : getSubstitution matched s position cs 0 t = t).
      { apply IH; [lia|]. cbn [plainTemplate] in Hp. now rewrite Hd in Hp. }
      cbv zeta. rewrite !no_group_in_range, Ht.
      destruct t as [|e t]; [reflexivity|].
      destruct (isDigit e); [|reflexivity]. now rewrite no_group_in_range.
    + f_equal. apply IH; auto. lia.
Qed.

Lemma firstOccurrence_firstn pat s pre post :
  firstOccurrence pat s pre post ->
  firstn (length pre) s = pre /\ skipn (length pre + length pat) s = post.
Proof.
  intros [-> _]. split.
  - now rewrite firstn_app, Nat.sub_diag, firstn_all, app_nil_r.
  - rewrite app_assoc, <- length_app, skipn_app, Nat.sub_diag, skipn_all. reflexivity.
Qed.

(** [replace] with a string pattern splices the first occurrence. *)
Lemma replaceStr_first s pat repl pre post :
  firstOccurrence pat s pre post ->
  replaceStr s pat repl =
  pre ++ getSubstitution pat s (length pre) [] 0 repl ++ post.
Proof.
  intros H. destruct (firstOccurrence_firstn H) as [Hf Hs].
  unfold replaceStr, indexOf. destruct H as [E Hn].
  rewrite E at 1. rewrite indexOfFrom_first by (now rewrite <- E).
  simpl. now rewrite Hf, Hs.
Qed.

Lemma replaceStr_first_plain s pat repl pre post :
  firstOccurrence pat s pre post -> plainTemplate repl = true ->
  replaceStr s pat repl = pre ++ repl ++ post.
Proof.
  intros H Hp. rewrite (replaceStr_first repl H).
  now rewrite (@getSubstitution_plain pat s (length pre) [] (length repl) repl).
Qed.


(** ** JavaScript maps *)

Section Maps.

Variable V : Type.
Implicit Types (m : JsMap V) (k : str) (v : V).

Lemma map_get_set_same k v m : map_get k (map_set k v m) = Some v.
Proof.
  induction m as [|[k' v'] m IH]; simpl.
  - now rewrite str_eqb_refl.
  - destruct (str_eqb k' k) eqn:E; simpl; now rewrite E.
Qed.

Lemma map_get_set_other k k' v m :
  k' <> k -> map_get k' (map_set k v m) = map_get k' m.
Proof.
  intros Hk. induction m as [|[k0 v0] m IH]; simpl.
  - destruct (str_eqb k k') eqn:E; auto. apply str_eqb_eq in E. congruence.
  - destruct (str_eqb k0 k) eqn:E; simpl.
    + apply str_eqb_eq in E. subst.
      destruct (str_eqb k k') eqn:E'; auto. apply str_eqb_eq in E'. congruence.
    + now rewrite IH.
Qed.

Lemma map_has_existsb k m : map_has k m = existsb (str_eqb k) (map fst m).
Proof.
  unfold map_has. induction m as [|[k' v'] m IH]; simpl; auto.
  destruct (str_eqb k' k) eqn:E.
  - apply str_eqb_eq in E. subst. now rewrite str_eqb_refl.
  - destruct (str_eqb k k') eqn:E'; auto.
    apply str_eqb_eq in E'. subst. now rewrite str_eqb_refl in E.
Qed.

Lemma map_set_fresh k v m : map_has k m = false -> map_set k v m = m ++ [(k, v)].
Proof.
  unfold map_has. induction m as [|[k' v'] m IH]; simpl; auto.
  destruct (str_eqb k' k); [discriminate|]. intros H. now rewrite IH.
Qed.

Lemma map_set_keys_present k v m :
  map_has k m = true -> map fst (map_set k v m) = map fst m.
Proof.
  unfold map_has. induction m as [|[k' v'] m IH]; simpl; [discriminate|].
  destruct (str_eqb k' k) eqn:E; simpl; auto. intros H. now rewrite IH.
Qed.

Lemma map_get_app_left k v m m' :
  map_get k m = Some v -> map_get k (m ++ m') = Some v.
Proof.
  induction m as [|[k' v'] m IH]; simpl; [discriminate|].
  destruct (str_eqb k' k); auto.
Qed.

Lemma map_get_In k m : map_has k m = true <-> In k (map fst m).
Proof.
  rewrite map_has_existsb, existsb_exists. split.
  - intros (x & Hx & E). apply str_eqb_eq in E. now subst.
  - intros H. exists k. split; auto. apply str_eqb_refl.
Qed.

End Maps.

(** In a map that numbers its keys in insertion order, the value of a key
    is its position. *)
Lemma numbered_map_get (U : JsMap nat) x i :
  forall b, map snd U = seq b (length U) ->
            map_get x U = Some i ->
            b <= i /\ nth_error (map fst U) (i - b) = Some x.
Proof.
  induction U as [|[k v] U IH]; simpl; intros b Hn Hg; [discriminate|].
  injection Hn as -> Hn. destruct (str_eqb k x) eqn:E.
  - injection Hg as <-. apply str_eqb_eq in E. subst.
    rewrite Nat.sub_diag. auto.
  - destruct (IH _ Hn Hg) as [Hb Hnth]. split; [lia|].
    replace (i - b) with (S (i - S b)) by lia. exact Hnth.
Qed.

(** ** The deduplicating filter *)

Lemma existsb_str_In x l : existsb (str_eqb x) l = true <-> In x l.
Proof.
  rewrite existsb_exists. split.
  - intros (y & Hy & E). apply str_eqb_eq in E. now subst.
  - intros H. exists x. split; auto. apply str_eqb_refl.
Qed.

Lemma existsb_str_not_In x l : existsb (str_eqb x) l = false <-> ~ In x l.
Proof.
  rewrite <- existsb_str_In. destruct (existsb (str_eqb x) l); split; congruence.
Qed.

Lemma firstSeenFrom_NoDup norm :
  forall paths seen,
    NoDup (map norm (firstSeenFrom norm seen paths)) /\
    forall q, In q (firstSeenFrom norm seen paths) -> ~ In (norm q) seen.
Proof.
  induction paths as [|p ps IH]; intros seen; simpl.
  - split; [constructor|tauto].
  - destruct (existsb (str_eqb (norm p)) seen) eqn:E; [apply IH|].
    apply existsb_str_not_In in E.
    destruct (IH (seen ++ [norm p])) as [Hnd Hseen]. split.
    + simpl. constructor; auto. intros Hin. apply in_map_iff in Hin as (q & Hq & Hin).
      apply (Hseen q Hin). rewrite Hq. apply in_or_app. right. now left.
    + intros q [<-|Hin]; auto. intros Hq. apply (Hseen q Hin).
      apply in_or_app. now left.
Qed.

Lemma firstSeenFrom_covers norm :
  forall paths seen p,
    In p paths ->
    In (norm p) seen \/ In (norm p) (map norm (firstSeenFrom norm seen paths)).
Proof.
  induction paths as [|a ps IH]; intros seen p Hin; simpl in *; [tauto|].
  destruct (existsb (str_eqb (norm a)) seen) eqn:E.
  - destruct Hin as [->|Hin]; [left; now apply existsb_str_In|now apply IH].
  - simpl. destruct Hin as [->|Hin]; [right; now left|].
    destruct (IH (seen ++ [norm a]) p Hin) as [H|H]; auto.
    apply in_app_or in H as [H|[H|[]]]; auto.
Qed.

Lemma distinctFrom_covers :
  forall l seen x, In x l -> In x seen \/ In x (distinctFrom seen l).
Proof.
  induction l as [|a l IH]; intros seen x Hin; simpl in *; [tauto|].
  destruct (existsb (str_eqb a) seen) eqn:E.
  - destruct Hin as [->|Hin]; [left; now apply existsb_str_In|now apply IH].
  - destruct Hin as [->|Hin]; [right; now left|].
    destruct (IH (seen ++ [a]) x Hin) as [H|H]; [|right; now right].
    apply in_app_or in H as [H|[H|[]]]; auto. right. now left.
Qed.

Lemma distinctFrom_incl :
  forall l seen x, In x (distinctFrom seen l) -> In x l.
Proof.
  induction l as [|a l IH]; intros seen x; simpl; [tauto|].
  destruct (existsb (str_eqb a) seen); [right; eauto|].
  intros [->|H]; [now left|right; eauto].
Qed.

Section Dedupe.

Variable Path : PathApi.
Variable resolveDir : str.

Local Abbreviation norm := (normalizedIn Path resolveDir).
Local Abbreviation step := (dedupeStep Path resolveDir).

(** The callback, by cases on whether the normalized path is new. *)
Lemma dedupeStep_eq st p :
  step st p =
  if map_has (norm p) (uniqueFilePathsMap st) then
    {| uniqueFilePathsMap := uniqueFilePathsMap st;
       moduleMap :=
         map_set p (slotName (map_get (norm p) (uniqueFilePathsMap st))) (moduleMap st);
       dedupedImportFilePaths := dedupedImportFilePaths st |}
  else
    {| uniqueFilePathsMap :=
         uniqueFilePathsMap st ++ [(norm p, length (uniqueFilePathsMap st))];
       moduleMap :=
         map_set p (slotName (Some (length (uniqueFilePathsMap st)))) (moduleMap st);
       dedupedImportFilePaths := dedupedImportFilePaths st ++ [p] |}.
Proof.
  unfold dedupeStep.
  change (normalize Path (resolveDir ++ s_ "/" ++ p)) with (norm p).
  destruct (map_has (norm p) (uniqueFilePathsMap st)) eqn:Hh; cbn [negb]; auto.
  rewrite map_get_set_same, (map_set_fresh _ _ _ Hh). reflexivity.
Qed.

Lemma dedupeStep_consistent st p : consistent Path resolveDir st -> consistent Path resolveDir (step st p).
Proof.
  intros Hc k v. rewrite dedupeStep_eq.
  destruct (map_has (norm p) (uniqueFilePathsMap st)) eqn:Hh;
    cbn [moduleMap uniqueFilePathsMap].
  - destruct (list_eq_dec ascii_dec k p) as [->|Hk].
    + rewrite map_get_set_same. intros [= <-].
      unfold map_has in Hh.
      destruct (map_get (norm p) (uniqueFilePathsMap st)) as [i|]; [|discriminate].
      now exists i.
    + rewrite map_get_set_other by auto. apply Hc.
  - destruct (list_eq_dec ascii_dec k p) as [->|Hk].
    + rewrite map_get_set_same. intros [= <-].
      rewrite <- (map_set_fresh _ (length (uniqueFilePathsMap st)) _ Hh), map_get_set_same. eauto.
    + rewrite map_get_set_other by auto. intros Hg.
      destruct (Hc _ _ Hg) as (i & Hi & ->). exists i. split; auto.
      now apply map_get_app_left.
Qed.

Lemma dedupeStep_numbering st p : numbering Path resolveDir st -> numbering Path resolveDir (step st p).
Proof.
  intros [Hs Hk]. unfold numbering. rewrite dedupeStep_eq.
  destruct (map_has (norm p) (uniqueFilePathsMap st)) eqn:Hh;
    cbn [uniqueFilePathsMap dedupedImportFilePaths]; auto.
  rewrite !map_app, length_app, Hs, Hk. simpl.
  split; auto. rewrite seq_app. reflexivity.
Qed.

Lemma dedupe_fold :
  forall paths st,
    let st' := fold_left step paths st in
    dedupedImportFilePaths st' =
      dedupedImportFilePaths st ++
      firstSeenFrom norm (map fst (uniqueFilePathsMap st)) paths /\
    map fst (moduleMap st') =
      map fst (moduleMap st) ++ distinctFrom (map fst (moduleMap st)) paths /\
    (consistent Path resolveDir st -> consistent Path resolveDir st') /\
    (numbering Path resolveDir st -> numbering Path resolveDir st').
Proof.
  induction paths as [|p ps IH]; intros st; simpl.
  - rewrite !app_nil_r. auto.
  - destruct (IH (step st p)) as (Hk & Hm & Hc & Hn).
    rewrite Hk, Hm. clear Hk Hm IH.
    split; [|split; [|split]].
    + rewrite dedupeStep_eq, <- map_has_existsb.
      destruct (map_has (norm p) (uniqueFilePathsMap st)) eqn:Hh;
        cbn [uniqueFilePathsMap dedupedImportFilePaths]; auto.
      rewrite map_app, <- app_assoc. reflexivity.
    + rewrite <- map_has_existsb.
      assert (He : forall v, map fst (map_set p v (moduleMap st)) =
                             if map_has p (moduleMap st) then map fst (moduleMap st)
                             else map fst (moduleMap st) ++ [p]).
      { intros v. destruct (map_has p (moduleMap st)) eqn:Hh.
        - now apply map_set_keys_present.
        - now rewrite (map_set_fresh _ _ _ Hh), map_app. }
      rewrite dedupeStep_eq.
      destruct (map_has (norm p) (uniqueFilePathsMap st)); cbn [moduleMap];
        rewrite He; destruct (map_has p (moduleMap st)); auto;
        now rewrite <- app_assoc.
    + intros H. now apply Hc, dedupeStep_consistent.
    + intros H. now apply Hn, dedupeStep_numbering.
Qed.

(** What the deduplication computes: the kept spellings are the first
    spelling of each distinct normalized path; the keys of the module map
    are the distinct spellings; every spelling is bound to the identifier
    of the slot whose first spelling has the same normalized path. *)
Lemma dedupe_spec (paths : list str) :
  let d := dedupe Path resolveDir paths in
  dedupedImportFilePaths d = firstSeen norm paths /\
  map fst (moduleMap d) = distinct paths /\
  NoDup (map norm (firstSeen norm paths)) /\
  forall k, In k paths ->
    exists i q,
      map_get k (moduleMap d) = Some (slotName (Some i)) /\
      nth_error (firstSeen norm paths) i = Some q /\
      norm q = norm k.
Proof.
  unfold dedupe.
  set (st0 := {| uniqueFilePathsMap := []; moduleMap := [];
                 dedupedImportFilePaths := [] |}).
  destruct (dedupe_fold paths st0) as (Hk & Hm & Hc & Hn).
  cbn zeta. simpl in Hk, Hm. fold (firstSeen norm paths) in Hk.
  fold (distinct paths) in Hm.
  split; [exact Hk|]. split; [exact Hm|].
  split; [apply firstSeenFrom_NoDup|].
  intros k Hin.
  assert (Hc0 : consistent Path resolveDir st0) by (intros ? ? H; discriminate H).
  assert (Hn0 : numbering Path resolveDir st0) by (split; reflexivity).
  specialize (Hc Hc0). destruct (Hn Hn0) as [Hs Hf].
  destruct (map_get k (moduleMap (fold_left step paths st0))) as [v|] eqn:Hg.
  - destruct (Hc _ _ Hg) as (i & Hi & ->).
    destruct (numbered_map_get _ _ _ Hs Hi) as [_ Hnth].
    rewrite Nat.sub_0_r, Hf, Hk in Hnth.
    rewrite nth_error_map in Hnth.
    destruct (nth_error (firstSeen norm paths) i) as [q|] eqn:Hq; [|discriminate].
    injection Hnth as Hnth. exists i, q. auto.
  - exfalso.
    assert (Hh : map_has k (moduleMap (fold_left step paths st0)) = false)
      by (unfold map_has; now rewrite Hg).
    assert (In k (map fst (moduleMap (fold_left step paths st0)))).
    { rewrite Hm. destruct (distinctFrom_covers paths [] k Hin) as [[]|H]; exact H. }
    apply map_get_In in H. congruence.
Qed.

End Dedupe.

(** ** Rendering the generated code *)

Lemma intercalate_cons sep x l :
  intercalate sep (x :: l) = x ++ concat (map (fun y => sep ++ y) l).
Proof.
  revert x. induction l as [|y l IH]; intros x.
  - simpl. now rewrite app_nil_r.
  - change (intercalate sep (x :: y :: l)) with (x ++ sep ++ intercalate sep (y :: l)).
    rewrite IH. simpl. now rewrite <- app_assoc.
Qed.

Lemma intercalate_snoc sep l x :
  intercalate sep (l ++ [x]) = concat (map (fun y => y ++ sep) l) ++ x.
Proof.
  induction l as [|y l IH]; auto.
  cbn [map concat app]. rewrite <- !app_assoc, <- IH.
  destruct (l ++ [x]) eqn:E; auto. destruct l; discriminate.
Qed.

Lemma importLine_not_nil ip : importLine ip <> [].
Proof. unfold importLine. simpl. discriminate. Qed.

Lemma importStringStep_eq accum i path :
  importStringStep (accum, i) path =
  ((if negb (str_eqb accum []) then accum ++ [LF] else accum)
     ++ importLine (i, path), S i).
Proof. reflexivity. Qed.

Lemma importString_fold :
  forall l accum i,
    accum <> [] ->
    fold_left importStringStep l (accum, i) =
    (accum ++ concat (map (fun ip => [LF] ++ importLine ip) (combine (seq i (length l)) l)),
     i + length l).
Proof.
  induction l as [|p l IH]; intros accum i Ha.
  - simpl. now rewrite app_nil_r, Nat.add_0_r.
  - cbn [fold_left]. rewrite importStringStep_eq.
    assert (E : str_eqb accum [] = false) by now apply str_eqb_neq.
    rewrite E. cbn [negb]. rewrite IH.
    + cbn [length seq combine map concat]. rewrite <- !app_assoc.
      f_equal. lia.
    + destruct accum; [congruence|discriminate].
Qed.

(** The accumulated [importString]: one line per kept spelling, numbered
    from 0, the lines separated by line feeds. *)
Lemma importStringOf_eq deduped :
  importStringOf deduped = intercalate [LF] (map importLine (numbered deduped)).
Proof.
  unfold importStringOf, numbered. destruct deduped as [|p l]; [reflexivity|].
  cbn [fold_left]. rewrite importStringStep_eq.
  replace (negb (str_eqb [] [])) with false by reflexivity.
  rewrite importString_fold by apply importLine_not_nil.
  cbn [length seq combine map fst]. rewrite intercalate_cons, map_map.
  reflexivity.
Qed.

Lemma execAt_lastCharRe_inner pos c d rest :
  execAt lastCharRe pos (c :: d :: rest) = None.
Proof. unfold execAt, lastCharRe. simpl. now destruct (dot c). Qed.

Lemma replaceFrom_lastCharRe tmpl s c :
  dot c = true ->
  forall X pos,
    replaceFrom false lastCharRe tmpl s pos (X ++ [c]) 0 =
    X ++ getSubstitution [c] s (pos + length X) [] 0 tmpl.
Proof.
  intros Hc. induction X as [|x X IH]; intros pos.
  - simpl. unfold execAt, lastCharRe. simpl. rewrite Hc. unfold accept.
    replace (S pos - pos) with 1 by lia. simpl. now rewrite Nat.add_0_r, app_nil_r.
  - cbn [app replaceFrom].
    destruct (X ++ [c]) as [|d rest] eqn:E; [destruct X; discriminate|].
    rewrite execAt_lastCharRe_inner, IH. cbn [length].
    now rewrite <- plus_n_Sm.
Qed.

Lemma objectMap_fold :
  forall (mm : JsMap str) acc,
    fold_left (fun objectMapString '(key, value) =>
                 objectMapString ++ s_ "'" ++ key ++ s_ "':" ++ value ++ s_ ",")
      mm acc =
    acc ++ concat (map (fun kv => mapEntry kv ++ s_ ",") mm).
Proof.
  induction mm as [|[k v] mm IH]; intros acc; cbn [fold_left map concat].
  - now rewrite app_nil_r.
  - rewrite IH. unfold mapEntry. cbn [fst snd]. rewrite <- !app_assoc. reflexivity.
Qed.

(** The rendered object literal of a non-empty module map. *)
Lemma objectMapStringOf_eq (mm : JsMap str) :
  mm <> [] ->
  objectMapStringOf mm =
  s_ "const _DynamicImportModuleMap = {"
    ++ intercalate (s_ ",") (map mapEntry mm) ++ s_ "};".
Proof.
  intros Hm. destruct (exists_last Hm) as (mm' & kv & ->).
  unfold objectMapStringOf. rewrite objectMap_fold, map_app, concat_app.
  cbn [map concat]. rewrite app_nil_r.
  rewrite map_app. cbn [map]. rewrite intercalate_snoc, map_map.
  unfold replaceRe.
  match goal with
  | |- replaceFrom _ _ _ ?s _ ?s _ = _ =>
      assert (E : s = (s_ "const _DynamicImportModuleMap = {" ++
                       concat (map (fun kv => mapEntry kv ++ s_ ",") mm') ++
                       mapEntry kv) ++ [","])
        by (rewrite <- !app_assoc; reflexivity);
      rewrite E at 2
  end.
  rewrite replaceFrom_lastCharRe by reflexivity.
  rewrite getSubstitution_plain with (n := 2) by (simpl; auto).
  rewrite <- !app_assoc. reflexivity.
Qed.

(** ** The extension-less variants *)

Lemma stripJs_app q : stripJs (q ++ s_ ".js") = q.
Proof. unfold stripJs. rewrite rev_app_distr. simpl. apply rev_involutive. Qed.

Lemma stripJs_other p : (forall q, p <> q ++ s_ ".js") -> stripJs p = p.
Proof.
  intros H. unfold stripJs. destruct (rev p) as [|c3 [|c2 [|c1 r]]] eqn:E; auto.
  destruct (str_eqb [c1; c2; c3] (s_ ".js")) eqn:Ec; auto.
  apply str_eqb_eq in Ec. injection Ec as -> -> ->.
  exfalso. apply (H (rev r)). rewrite <- (rev_involutive p), E. simpl.
  rewrite <- !app_assoc. reflexivity.
Qed.

Lemma endsWithJs_dec p : (exists q, p = q ++ s_ ".js") \/ (forall q, p <> q ++ s_ ".js").
Proof.
  destruct (rev p) as [|c3 [|c2 [|c1 r]]] eqn:E.
  1-3: right; intros q Hq; subst; rewrite rev_app_distr in E; discriminate.
  destruct (str_eqb [c1; c2; c3] (s_ ".js")) eqn:Ec.
  - apply str_eqb_eq in Ec. injection Ec as -> -> ->. left. exists (rev r).
    rewrite <- (rev_involutive p), E. simpl. rewrite <- !app_assoc. reflexivity.
  - right. intros q Hq. subst. rewrite rev_app_distr in E. injection E as <- <- <- _.
    now rewrite str_eqb_refl in Ec.
Qed.

Lemma stripJs_cons c p : c :: p <> s_ ".js" -> stripJs (c :: p) = c :: stripJs p.
Proof.
  intros Hp. destruct (endsWithJs_dec p) as [[q ->]|Hn].
  - rewrite stripJs_app. apply (stripJs_app (c :: q)).
  - rewrite (stripJs_other Hn). apply stripJs_other.
    intros [|d q] E; simpl in E.
    + now apply Hp.
    + injection E as -> ->. now apply (Hn q).
Qed.

Lemma execAt_jsSuffixRe pos rest :
  execAt jsSuffixRe pos rest =
  if str_eqb rest (s_ ".js") then Some (pos + 3, []) else None.
Proof.
  assert (Hne : forall a b : str, a <> b -> str_eqb a b = false)
    by (intros a b; apply str_eqb_neq).
  unfold execAt, jsSuffixRe. cbn -[str_eqb].
  destruct rest as [|c1 [|c2 [|c3 [|c4 r]]]]; try reflexivity.
  - rewrite Hne by discriminate. destruct (chr "." c1); reflexivity.
  - rewrite Hne by discriminate. destruct (chr "." c1), (chr "j" c2); reflexivity.
  - destruct (chr "." c1) eqn:E1; [apply chr_true in E1; subst|].
    + destruct (chr "j" c2) eqn:E2; [apply chr_true in E2; subst|].
      * destruct (chr "s" c3) eqn:E3; [apply chr_true in E3; subst|].
        -- unfold accept. rewrite str_eqb_refl. do 2 f_equal. lia.
        -- apply chr_false in E3. rewrite Hne; [reflexivity|congruence].
      * apply chr_false in E2. rewrite Hne; [reflexivity|congruence].
    + apply chr_false in E1. rewrite Hne; [reflexivity|congruence].
  - rewrite Hne by discriminate.
    destruct (chr "." c1), (chr "j" c2), (chr "s" c3); reflexivity.
Qed.

(** Line 103: the replacement of the pattern [/\.js$/] by the empty string
    removes a trailing [.js]. *)
Lemma replace_jsSuffixRe s :
  forall rest pos, replaceFrom false jsSuffixRe [] s pos rest 0 = stripJs rest.
Proof.
  induction rest as [|c rest IH]; intros pos.
  - reflexivity.
  - cbn [replaceFrom]. rewrite execAt_jsSuffixRe.
    destruct (str_eqb (c :: rest) (s_ ".js")) eqn:E.
    + apply str_eqb_eq in E. rewrite E.
      replace (pos + 3 - pos) with 3 by lia. reflexivity.
    + rewrite IH. symmetry. apply stripJs_cons. now apply str_eqb_neq.
Qed.

Lemma filter_truthy (l : list str) :
  List.filter (fun filePath =>
    if test jsEndRe filePath
    then arrayIsTruthy [filePath; replaceRe false jsJsonEndRe [] filePath]
    else arrayIsTruthy [filePath]) l = l.
Proof.
  induction l as [|p l IH]; simpl; auto.
  destruct (test jsEndRe p); simpl; now rewrite IH.
Qed.

(** Lines 95 to 105 append to the resolved paths every one of them once
    more, without its trailing [.js] if it has one. *)
Lemma withExtensionless_eq (importFilePaths : list str) :
  withExtensionless importFilePaths = importFilePaths ++ map stripJs importFilePaths.
Proof.
  unfold withExtensionless. rewrite filter_truthy. f_equal.
  apply map_ext. intros p. apply replace_jsSuffixRe.
Qed.

(** ** The destination path of a clean template literal *)

Lemma execAt_commentRe_sound pos rest x :
  execAt commentRe pos rest = Some x -> In "*" rest \/ In LF rest.
Proof.
  unfold execAt, commentRe. cbn [Seq Lit s_ list_ascii_of_string rmatch].
  intros H.
  match type of H with
  | match ?a with Some _ => _ | None => _ end = _ => destruct a eqn:Ha
  end.
  - clear H. do 2 eat Ha. apply chr_true in E0. subst. left. simpl. auto.
  - do 2 eat H.
    apply star_greedy_sound in H as (w & rest' & -> & _ & H).
    eat H. apply chr_true in E1. subst. right. simpl. do 2 right.
    apply in_or_app. right. now left.
Qed.

Lemma neverMatches_commentRe s :
  ~ In "*" s -> ~ In LF s -> neverMatches commentRe s.
Proof.
  intros Hs Hl pos pre rest' ->.
  destruct (execAt commentRe pos rest') eqn:E; auto.
  apply execAt_commentRe_sound in E as [E|E]; exfalso.
  - apply Hs, in_or_app. now right.
  - apply Hl, in_or_app. now right.
Qed.

Lemma trimStart_head c s : isSpace c = false -> trimStart (c :: s) = c :: s.
Proof. intros H. simpl. now rewrite H. Qed.

Lemma trim_delimited c s d :
  isSpace c = false -> isSpace d = false -> trim (c :: s ++ [d]) = c :: s ++ [d].
Proof.
  intros Hc Hd. unfold trim, trimEnd. rewrite trimStart_head by auto.
  change (c :: s ++ [d]) with ((c :: s) ++ [d]). rewrite rev_app_distr.
  cbn [rev app]. rewrite trimStart_head by auto.
  change (d :: rev s ++ [c]) with (rev [d] ++ rev (c :: s)).
  rewrite <- rev_app_distr. apply rev_involutive.
Qed.

Lemma eqb_succ_self pos : (S pos =? pos) = false.
Proof. apply Nat.eqb_neq. lia. Qed.

(** Line 65: every backtick goes. *)
Lemma replaceFrom_backtickRe s :
  forall rest pos,
    replaceFrom true backtickRe [] s pos rest 0 =
    List.filter (fun c => negb (chr "`" c)) rest.
Proof.
  induction rest as [|c rest IH]; intros pos.
  - reflexivity.
  - cbn [replaceFrom List.filter]. unfold execAt, backtickRe. cbn [rmatch].
    destruct (chr "`" c); cbn [negb].
    + unfold accept. rewrite eqb_succ_self.
      replace (S pos - pos - 1) with 0 by lia. cbn [getSubstitution app]. apply IH.
    + now rewrite IH.
Qed.

Lemma filter_all {A} (f : A -> bool) l :
  Forall (fun x => f x = true) l -> List.filter f l = l.
Proof.
  induction 1 as [|x l Hx Hl IH]; simpl; auto. now rewrite Hx, IH.
Qed.

(** A template literal with a clean body denotes its body. *)
Lemma destinationOf_clean_template t :
  cleanTemplateBody t -> destinationOf (s_ "`" ++ t ++ s_ "`") = t.
Proof.
  intros [Hf Ht]. unfold destinationOf.
  assert (Hc : replaceRe true commentRe [] (s_ "`" ++ t ++ s_ "`") = s_ "`" ++ t ++ s_ "`").
  { apply replaceRe_never, neverMatches_commentRe.
    - simpl. intros [H|H]; [discriminate|].
      apply in_app_or in H as [H|[H|[]]]; [|discriminate].
      rewrite Forall_forall in Hf. destruct (Hf _ H) as (_ & Hn & _). congruence.
    - simpl. intros [H|H]; [discriminate|].
      apply in_app_or in H as [H|[H|[]]]; [|discriminate].
      rewrite Forall_forall in Hf. destruct (Hf _ H) as (_ & _ & Hn). congruence. }
  rewrite Hc.
  assert (Hd : trim (s_ "`" ++ t ++ s_ "`") = s_ "`" ++ t ++ s_ "`")
    by (apply (@trim_delimited "`" t "`"); reflexivity).
  rewrite !Hd. cbn [s_ list_ascii_of_string app].
  replace (chr "`" "`") with true by reflexivity.
  unfold replaceRe. rewrite replaceFrom_backtickRe.
  cbn [List.filter]. replace (negb (chr "`" "`")) with false by reflexivity.
  rewrite filter_app. cbn [List.filter].
  replace (negb (chr "`" "`")) with false by reflexivity.
  rewrite app_nil_r, filter_all; auto.
  eapply Forall_impl; [|exact Hf]. intros c (Hb & _).
  now apply negb_true_iff, chr_false.
Qed.

(** ** The loop over the matches *)

Lemma fold_left_invariant {A B} (f : A -> B -> A) (I : A -> Prop) (l : list B) :
  (forall a b, In b l -> I a -> I (f a b)) ->
  forall a, I a -> I (fold_left f l a).
Proof.
  induction l as [|b l IH]; intros Hf a Ha; simpl; auto.
  apply IH.
  - intros a' b' Hb. apply Hf. now right.
  - apply Hf; auto. now left.
Qed.

Lemma matchAll_importRe_shape s : Forall importMatch (matchAll importRe s).
Proof.
  apply scanAll_Forall. intros pos rest e cs H.
  apply execAt_importRe_sound in H as (a & rest' & -> & Ha & Hf & -> & ->).
  unfold importMatch, group. cbn [m_text m_caps capture Nat.eqb].
  repeat split; auto.
  replace (pos + length (s_ "import(" ++ a ++ s_ ")") - pos)
    with (length (s_ "import(" ++ a ++ s_ ")")) by lia.
  rewrite !app_assoc, firstn_app, Nat.sub_diag, firstn_all. simpl.
  now rewrite app_nil_r.
Qed.

Section Loop.

Variable Path : PathApi.
Variable resolveDir : str.
Variable config : DynamicImportConfig.

Lemma processMatch_queue st m :
  importMatch m ->
  Forall (queuedImport Path config) (ls_importsToReplace st) ->
  Forall (queuedImport Path config) (ls_importsToReplace (processMatch Path resolveDir config st m)).
Proof.
  intros (Ht & Hn & Hf) H. unfold processMatch.
  destruct (rewriteCondition _ _ _ _) eqn:Hr; auto.
  destruct (queueCondition _ _ _) eqn:Hq; auto.
  cbn [ls_importsToReplace]. apply Forall_app. split; auto.
  constructor; auto. exists (group 1 m). cbn [fullImport pathString]. auto 10.
Qed.

Lemma processMatch_lengths st m :
  length (ls_globImports st) = length (ls_importsToReplace st) ->
  length (ls_globImports (processMatch Path resolveDir config st m)) =
  length (ls_importsToReplace (processMatch Path resolveDir config st m)).
Proof.
  intros H. unfold processMatch.
  destruct (rewriteCondition _ _ _ _); auto.
  destruct (queueCondition _ _ _); auto.
  cbn [ls_importsToReplace ls_globImports]. rewrite !length_app, H. reflexivity.
Qed.

Lemma classify_queue fileContents :
  Forall (queuedImport Path config)
    (ls_importsToReplace (classify Path fileContents resolveDir config)) /\
  length (ls_globImports (classify Path fileContents resolveDir config)) =
  length (ls_importsToReplace (classify Path fileContents resolveDir config)).
Proof.
  unfold classify.
  apply (fold_left_invariant
           (processMatch Path resolveDir config)
           (fun st => Forall (queuedImport Path config) (ls_importsToReplace st) /\
                      length (ls_globImports st) = length (ls_importsToReplace st))).
  - intros st m Hin [Hq Hl]. split.
    + apply processMatch_queue; auto.
      pose proof (matchAll_importRe_shape fileContents) as Hs.
      rewrite Forall_forall in Hs. auto.
    + now apply processMatch_lengths.
  - split; [constructor|reflexivity].
Qed.

(** When no match passes the first test of the loop the text leaves the
    loop as it entered it. *)
Lemma classify_text_unchanged fileContents :
  (forall m, In m (matchAll importRe fileContents) ->
             rewriteCondition Path config (destinationOf (group 1 m))
               (extname Path (destinationOf (group 1 m))) = false) ->
  ls_fileContents (classify Path fileContents resolveDir config) = fileContents.
Proof.
  intros H. unfold classify.
  apply (fold_left_invariant
           (processMatch Path resolveDir config)
           (fun st => ls_fileContents st = fileContents)); auto.
  intros st m Hin Hs. unfold processMatch. rewrite (H m Hin).
  destruct (queueCondition _ _ _); auto.
Qed.

End Loop.

(** ** The rewriter as a whole *)

Lemma promiseAll_rejected {A} (ps : list (promise A)) :
  In Rejected ps -> promiseAll ps = Rejected.
Proof.
  induction ps as [|p ps IH]; intros H; [destruct H|].
  destruct p as [a|]; [|reflexivity].
  destruct H as [H|H]; [discriminate|]. simpl. now rewrite IH.
Qed.

Section Whole.

Variable Path : PathApi.
Variable FastGlob : str -> str -> promise (list str).
Variable fileContents resolveDir : str.
Variable config : DynamicImportConfig.

Local Abbreviation st := (classify Path fileContents resolveDir config).
Local Abbreviation calls :=
  (map (fun globImport : str => (globImport, resolveDir)) (ls_globImports st)).
Local Abbreviation promises :=
  (map (fun globImport => FastGlob globImport resolveDir) (ls_globImports st)).

(** Without a resolved path the text leaves as the loop left it. *)
Lemma replaceImports_nothing_resolved paths eff :
  resolveGlobs FastGlob resolveDir (ls_globImports st) = (paths, eff) ->
  paths = [] ->
  replaceImports Path FastGlob fileContents resolveDir config =
  (Fulfilled (ls_fileContents st),
   if 0 <? length (ls_globImports st) then eff else noEffects).
Proof.
  intros Hr ->. unfold replaceImports.
  destruct (0 <? length (ls_globImports st)); auto.
  rewrite Hr. reflexivity.
Qed.

Lemma replaceImports_rejected :
  In Rejected promises ->
  replaceImports Path FastGlob fileContents resolveDir config =
  (Fulfilled (ls_fileContents st), {| globCalls := calls; consoleErrors := 1 |}).
Proof.
  intros H.
  assert (Hr : resolveGlobs FastGlob resolveDir (ls_globImports st) =
               ([], {| globCalls := calls; consoleErrors := 1 |})).
  { unfold resolveGlobs. now rewrite promiseAll_rejected. }
  rewrite (replaceImports_nothing_resolved Hr eq_refl).
  destruct (ls_globImports st); [destruct H|reflexivity].
Qed.

Lemma replaceImports_resolved_nothing resolved :
  promiseAll promises = Fulfilled resolved -> concat resolved = [] ->
  replaceImports Path FastGlob fileContents resolveDir config =
  (Fulfilled (ls_fileContents st), {| globCalls := calls; consoleErrors := 0 |}).
Proof.
  intros H Hc.
  assert (Hr : resolveGlobs FastGlob resolveDir (ls_globImports st) =
               (concat resolved, {| globCalls := calls; consoleErrors := 0 |})).
  { unfold resolveGlobs. now rewrite H. }
  rewrite (replaceImports_nothing_resolved Hr Hc).
  destruct (ls_globImports st); reflexivity.
Qed.

(** With a resolved path the generated code is put before the text in
    which the queued calls have been substituted. *)
Lemma replaceImports_resolved resolved :
  promiseAll promises = Fulfilled resolved -> concat resolved <> [] ->
  replaceImports Path FastGlob fileContents resolveDir config =
  (let d := dedupe Path resolveDir (withExtensionless (concat resolved)) in
   Fulfilled
     (importStringOf (dedupedImportFilePaths d) ++ [LF]
        ++ objectMapStringOf (moduleMap d) ++ [LF]
        ++ importFunctionString ++ [LF]
        ++ fold_left substituteImport (ls_importsToReplace st) (ls_fileContents st)),
   {| globCalls := calls; consoleErrors := 0 |}).
Proof.
  intros H Hc. unfold replaceImports, resolveGlobs. rewrite H.
  destruct (ls_globImports st) as [|g gs] eqn:Hg.
  - simpl in H. injection H as <-. now destruct Hc.
  - cbn [length Nat.ltb Nat.leb].
    destruct (withExtensionless (concat resolved)) as [|p ps] eqn:Hw.
    + rewrite withExtensionless_eq in Hw. apply app_eq_nil in Hw as [Hw _].
      now destruct Hc.
    + cbn [length Nat.eqb]. cbv zeta. rewrite <- !app_assoc. reflexivity.
Qed.

(** The promise of [replaceImports] is never rejected. *)
Lemma replaceImports_fulfilled :
  exists t eff,
    replaceImports Path FastGlob fileContents resolveDir config = (Fulfilled t, eff).
Proof.
  unfold replaceImports.
  destruct (0 <? length (ls_globImports st)); [|eauto].
  destruct (resolveGlobs FastGlob resolveDir (ls_globImports st)) as [paths eff].
  destruct (length (withExtensionless paths) =? 0); eauto.
Qed.

End Whole.

(** ** First occurrences and distinct elements *)

Lemma firstOccurrence_indexOf pat s i :
  indexOf pat s = Some i ->
  firstOccurrence pat s (firstn i s) (skipn (i + length pat) s).
Proof.
  intros H. apply indexOfFrom_sound in H as (pre & post & Hf & ->).
  cbn [Nat.add]. destruct (firstOccurrence_firstn Hf) as [-> ->]. exact Hf.
Qed.

Lemma distinct_not_nil l : l <> [] -> distinct l <> [].
Proof. destruct l; [congruence|discriminate]. Qed.

(** ** Texts with a single import call *)

Section ScanningFrom.

Variable r : re.

Lemma noMatchFrom_tail pos c rest :
  noMatchFrom r pos (c :: rest) -> noMatchFrom r (S pos) rest.
Proof.
  intros H pre rest' ->. specialize (H (c :: pre) rest' eq_refl).
  simpl in H. now rewrite <- plus_n_Sm in H.
Qed.

Lemma noMatchFrom_here pos rest : noMatchFrom r pos rest -> execAt r pos rest = None.
Proof. intros H. specialize (H [] rest eq_refl). simpl in H. now rewrite Nat.add_0_r in H. Qed.

Lemma neverMatches_noMatchFrom pos rest : neverMatches r rest -> noMatchFrom r pos rest.
Proof. intros H pre rest' E. eapply H; eauto. Qed.

Lemma scanAll_noMatchFrom rest :
  forall pos, noMatchFrom r pos rest -> scanAll r pos rest 0 = [].
Proof.
  induction rest as [|c rest IH]; intros pos H; simpl;
    rewrite (noMatchFrom_here H); auto.
  apply IH. now apply noMatchFrom_tail with (c := c).
Qed.

Lemma replaceFrom_noMatchFrom global tmpl s rest :
  forall pos, noMatchFrom r pos rest -> replaceFrom global r tmpl s pos rest 0 = rest.
Proof.
  induction rest as [|c rest IH]; intros pos H; simpl;
    rewrite (noMatchFrom_here H); auto.
  f_equal. apply IH. now apply noMatchFrom_tail with (c := c).
Qed.

(** The units covered by a match are passed over. *)
Lemma scanAll_skip w rest :
  forall pos, scanAll r pos (w ++ rest) (length w) = scanAll r (pos + length w) rest 0.
Proof.
  induction w as [|c w IH]; intros pos; simpl.
  - now rewrite Nat.add_0_r.
  - rewrite IH. f_equal. lia.
Qed.

Lemma replaceFrom_skip global tmpl s w rest :
  forall pos,
    replaceFrom global r tmpl s pos (w ++ rest) (length w) =
    replaceFrom global r tmpl s (pos + length w) rest 0.
Proof.
  induction w as [|c w IH]; intros pos; simpl.
  - now rewrite Nat.add_0_r.
  - rewrite IH. f_equal. lia.
Qed.

(** Before the first place where an attempt can succeed the scan finds
    nothing. *)
Lemma scanAll_app_noMatch pre rest :
  (forall u v pos, pre = u ++ v -> v <> [] -> execAt r pos (v ++ rest) = None) ->
  forall pos, scanAll r pos (pre ++ rest) 0 = scanAll r (pos + length pre) rest 0.
Proof.
  induction pre as [|c pre IH]; intros H pos.
  - simpl. now rewrite Nat.add_0_r.
  - cbn [app scanAll].
    pose proof (H [] (c :: pre) pos eq_refl) as H0. cbn [app] in H0.
    rewrite H0 by discriminate.
    rewrite IH.
    + f_equal. simpl. lia.
    + intros u v pos' -> Hv. apply (H (c :: u) v pos'); auto.
Qed.

End ScanningFrom.

Lemma prefixb_app_l pat : forall a b, prefixb (pat ++ a) b = true -> prefixb pat b = true.
Proof.
  induction pat as [|c pat IH]; intros a b H; auto.
  destruct b as [|d b]; simpl in *; [discriminate|].
  apply andb_true_iff in H as [H1 H2]. rewrite H1. simpl. eauto.
Qed.

(** [import(] has no border: where it is a prefix of [x ++ import(...], the
    text [x] is empty or starts with it. *)
Lemma import_text_straddle x y :
  prefixb (s_ "import(") (x ++ s_ "import(" ++ y) = true ->
  x = [] \/ exists v, x = s_ "import(" ++ v.
Proof.
  intros H.
  destruct x as [|c0 [|c1 [|c2 [|c3 [|c4 [|c5 [|c6 v]]]]]]]; [now left| | | | | | |].
  all: cbn [prefixb app s_ list_ascii_of_string] in H;
    repeat match type of H with
           | _ && _ = true =>
               let H1 := fresh "H" in
               apply andb_true_iff in H as [H1 H];
               apply Ascii.eqb_eq in H1; try discriminate H1; try subst
           end.
  right. now exists v.
Qed.

Lemma execAt_importRe_prefix pos rest x :
  execAt importRe pos rest = Some x -> prefixb (s_ "import(") rest = true.
Proof.
  destruct x as [e cs]. intros H.
  apply execAt_importRe_sound in H as (a & rest' & -> & _). apply prefixb_app.
Qed.

Lemma noImportText_app_r u s : noImportText (u ++ s) -> noImportText s.
Proof. intros H a b ->. apply (H (u ++ a) b). now rewrite <- app_assoc. Qed.

Lemma noImportText_app_l s v : noImportText (s ++ v) -> noImportText s.
Proof.
  intros H a b ->. apply (H a (b ++ v)). now rewrite <- !app_assoc.
Qed.

Lemma noImportText_indexOf s : indexOf (s_ "import(") s = None -> noImportText s.
Proof. intros H u v. eapply indexOfFrom_none; eauto. Qed.

Lemma noImportText_never s : noImportText s -> neverMatches importRe s.
Proof.
  intros H pos pre rest' ->.
  destruct (execAt importRe pos rest') as [x|] eqn:E; auto.
  destruct x as [e cs].
  apply execAt_importRe_sound in E as (a & r' & -> & _).
  exfalso. apply (H pre (a ++ s_ ")" ++ r')). reflexivity.
Qed.

(** In a text free of [import(] before and after one import call, line 44
    finds that call, at its place. *)
Lemma matchAll_single_import pre a post :
  noImportText pre -> noImportText post ->
  a <> [] -> Forall (fun c => c <> ")") a ->
  matchAll importRe (pre ++ s_ "import(" ++ a ++ s_ ")" ++ post) =
  [{| m_index := length pre;
      m_text := s_ "import(" ++ a ++ s_ ")";
      m_caps := [(1, a)] |}].
Proof.
  intros Hpre Hpost Ha Hf. unfold matchAll.
  rewrite scanAll_app_noMatch.
  - cbn [Nat.add].
    set (call := s_ "import(" ++ a ++ s_ ")").
    assert (Hc : s_ "import(" ++ a ++ s_ ")" ++ post = call ++ post)
      by (unfold call; now rewrite <- !app_assoc).
    rewrite Hc.
    assert (He : execAt importRe (length pre) (call ++ post) =
                 Some (length pre + length call, [(1, a)])).
    { rewrite <- Hc. now apply execAt_importRe_complete. }
    destruct call as [|c0 w] eqn:Ecall; [discriminate|].
    cbn [app scanAll]. cbn [app] in He. rewrite He.
    replace (length pre + length (c0 :: w) - length pre) with (length (c0 :: w)) by lia.
    f_equal.
    + f_equal. change (c0 :: w ++ post) with ((c0 :: w) ++ post).
      now rewrite firstn_app, Nat.sub_diag, firstn_all, app_nil_r.
    + cbn [length]. replace (S (length w) - 1) with (length w) by lia.
      rewrite scanAll_skip. apply scanAll_never. now apply noImportText_never.
  - intros u v pos -> Hv.
    destruct (execAt importRe pos (v ++ s_ "import(" ++ a ++ s_ ")" ++ post)) eqn:E; auto.
    apply execAt_importRe_prefix in E.
    apply import_text_straddle in E as [->|[w ->]]; [congruence|].
    exfalso. apply (Hpre u w). reflexivity.
Qed.

(** The text of that call does not occur before it. *)
Lemma firstOccurrence_single_import pre a post :
  noImportText pre ->
  firstOccurrence (s_ "import(" ++ a ++ s_ ")")
    (pre ++ s_ "import(" ++ a ++ s_ ")" ++ post) pre post.
Proof.
  intros Hpre. split; [now rewrite <- !app_assoc|].
  intros j Hj.
  destruct (prefixb _ _) eqn:E; auto. exfalso.
  rewrite skipn_app in E.
  replace (j - length pre) with 0 in E by lia. cbn [skipn] in E.
  apply prefixb_app_l in E.
  apply import_text_straddle in E as [E|[w E]].
  - apply (f_equal (@length ascii)) in E. rewrite length_skipn in E. simpl in E. lia.
  - apply (Hpre (firstn j pre) w). rewrite <- E. symmetry. apply firstn_skipn.
Qed.

(** ** The destination path of a quoted plain path *)

Lemma execAt_strVarRe_sound pos rest x :
  execAt strVarRe pos rest = Some x -> In "+" rest.
Proof.
  unfold execAt, strVarRe. cbn [Seq rmatch]. intros H.
  eat H. apply star_greedy_sound in H as (w & rest' & -> & _ & H).
  eat H. apply chr_true in E0. subst. right. apply in_or_app. right. now left.
Qed.

Lemma execAt_varStrRe_sound pos rest x :
  execAt varStrRe pos rest = Some x -> In "+" rest.
Proof.
  unfold execAt, varStrRe. cbn [Seq rmatch]. intros H.
  eat H. apply star_greedy_sound in H as (w & rest' & -> & _ & H).
  eat H. apply chr_true in E0. subst. right. apply in_or_app. right. now left.
Qed.

Lemma execAt_varVarRe_sound pos rest x :
  execAt varVarRe pos rest = Some x -> In "+" rest.
Proof.
  unfold execAt, varVarRe. cbn [Seq rmatch]. intros H.
  eat H. apply star_greedy_sound in H as (w & rest' & -> & _ & H).
  eat H. apply chr_true in E0. subst. right. apply in_or_app. right. now left.
Qed.

Lemma execAt_strStrRe_sound pos rest x :
  execAt strStrRe pos rest = Some x -> In "+" rest.
Proof.
  unfold execAt, strStrRe. cbn [Seq rmatch]. intros H.
  eat H. apply star_greedy_sound in H as (w & rest' & -> & _ & H).
  eat H. apply chr_true in E0. subst. right. apply in_or_app. right. now left.
Qed.

(** A pattern whose matches hold a plus sign finds nothing in a text
    without one. *)
Lemma neverMatches_without_plus r s :
  (forall pos rest x, execAt r pos rest = Some x -> In "+" rest) ->
  ~ In "+" s -> neverMatches r s.
Proof.
  intros Hr Hs pos pre rest' ->.
  destruct (execAt r pos rest') eqn:E; auto.
  exfalso. apply Hs, in_or_app. right. eapply Hr; eauto.
Qed.

Lemma execAt_beginVarRe pos rest :
  execAt beginVarRe pos rest =
  if pos =? 0 then
    match rest with
    | c :: _ => if notQuote c then Some (S pos, [(2, [c]); (1, [])]) else None
    | [] => None
    end
  else None.
Proof.
  unfold execAt, beginVarRe. cbn [Seq rmatch].
  destruct (pos =? 0); [|reflexivity].
  destruct rest as [|c rest]; [reflexivity|].
  destruct (notQuote c); [|reflexivity].
  unfold accept. rewrite Nat.sub_diag.
  replace (S pos - pos) with 1 by lia. reflexivity.
Qed.

Lemma execAt_beginStrRe pos rest :
  execAt beginStrRe pos rest =
  if pos =? 0 then
    match rest with
    | c :: _ => if isQuote c then Some (S pos, []) else None
    | [] => None
    end
  else None.
Proof. reflexivity. Qed.

Lemma execAt_endVarRe pos rest :
  execAt endVarRe pos rest =
  match rest with
  | [c] => if notQuote c then Some (S pos, [(2, []); (1, [c])]) else None
  | _ => None
  end.
Proof.
  unfold execAt, endVarRe. cbn [Seq rmatch].
  destruct rest as [|c [|d rest]]; try reflexivity.
  - destruct (notQuote c); [|reflexivity]. unfold accept.
    rewrite Nat.sub_diag. replace (S pos - pos) with 1 by lia. reflexivity.
  - destruct (notQuote c); reflexivity.
Qed.

Lemma execAt_endStrRe pos rest :
  execAt endStrRe pos rest =
  match rest with
  | [c] => if isQuote c then Some (S pos, []) else None
  | _ => None
  end.
Proof.
  unfold execAt, endStrRe. cbn [Seq rmatch].
  destruct rest as [|c [|d rest]]; try reflexivity.
  destruct (isQuote c); reflexivity.
Qed.

Lemma noMatchFrom_after_start r rest pos :
  (forall pos' rest', pos' <> 0 -> execAt r pos' rest' = None) ->
  noMatchFrom r (S pos) rest.
Proof. intros H pre rest' _. apply H. discriminate. Qed.

(** Line 59 on a text that starts with a quote: the quote becomes a
    backtick. *)
Lemma replaceRe_beginStrRe q rest :
  isQuote q = true ->
  replaceRe true beginStrRe (s_ "`") (q :: rest) = "`" :: rest.
Proof.
  intros Hq. unfold replaceRe. cbn [replaceFrom]. rewrite execAt_beginStrRe.
  cbn [Nat.eqb]. rewrite Hq. cbn [Nat.sub firstn Nat.eqb].
  rewrite replaceFrom_noMatchFrom; [reflexivity|].
  apply noMatchFrom_after_start. intros pos' rest' Hp.
  rewrite execAt_beginStrRe. destruct pos'; [congruence|reflexivity].
Qed.

(** Line 58 on a text that starts with a quote: nothing to do. *)
Lemma replaceRe_beginVarRe q rest tmpl :
  isQuote q = true ->
  replaceRe true beginVarRe tmpl (q :: rest) = q :: rest.
Proof.
  intros Hq. unfold replaceRe. cbn [replaceFrom]. rewrite execAt_beginVarRe.
  cbn [Nat.eqb]. unfold notQuote. rewrite Hq. cbn [negb].
  rewrite replaceFrom_noMatchFrom; [reflexivity|].
  apply noMatchFrom_after_start. intros pos' rest' Hp.
  rewrite execAt_beginVarRe. destruct pos'; [congruence|reflexivity].
Qed.

(** Line 60 on a text that ends with a quote: nothing to do. *)
Lemma replaceFrom_endVarRe tmpl s q :
  isQuote q = true ->
  forall X pos, replaceFrom true endVarRe tmpl s pos (X ++ [q]) 0 = X ++ [q].
Proof.
  intros Hq. induction X as [|x X IH]; intros pos.
  - cbn [app replaceFrom]. rewrite execAt_endVarRe. unfold notQuote.
    rewrite Hq. reflexivity.
  - cbn [app replaceFrom]. rewrite execAt_endVarRe.
    destruct (X ++ [q]) as [|d rest] eqn:E; [destruct X; discriminate|].
    now rewrite IH.
Qed.

(** Line 61 on a text that ends with a quote: the quote becomes a
    backtick. *)
Lemma replaceFrom_endStrRe s q :
  isQuote q = true ->
  forall X pos, replaceFrom true endStrRe (s_ "`") s pos (X ++ [q]) 0 = X ++ s_ "`".
Proof.
  intros Hq. induction X as [|x X IH]; intros pos.
  - cbn [app replaceFrom]. rewrite execAt_endStrRe, Hq.
    rewrite eqb_succ_self. replace (S pos - pos - 1) with 0 by lia.
    cbn [replaceFrom]. rewrite execAt_endStrRe. reflexivity.
  - cbn [app replaceFrom]. rewrite execAt_endStrRe.
    destruct (X ++ [q]) as [|d rest] eqn:E; [destruct X; discriminate|].
    now rewrite IH.
Qed.

Lemma trimStart_nospace p :
  Forall (fun c => isSpace c = false) p -> trimStart p = p.
Proof. intros H. destruct H as [|c p Hc Hp]; simpl; auto. now rewrite Hc. Qed.

Lemma trim_nospace p : Forall (fun c => isSpace c = false) p -> trim p = p.
Proof.
  intros H. unfold trim, trimEnd. rewrite (@trimStart_nospace p H).
  rewrite trimStart_nospace; [apply rev_involutive|].
  apply Forall_rev. exact H.
Qed.

Lemma plainPathChar_facts c :
  plainPathChar c = true ->
  isQuote c = false /\ isSpace c = false /\ c <> "`" /\ c <> "+" /\ c <> "*" /\ c <> ")".
Proof.
  unfold plainPathChar. intros H. apply negb_true_iff in H.
  apply orb_false_iff in H as [H Hr]. apply orb_false_iff in H as [H Hst].
  apply orb_false_iff in H as [H Hpl]. apply orb_false_iff in H as [H Hb].
  apply orb_false_iff in H as [Hq Hs].
  repeat split; auto; now apply chr_false.
Qed.

Lemma isQuote_facts q :
  isQuote q = true ->
  isSpace q = false /\ q <> "`" /\ q <> "+" /\ q <> "*" /\ q <> LF.
Proof.
  unfold isQuote. intros H. apply orb_true_iff in H as [H|H];
    apply chr_true in H; subst; repeat split; discriminate.
Qed.

Lemma isSpace_LF : isSpace LF = true.
Proof. reflexivity. Qed.

(** A quoted path without quotes, white space, backticks, plus signs and
    asterisks denotes itself. *)
Lemma destinationOf_quoted q p :
  isQuote q = true -> forallb plainPathChar p = true ->
  destinationOf (q :: p ++ [q]) = p.
Proof.
  intros Hq Hp. rewrite forallb_forall in Hp.
  destruct (@isQuote_facts q Hq) as (Hqs & Hqb & Hqp & Hqa & Hql).
  assert (Hin : forall c, In c (q :: p ++ [q]) -> c = q \/ In c p).
  { intros c [<-|H]; auto. apply in_app_or in H as [H|[<-|[]]]; auto. }
  assert (Hno : forall c, isQuote c = false -> c <> q).
  { intros c Hc ->. congruence. }
  assert (Hnot : forall c, In c (q :: p ++ [q]) -> c <> "+" /\ c <> "*" /\ c <> LF).
  { intros c Hc. destruct (Hin c Hc) as [->|Hc']; auto.
    destruct (@plainPathChar_facts c (Hp c Hc')) as (_ & Hs & _ & Hplus & Hstar & _).
    repeat split; auto. intros ->. now rewrite isSpace_LF in Hs. }
  assert (Hplus : ~ In "+" (q :: p ++ [q])).
  { intros H. destruct (Hnot _ H) as (Hx & _). now apply Hx. }
  unfold destinationOf.
  rewrite (@replaceRe_never commentRe true [] (q :: p ++ [q])).
  2:{ apply neverMatches_commentRe; intros H;
      destruct (Hnot _ H) as (_ & Hx & Hy); [now apply Hx|now apply Hy]. }
  rewrite !trim_delimited by auto.
  replace (chr "`" q) with false by (symmetry; now apply chr_false).
  unfold concatToTemplate.
  rewrite (@replaceRe_never strVarRe true (s_ "${$2") _
             (@neverMatches_without_plus strVarRe _ execAt_strVarRe_sound Hplus)).
  rewrite (@replaceRe_never varStrRe true (s_ "$1}") _
             (@neverMatches_without_plus varStrRe _ execAt_varStrRe_sound Hplus)).
  rewrite (@replaceRe_never varVarRe true (s_ "$1}${$3") _
             (@neverMatches_without_plus varVarRe _ execAt_varVarRe_sound Hplus)).
  rewrite (@replaceRe_never strStrRe true [] _
             (@neverMatches_without_plus strStrRe _ execAt_strStrRe_sound Hplus)).
  rewrite replaceRe_beginVarRe, replaceRe_beginStrRe by auto.
  change ("`" :: p ++ [q]) with (("`" :: p) ++ [q]).
  unfold replaceRe.
  rewrite replaceFrom_endVarRe, replaceFrom_endStrRe by auto.
  rewrite replaceFrom_backtickRe.
  cbn [app List.filter]. replace (negb (chr "`" "`")) with false by reflexivity.
  rewrite filter_app. cbn [s_ list_ascii_of_string List.filter].
  replace (negb (chr "`" "`")) with false by reflexivity.
  rewrite app_nil_r, filter_all.
  - apply trim_nospace. apply Forall_forall. intros c Hc.
    now destruct (@plainPathChar_facts c (Hp c Hc)) as (_ & Hs & _).
  - apply Forall_forall. intros c Hc.
    destruct (@plainPathChar_facts c (Hp c Hc)) as (_ & _ & Hb & _).
    now apply negb_true_iff, chr_false.
Qed.

(** ** Texts with a single import call, end to end *)

Section SingleImport.

Variable Path : PathApi.
Variable FastGlob : str -> str -> promise (list str).
Variable resolveDir : str.
Variable config : DynamicImportConfig.
Variables pre post : str.
Hypothesis Hpre : noImportText pre.
Hypothesis Hpost : noImportText post.

Lemma classify_single_import a :
  a <> [] -> Forall (fun c => c <> ")") a ->
  classify Path (pre ++ s_ "import(" ++ a ++ s_ ")" ++ post) resolveDir config =
  processMatch Path resolveDir config
    {| ls_fileContents := pre ++ s_ "import(" ++ a ++ s_ ")" ++ post;
       ls_importsToReplace := []; ls_globImports := [] |}
    {| m_index := length pre; m_text := s_ "import(" ++ a ++ s_ ")";
       m_caps := [(1, a)] |}.
Proof.
  intros Ha Hf. unfold classify. now rewrite matchAll_single_import.
Qed.

(** A single import of a quoted plain path that meets the condition of
    line 71: the argument becomes the template literal of the normalized
    path, provided the argument does not occur earlier in the text. *)
Lemma replaceImports_single_quoted_import q p :
  let file := pre ++ s_ "import(" ++ (q :: p ++ [q]) ++ s_ ")" ++ post in
  let normalizedPath := normalize Path (resolveDir ++ s_ "/" ++ p) in
  isQuote q = true -> forallb plainPathChar p = true ->
  rewriteCondition Path config p (extname Path p) = true ->
  firstOccurrence (q :: p ++ [q]) file (pre ++ s_ "import(") (s_ ")" ++ post) ->
  plainTemplate (s_ "`" ++ normalizedPath ++ s_ "`") = true ->
  replaceImports Path FastGlob file resolveDir config =
  (Fulfilled (pre ++ s_ "import(" ++ (s_ "`" ++ normalizedPath ++ s_ "`") ++ s_ ")" ++ post),
   noEffects).
Proof.
  intros file normalizedPath Hq Hp Hc Hfirst Hplain.
  assert (Ha : q :: p ++ [q] <> []) by discriminate.
  assert (Hf : Forall (fun c => c <> ")") (q :: p ++ [q])).
  { rewrite forallb_forall in Hp.
    constructor.
    - unfold isQuote in Hq. apply orb_true_iff in Hq as [Hq|Hq];
        apply chr_true in Hq; subst; discriminate.
    - apply Forall_app. split.
      + apply Forall_forall. intros c Hin.
        now destruct (@plainPathChar_facts c (Hp c Hin)) as (_ & _ & _ & _ & _ & H).
      + constructor; [|constructor].
        unfold isQuote in Hq. apply orb_true_iff in Hq as [Hq|Hq];
          apply chr_true in Hq; subst; discriminate. }
  assert (Hst : classify Path file resolveDir config =
                {| ls_fileContents :=
                     replaceStr file (q :: p ++ [q]) (s_ "`" ++ normalizedPath ++ s_ "`");
                   ls_importsToReplace := [];
                   ls_globImports := [] |}).
  { unfold file. rewrite (classify_single_import Ha Hf).
    unfold processMatch, group. cbn [m_caps capture Nat.eqb m_text].
    rewrite (destinationOf_quoted q p Hq Hp), Hc. reflexivity. }
  unfold replaceImports. rewrite Hst.
  cbn [ls_fileContents ls_globImports length Nat.ltb Nat.leb].
  rewrite (@replaceStr_first_plain _ _ _ _ _ Hfirst Hplain).
  rewrite <- !app_assoc. reflexivity.
Qed.


End SingleImport.

(** ** The splices, one call after the other *)




Section InTurn.

Variable Path : PathApi.
Variable resolveDir : str.
Variable config : DynamicImportConfig.

Local Abbreviation step := (processMatch Path resolveDir config).



End InTurn.


Lemma map_get_In_pair {V} (k : str) (v : V) m : map_get k m = Some v -> In (k, v) m.
Proof.
  induction m as [|[k' v'] m IH]; simpl; [discriminate|].
  destruct (str_eqb k' k) eqn:E.
  - apply str_eqb_eq in E. subst. intros H. injection H as ->. now left.
  - auto.
Qed.
(** The numbering of the static imports. *)
Lemma nth_error_numbered {A} (l : list A) i x :
  nth_error l i = Some x -> nth_error (numbered l) i = Some (i, x).
Proof.
  unfold numbered. intros H.
  assert (G : forall (l : list A) k i x, nth_error l i = Some x ->
                nth_error (combine (seq k (length l)) l) i = Some (k + i, x)).
  { clear. induction l as [|y l IH]; intros k [|i] x H; try discriminate.
    - simpl in *. inversion H. now rewrite Nat.add_0_r.
    - simpl in *. rewrite (IH (S k) i x H). f_equal. f_equal. lia. }
  exact (G l 0 i x H).
Qed.



(** The distinct elements are distinct. *)
Lemma distinctFrom_NoDup :
  forall l seen,
    NoDup (distinctFrom seen l) /\
    forall x, In x (distinctFrom seen l) -> ~ In x seen.
Proof.
  induction l as [|x l IH]; intros seen; simpl.
  - split; [constructor|intros x []].
  - destruct (existsb (str_eqb x) seen) eqn:E; [apply IH|].
    apply existsb_str_not_In in E.
    destruct (IH (seen ++ [x])) as [Hn Hs]. split.
    + constructor; auto. intros H. apply (Hs x H), in_or_app. right. now left.
    + intros y [<-|H]; auto. intros Hy. apply (Hs y H), in_or_app. now left.
Qed.


(** * The claims *)




(** C2.  When the glob resolution yields two distinct spellings that
    normalize to the same absolute path, the output starts with the
    generated code, made of the static imports of the kept spellings,
    numbered from [0], and of the object literal rendered from the entries
    of the module map.  Exactly one kept spelling, hence one static import
    statement, has that normalized path, at some index [i]; the entries have
    no duplicate key and hold both spellings, each bound to
    [_DynamicImportModule<i>]. *)
Theorem two_spellings_share_one_slot
  (Path : PathApi) (FastGlob : str -> str -> promise (list str))
  (fileContents resolveDir : str) (config : DynamicImportConfig)
  (resolved : list (list str)) (p1 p2 : str) :
  let st := classify Path fileContents resolveDir config in
  let norm := normalizedIn Path resolveDir in
  promiseAll (map (fun g => FastGlob g resolveDir) (ls_globImports st)) =
    Fulfilled resolved ->
  In p1 (concat resolved) -> In p2 (concat resolved) -> p1 <> p2 ->
  norm p1 = norm p2 ->
  exists (kept : list str) (entries : list (str * str)) (text : str) (i : nat) (q : str),
    fst (replaceImports Path FastGlob fileContents resolveDir config) =
      Fulfilled
        (generatedCode (map importLine (numbered kept)) (map mapEntry entries) ++ text) /\
    nth_error kept i = Some q /\ norm q = norm p1 /\
    nth_error (map importLine (numbered kept)) i =
      Some (s_ "import * as _DynamicImportModule" ++ dec i ++ s_ " from '" ++ q ++ s_ "';") /\
    (forall j q', nth_error kept j = Some q' -> norm q' = norm p1 -> j = i) /\
    NoDup (map fst entries) /\
    In (p1, s_ "_DynamicImportModule" ++ dec i) entries /\
    In (p2, s_ "_DynamicImportModule" ++ dec i) entries /\
    In (s_ "'" ++ p1 ++ s_ "':_DynamicImportModule" ++ dec i) (map mapEntry entries) /\
    In (s_ "'" ++ p2 ++ s_ "':_DynamicImportModule" ++ dec i) (map mapEntry entries).
Proof.
  intros st norm Hp H1 H2 Hne Hn.
  set (paths := withExtensionless (concat resolved)).
  set (d := dedupe Path resolveDir paths).
  destruct (dedupe_spec Path resolveDir paths) as (Hk & Hm & Hnd & Hs).
  fold d in Hk, Hm, Hs. fold norm in Hk, Hs, Hnd.
  assert (Hc : concat resolved <> []) by (intros E; rewrite E in H1; contradiction).
  assert (Hin : forall p, In p (concat resolved) -> In p paths)
    by (intros p Hq; unfold paths; rewrite withExtensionless_eq; apply in_or_app; now left).
  assert (Hpne : paths <> []) by (intros E; apply (Hin _) in H1; rewrite E in H1; contradiction).
  destruct (Hs p1 (Hin _ H1)) as (i & q & Hg1 & Hq & Hnq).
  destruct (Hs p2 (Hin _ H2)) as (i' & q' & Hg2 & Hq' & Hnq').
  assert (Huniq : forall j r, nth_error (firstSeen norm paths) j = Some r ->
                              norm r = norm p1 -> j = i).
  { intros j r Hj Hr.
    assert (Hlt : j < length (map norm (firstSeen norm paths))).
    { rewrite length_map. apply nth_error_Some. congruence. }
    apply (proj1 (NoDup_nth_error _) Hnd j i Hlt).
    rewrite !nth_error_map, Hj, Hq. simpl. congruence. }
  assert (i' = i) by (apply (Huniq i' q'); congruence). subst i'.
  exists (firstSeen norm paths), (moduleMap d),
    (fold_left substituteImport (ls_importsToReplace st) (ls_fileContents st)), i, q.
  assert (He1 : In (p1, s_ "_DynamicImportModule" ++ dec i) (moduleMap d))
    by now apply map_get_In_pair.
  assert (He2 : In (p2, s_ "_DynamicImportModule" ++ dec i) (moduleMap d))
    by now apply map_get_In_pair.
  split; [|split; [exact Hq|split; [exact Hnq|split; [|split; [exact Huniq|split;
    [|split; [exact He1|split; [exact He2|split]]]]]]]].
  - rewrite (replaceImports_resolved Path FastGlob fileContents resolveDir config Hp Hc).
    cbn [fst]. cbv zeta. fold paths. fold d. fold st.
    rewrite importStringOf_eq, Hk, objectMapStringOf_eq.
    + unfold generatedCode. now rewrite <- !app_assoc.
    + intros H. apply (distinct_not_nil Hpne). rewrite <- Hm, H. reflexivity.
  - now rewrite nth_error_map, (nth_error_numbered _ _ Hq).
  - rewrite Hm. apply distinctFrom_NoDup.
  - apply in_map_iff. exists (p1, s_ "_DynamicImportModule" ++ dec i).
    split; [|exact He1]. unfold mapEntry. cbn [fst snd]. now rewrite <- ?app_assoc.
  - apply in_map_iff. exists (p2, s_ "_DynamicImportModule" ++ dec i).
    split; [|exact He2]. unfold mapEntry. cbn [fst snd]. now rewrite <- ?app_assoc.
Qed.

Lemma two_spellings_share_one_slot_witness :
  let file := s_ "const m = import(`./lib/${x}.js`);" in
  let norm := normalizedIn Posix.api (s_ "/d") in
  norm (s_ "lib/a.js") = norm (s_ "./lib/a.js") /\
  exists (kept : list str) (entries : list (str * str)) (text : str) (i : nat) (q : str),
    fst (replaceImports Posix.api globTwoSpellings file (s_ "/d") configTransformJs) =
      Fulfilled
        (generatedCode (map importLine (numbered kept)) (map mapEntry entries) ++ text) /\
    nth_error kept i = Some q /\ norm q = norm (s_ "lib/a.js") /\
    nth_error (map importLine (numbered kept)) i =
      Some (s_ "import * as _DynamicImportModule" ++ dec i ++ s_ " from '" ++ q ++ s_ "';") /\
    (forall j q', nth_error kept j = Some q' -> norm q' = norm (s_ "lib/a.js") -> j = i) /\
    NoDup (map fst entries) /\
    In (s_ "lib/a.js", s_ "_DynamicImportModule" ++ dec i) entries /\
    In (s_ "./lib/a.js", s_ "_DynamicImportModule" ++ dec i) entries /\
    In (s_ "'" ++ s_ "lib/a.js" ++ s_ "':_DynamicImportModule" ++ dec i)
      (map mapEntry entries) /\
    In (s_ "'" ++ s_ "./lib/a.js" ++ s_ "':_DynamicImportModule" ++ dec i)
      (map mapEntry entries).
Proof.
  intros file norm.
  assert (Hn : norm (s_ "lib/a.js") = norm (s_ "./lib/a.js")) by (vm_compute; reflexivity).
  split; [exact Hn|].
  apply (@two_spellings_share_one_slot Posix.api globTwoSpellings file (s_ "/d")
           configTransformJs [[s_ "lib/a.js"; s_ "./lib/a.js"]]
           (s_ "lib/a.js") (s_ "./lib/a.js")).
  - vm_compute. reflexivity.
  - simpl. auto.
  - simpl. auto.
  - discriminate.
  - exact Hn.
Defined.

(** C3, as the code has it.  The resolved paths are registered together
    with each of them without its trailing [.js]; a path that does not end
    in [.js], one ending in [.json] among them, is registered once more
    under its own spelling.  The extension-less variant is bound to the
    slot of its own normalized path. *)
Theorem extensionless_variant_has_own_slot
  (Path : PathApi) (resolveDir : str) (resolved : list str) :
  let norm := normalizedIn Path resolveDir in
  let paths := withExtensionless resolved in
  let d := dedupe Path resolveDir paths in
  paths = resolved ++ map stripJs resolved /\
  (forall q, stripJs (q ++ s_ ".js") = q /\ stripJs (q ++ s_ ".json") = q ++ s_ ".json") /\
  (forall q, In (q ++ s_ ".js") resolved ->
     exists i r,
       map_get q (moduleMap d) = Some (s_ "_DynamicImportModule" ++ dec i) /\
       nth_error (dedupedImportFilePaths d) i = Some r /\ norm r = norm q) /\
  (forall k, In k (map fst (moduleMap d)) ->
             In k resolved \/ In (k ++ s_ ".js") resolved).
Proof.
  intros norm paths d.
  destruct (dedupe_spec Path resolveDir paths) as (Hk & Hm & _ & Hs).
  fold d in Hk, Hm, Hs. fold norm in Hk, Hs.
  assert (Hp : paths = resolved ++ map stripJs resolved)
    by apply withExtensionless_eq.
  split; [exact Hp|]. split; [|split].
  - intros q. split; [apply stripJs_app|].
    apply stripJs_other. intros q' E.
    apply (f_equal (@rev ascii)) in E. rewrite !rev_app_distr in E. discriminate.
  - intros q Hq. rewrite Hk. apply Hs. rewrite Hp. apply in_or_app. right.
    apply in_map_iff. exists (q ++ s_ ".js"). split; auto. apply stripJs_app.
  - intros k Hin. rewrite Hm in Hin. apply distinctFrom_incl in Hin.
    rewrite Hp in Hin. apply in_app_or in Hin as [Hin|Hin]; auto.
    apply in_map_iff in Hin as (p & <- & Hin).
    destruct (endsWithJs_dec p) as [[q ->]|Hn].
    + right. now rewrite stripJs_app.
    + left. now rewrite (stripJs_other Hn).
Qed.

Lemma extensionless_variant_has_own_slot_witness :
  let d := dedupe Posix.api (s_ "/d") (withExtensionless [s_ "mod-a.js"; s_ "data.json"]) in
  In (s_ "mod-a" ++ s_ ".js") [s_ "mod-a.js"; s_ "data.json"] /\
  (exists i r,
      map_get (s_ "mod-a") (moduleMap d) = Some (s_ "_DynamicImportModule" ++ dec i) /\
      nth_error (dedupedImportFilePaths d) i = Some r /\
      normalizedIn Posix.api (s_ "/d") r = normalizedIn Posix.api (s_ "/d") (s_ "mod-a")) /\
  map fst (moduleMap d) = [s_ "mod-a.js"; s_ "data.json"; s_ "mod-a"].
Proof.
  intros d.
  assert (H : In (s_ "mod-a" ++ s_ ".js") [s_ "mod-a.js"; s_ "data.json"])
    by (left; reflexivity).
  split; [exact H|]. split; [|vm_compute; reflexivity].
  exact (proj1 (proj2 (proj2 (@extensionless_variant_has_own_slot Posix.api (s_ "/d")
                                 [s_ "mod-a.js"; s_ "data.json"]))) (s_ "mod-a") H).
Defined.

(** C3 as the claim has it fails: [mod-a.js] and its extension-less
    variant [mod-a] are bound to different slots. *)
Lemma extensionless_variant_same_slot_counterexample :
  let d := dedupe Posix.api (s_ "/d") (withExtensionless [s_ "mod-a.js"]) in
  In (s_ "mod-a.js") [s_ "mod-a.js"] /\
  map_get (s_ "mod-a.js") (moduleMap d) = Some (s_ "_DynamicImportModule0") /\
  map_get (s_ "mod-a") (moduleMap d) = Some (s_ "_DynamicImportModule1") /\
  map_get (s_ "mod-a") (moduleMap d) <> map_get (s_ "mod-a.js") (moduleMap d) /\
  dedupedImportFilePaths d = [s_ "mod-a.js"; s_ "mod-a"].
Proof.
  intros d. split; [left; reflexivity|].
  split; [vm_compute; reflexivity|]. split; [vm_compute; reflexivity|].
  split; [vm_compute; discriminate|vm_compute; reflexivity].
Qed.




(** C5.  [replaceImports] always fulfills.  When the resolution of one of
    the glob patterns is rejected, every pattern has been handed to the
    resolver, one error is logged, and the text comes back as the loop over
    the matches left it, without generated code; so it does when the
    resolutions yield no path at all, nothing being logged then.  That text
    is the input when the loop rewrote no argument. *)
Theorem glob_failure_is_logged_not_propagated
  (Path : PathApi) (FastGlob : str -> str -> promise (list str))
  (fileContents resolveDir : str) (config : DynamicImportConfig) :
  let st := classify Path fileContents resolveDir config in
  let calls := map (fun g : str => (g, resolveDir)) (ls_globImports st) in
  (exists t eff,
      replaceImports Path FastGlob fileContents resolveDir config = (Fulfilled t, eff)) /\
  (forall g, In g (ls_globImports st) -> FastGlob g resolveDir = Rejected ->
     replaceImports Path FastGlob fileContents resolveDir config =
     (Fulfilled (ls_fileContents st), {| globCalls := calls; consoleErrors := 1 |})) /\
  (forall resolved,
     promiseAll (map (fun g => FastGlob g resolveDir) (ls_globImports st)) =
       Fulfilled resolved ->
     concat resolved = [] ->
     replaceImports Path FastGlob fileContents resolveDir config =
     (Fulfilled (ls_fileContents st), {| globCalls := calls; consoleErrors := 0 |})) /\
  ((forall m, In m (matchAll importRe fileContents) ->
              rewriteCondition Path config (destinationOf (group 1 m))
                (extname Path (destinationOf (group 1 m))) = false) ->
   ls_fileContents st = fileContents).
Proof.
  intros st calls. split; [|split; [|split]].
  - apply replaceImports_fulfilled.
  - intros g Hin Hg. apply replaceImports_rejected.
    apply in_map_iff. exists g. auto.
  - intros resolved H Hc. now apply replaceImports_resolved_nothing with (resolved := resolved).
  - apply classify_text_unchanged.
Qed.

Lemma glob_failure_is_logged_not_propagated_witness :
  let text := s_ "const m = import(`./mod-${x}.js`);" in
  In (s_ "./mod-**/*.js")
     (ls_globImports (classify Posix.api text (s_ "/d") configTransformJs)) /\
  globFailing (s_ "./mod-**/*.js") (s_ "/d") = Rejected /\
  replaceImports Posix.api globFailing text (s_ "/d") configTransformJs =
  (Fulfilled text,
   {| globCalls := [(s_ "./mod-**/*.js", s_ "/d")]; consoleErrors := 1 |}).
Proof.
  intros text.
  assert (Hin : In (s_ "./mod-**/*.js")
     (ls_globImports (classify Posix.api text (s_ "/d") configTransformJs)))
    by (vm_compute; left; reflexivity).
  split; [exact Hin|]. split; [reflexivity|].
  rewrite (proj1 (proj2 (@glob_failure_is_logged_not_propagated Posix.api globFailing
                           text (s_ "/d") configTransformJs)) _ Hin eq_refl).
  vm_compute. reflexivity.
Defined.

(** C6.  When the content read is the content cached for the path, the
    loader returns the cached output, leaves the cache alone and calls
    neither the rewriter nor the glob resolver; otherwise it runs the
    rewriter on the new content and overwrites the entry of the path.  A
    second call on unchanged content therefore returns what the first
    returned without a single call of the resolver, whatever the resolver
    would answer. *)
Theorem loader_reuses_cache_on_same_content
  (Path : PathApi) (FastGlob FastGlob' : str -> str -> promise (list str))
  (readFile : str -> promise str) (config : DynamicImportConfig)
  (defaultLoader : str) (cache : Cache) (args_path contentsRead : str) :
  let loader :=
    if str_eqb (extname Path args_path) (s_ ".json") then s_ "json" else defaultLoader in
  readFile args_path = Fulfilled contentsRead ->
  (forall v, map_get args_path cache = Some v -> fileContents v = contentsRead ->
     onLoad Path FastGlob readFile config defaultLoader cache args_path =
     (Fulfilled (output v), cache, noEffects)) /\
  ((forall v, map_get args_path cache = Some v -> fileContents v <> contentsRead) ->
     exists contents eff,
       replaceImports Path FastGlob contentsRead (dirname Path args_path) config =
         (Fulfilled contents, eff) /\
       let value :=
         {| fileContents := contentsRead;
            output := {| contents := contents; resultLoader := loader |} |} in
       onLoad Path FastGlob readFile config defaultLoader cache args_path =
         (Fulfilled (output value), map_set args_path value cache, eff) /\
       map_get args_path (map_set args_path value cache) = Some value) /\
  (exists out cache1 eff1,
     onLoad Path FastGlob readFile config defaultLoader cache args_path =
       (Fulfilled out, cache1, eff1) /\
     onLoad Path FastGlob' readFile config defaultLoader cache1 args_path =
       (Fulfilled out, cache1, noEffects)).
Proof.
  intros loader Hread.
  assert (Hhit : forall G c v,
             map_get args_path c = Some v -> fileContents v = contentsRead ->
             onLoad Path G readFile config defaultLoader c args_path =
             (Fulfilled (output v), c, noEffects)).
  { intros G c v Hg Hv. unfold onLoad. rewrite Hread, Hg, Hv, str_eqb_refl.
    reflexivity. }
  assert (Hmiss :
            (forall v, map_get args_path cache = Some v -> fileContents v <> contentsRead) ->
            exists contents eff,
              replaceImports Path FastGlob contentsRead (dirname Path args_path) config =
                (Fulfilled contents, eff) /\
              let value :=
                {| fileContents := contentsRead;
                   output := {| contents := contents; resultLoader := loader |} |} in
              onLoad Path FastGlob readFile config defaultLoader cache args_path =
                (Fulfilled (output value), map_set args_path value cache, eff) /\
              map_get args_path (map_set args_path value cache) = Some value).
  { intros Hne.
    destruct (replaceImports_fulfilled Path FastGlob contentsRead
                (dirname Path args_path) config) as (t & eff & Hr).
    exists t, eff. split; [exact Hr|]. cbv zeta. split; [|apply map_get_set_same].
    unfold onLoad. rewrite Hread.
    destruct (map_get args_path cache) as [v|] eqn:Hg.
    - assert (E : str_eqb (fileContents v) contentsRead = false)
        by (apply str_eqb_neq; now apply Hne).
      rewrite E. cbn [negb]. rewrite Hr. reflexivity.
    - rewrite Hr. reflexivity. }
  split; [apply Hhit|]. split; [exact Hmiss|].
  destruct (map_get args_path cache) as [v|] eqn:Hg.
  - destruct (list_eq_dec ascii_dec (fileContents v) contentsRead) as [Hv|Hv].
    + exists (output v), cache, noEffects. split; apply Hhit; auto.
    + destruct Hmiss as (t & eff & _ & Ho & Hs).
      { intros v' [= <-]. exact Hv. }
      cbv zeta in Ho, Hs. eexists _, _, eff. split; [exact Ho|].
      now apply (Hhit FastGlob' _ _ Hs).
  - destruct Hmiss as (t & eff & _ & Ho & Hs); [discriminate|].
    cbv zeta in Ho, Hs. eexists _, _, eff. split; [exact Ho|].
    now apply (Hhit FastGlob' _ _ Hs).
Qed.

Lemma loader_reuses_cache_on_same_content_witness :
  let text := s_ "const m = import(`./mod-${x}.js`);" in
  let read := readOnly (s_ "/src/a.js") text in
  read (s_ "/src/a.js") = Fulfilled text /\
  exists out cache1 eff1,
    onLoad Posix.api globTwoModules read configTransformJs (s_ "js") [] (s_ "/src/a.js") =
      (Fulfilled out, cache1, eff1) /\
    onLoad Posix.api globFailing read configTransformJs (s_ "js") cache1 (s_ "/src/a.js") =
      (Fulfilled out, cache1, noEffects).
Proof.
  intros text read.
  assert (H : read (s_ "/src/a.js") = Fulfilled text) by reflexivity.
  split; [exact H|].
  exact (proj2 (proj2 (@loader_reuses_cache_on_same_content Posix.api globTwoModules
                         globFailing read configTransformJs (s_ "js") []
                         (s_ "/src/a.js") text H))).
Defined.

(** C7.  The plugin factory throws exactly when [transformExtensions] is
    not a list and [changeRelativeToAbsolute] is falsy; nothing is
    registered then, no plugin being returned.  Otherwise it returns a
    plugin whose [setup] registers one load hook. *)
Theorem configuration_error_exactly_when
  (Path : PathApi) (FastGlob : str -> str -> promise (list str))
  (readFile : str -> promise str) (config : DynamicImportConfig) :
  ((exists message,
       dynamicImport Path FastGlob readFile config = Thrown Plugin message) <->
   (transformExtensions config = None /\
    truthy (changeRelativeToAbsolute config) = false)) /\
  ((exists plugin,
       dynamicImport Path FastGlob readFile config = Returned plugin /\
       forall build, exists hook, setup plugin build = build ++ [hook]) <->
   (transformExtensions config <> None \/
    truthy (changeRelativeToAbsolute config) = true)).
Proof.
  unfold dynamicImport.
  destruct (transformExtensions config) as [exts|];
    destruct (truthy (changeRelativeToAbsolute config)); cbn [negb andb].
  1-3: split;
    [ split; [intros [x H]; discriminate H | intros [H1 H2]; congruence]
    | split;
      [ intros _; first [left; discriminate | right; reflexivity]
      | intros _; eexists; split; [reflexivity|]; intros build; eexists; reflexivity ] ].
  split.
  - split; [intros _; split; reflexivity | intros _; eexists; reflexivity].
  - split; [intros (p & H & _); discriminate H | intros [H|H]; congruence].
Qed.

Lemma configuration_error_exactly_when_witness :
  let config := {| transformExtensions := None; changeRelativeToAbsolute := Some false;
                   filter := None; loader := None |} in
  (transformExtensions config = None /\
   truthy (changeRelativeToAbsolute config) = false) /\
  exists message,
    dynamicImport Posix.api globNothing (readOnly [] []) config = Thrown Plugin message.
Proof.
  intros config.
  assert (H : transformExtensions config = None /\
              truthy (changeRelativeToAbsolute config) = false) by (split; reflexivity).
  split; [exact H|].
  exact (proj2 (proj1 (@configuration_error_exactly_when Posix.api globNothing
                         (readOnly [] []) config)) H).
Defined.

(** C8.  A text without an [import(...)] occurrence comes back unchanged,
    whatever the directory and the configuration, and the glob resolver is
    not called. *)
Theorem replaceImports_without_import_is_identity
  (Path : PathApi) (FastGlob : str -> str -> promise (list str))
  (fileContents resolveDir : str) (config : DynamicImportConfig) :
  ~ importOccurs fileContents ->
  replaceImports Path FastGlob fileContents resolveDir config =
  (Fulfilled fileContents, noEffects).
Proof.
  intros H. apply matchAll_importRe_nil in H.
  unfold replaceImports, classify. rewrite H. reflexivity.
Qed.

Lemma replaceImports_without_import_is_identity_witness :
  ~ importOccurs (s_ "export const answer = imported(42);") /\
  replaceImports Posix.api globFailing (s_ "export const answer = imported(42);")
    (s_ "/a/b") configTransformJs =
  (Fulfilled (s_ "export const answer = imported(42);"), noEffects).
Proof.
  assert (H : ~ importOccurs (s_ "export const answer = imported(42);"))
    by (apply matchAll_importRe_nil; vm_compute; reflexivity).
  split; [exact H|].
  exact (@replaceImports_without_import_is_identity Posix.api globFailing
           (s_ "export const answer = imported(42);") (s_ "/a/b") configTransformJs H).
Defined.

(** C9.  A second run over a rewritten [.js] import leaves the absolute
    path alone, but a second run over a rewritten [.json] import puts the
    directory in front of the absolute path once more: the test for an
    absolute destination guards the [.js] case only. *)
Theorem json_import_is_rewritten_again :
  replaceImports Posix.api globNothing (s_ "import('./foo.js')") (s_ "/a/b")
    configAbsolute = (Fulfilled (s_ "import(`/a/b/foo.js`)"), noEffects) /\
  replaceImports Posix.api globNothing (s_ "import(`/a/b/foo.js`)") (s_ "/a/b")
    configAbsolute = (Fulfilled (s_ "import(`/a/b/foo.js`)"), noEffects) /\
  replaceImports Posix.api globNothing (s_ "import('./data.json')") (s_ "/a/b")
    configAbsolute = (Fulfilled (s_ "import(`/a/b/data.json`)"), noEffects) /\
  replaceImports Posix.api globNothing (s_ "import(`/a/b/data.json`)") (s_ "/a/b")
    configAbsolute = (Fulfilled (s_ "import(`/a/b/a/b/data.json`)"), noEffects) /\
  isAbsolute Posix.api (s_ "/a/b/data.json") = true.
Proof. repeat split; vm_compute; reflexivity. Qed.

(** C10.  Both splices replace the first occurrence of their pattern in the
    whole text: the rewrite to an absolute path that of the argument of the
    match, the substitution of the lookup call that of the whole call.  In
    [const a = './foo.js'; import('./foo.js');] the string at index 10 is
    rewritten and the import at index 22 is not; in
    [import(import(`./mod-${x}.js`); import(`./mod-${x}.js`)] the call
    matched at index 32 is queued and its text inside the match at index 0
    is substituted. *)
Theorem splices_replace_first_occurrence :
  (forall (Path : PathApi) resolveDir config st m pre post,
      rewriteCondition Path config (destinationOf (group 1 m))
        (extname Path (destinationOf (group 1 m))) = true ->
      firstOccurrence (group 1 m) (ls_fileContents st) pre post ->
      ls_fileContents (processMatch Path resolveDir config st m) =
      pre ++ getSubstitution (group 1 m) (ls_fileContents st) (length pre) [] 0
               (s_ "`" ++ normalize Path (resolveDir ++ s_ "/" ++ destinationOf (group 1 m))
                  ++ s_ "`")
          ++ post) /\
  (forall text imp pre post,
      firstOccurrence (fullImport imp) text pre post ->
      substituteImport text imp =
      pre ++ getSubstitution (fullImport imp) text (length pre) [] 0
               (s_ "_DynamicImport(" ++ pathString imp ++ s_ ")")
          ++ post) /\
  (let text := s_ "const a = './foo.js'; import('./foo.js');" in
   map (fun m => (m_index m, group 1 m)) (matchAll importRe text) =
     [(22, s_ "'./foo.js'")] /\
   indexOf (s_ "'./foo.js'") text = Some 10 /\
   replaceImports Posix.api globNothing text (s_ "/a/b") configAbsolute =
     (Fulfilled (s_ "const a = `/a/b/foo.js`; import('./foo.js');"), noEffects)) /\
  (let text := s_ "import(import(`./mod-${x}.js`); import(`./mod-${x}.js`)" in
   let st := classify Posix.api text (s_ "/d") configTransformJs in
   map m_index (matchAll importRe text) = [0; 32] /\
   ls_importsToReplace st =
     [{| fullImport := s_ "import(`./mod-${x}.js`)";
         pathString := s_ "`./mod-${x}.js`" |}] /\
   indexOf (s_ "import(`./mod-${x}.js`)") text = Some 7 /\
   fold_left substituteImport (ls_importsToReplace st) (ls_fileContents st) =
     s_ "import(_DynamicImport(`./mod-${x}.js`); import(`./mod-${x}.js`)").
Proof.
  split; [|split; [|split]].
  - intros Path resolveDir config st m pre post Hc Hf.
    unfold processMatch. rewrite Hc. cbn [ls_fileContents].
    now apply replaceStr_first.
  - intros text imp pre post Hf. unfold substituteImport. now apply replaceStr_first.
  - repeat split; vm_compute; reflexivity.
  - repeat split; vm_compute; reflexivity.
Qed.

Lemma splices_replace_first_occurrence_witness :
  let text := s_ "import(import(`./mod-${x}.js`); import(`./mod-${x}.js`)" in
  let imp := {| fullImport := s_ "import(`./mod-${x}.js`)";
                pathString := s_ "`./mod-${x}.js`" |} in
  firstOccurrence (fullImport imp) text (s_ "import(") (s_ "; import(`./mod-${x}.js`)") /\
  substituteImport text imp =
  s_ "import(_DynamicImport(`./mod-${x}.js`); import(`./mod-${x}.js`)".
Proof.
  intros text imp.
  assert (Hf : firstOccurrence (fullImport imp) text (s_ "import(")
                 (s_ "; import(`./mod-${x}.js`)"))
    by exact (@firstOccurrence_indexOf (fullImport imp) text 7 eq_refl).
  split; [exact Hf|].
  rewrite (proj1 (proj2 splices_replace_first_occurrence) text imp _ _ Hf).
  vm_compute. reflexivity.
Defined.

(** * Further properties of the code *)

(** ** Quantifiers: whether an attempt succeeds *)

Section StarsComplete.

Variable p : ascii -> bool.
Variable k : cont.

Lemma star_greedy_complete :
  forall w rest' pos cs,
    Forall (fun c => p c = true) w ->
    k (pos + length w) rest' cs <> None ->
    star_greedy p pos (w ++ rest') cs k <> None.
Proof.
  induction w as [|c w IH]; intros rest' pos cs Hw Hk.
  - simpl in *. rewrite Nat.add_0_r in Hk.
    destruct rest' as [|c r]; simpl; auto.
    destruct (p c); auto.
    destruct (star_greedy p (S pos) r cs k); auto. discriminate.
  - inversion Hw; subst. simpl. rewrite H1.
    specialize (IH rest' (S pos) cs H2).
    destruct (star_greedy p (S pos) (w ++ rest') cs k); [discriminate|].
    exfalso. apply IH; auto. simpl in Hk. now rewrite Nat.add_succ_r in Hk.
Qed.

Lemma star_lazy_unfold pos rest cs :
  star_lazy p pos rest cs k =
  match k pos rest cs with
  | Some x => Some x
  | None =>
      match rest with
      | c :: rest' => if p c then star_lazy p (S pos) rest' cs k else None
      | [] => None
      end
  end.
Proof. destruct rest; reflexivity. Qed.

Lemma star_lazy_complete :
  forall w rest' pos cs,
    Forall (fun c => p c = true) w ->
    k (pos + length w) rest' cs <> None ->
    star_lazy p pos (w ++ rest') cs k <> None.
Proof.
  induction w as [|c w IH]; intros rest' pos cs Hw Hk.
  - simpl in *. rewrite Nat.add_0_r in Hk. rewrite star_lazy_unfold.
    destruct (k pos rest' cs); [discriminate|congruence].
  - inversion Hw; subst. rewrite star_lazy_unfold.
    destruct (k pos ((c :: w) ++ rest') cs); [discriminate|].
    cbn [app]. rewrite H1. apply IH; auto.
    simpl in Hk. now rewrite Nat.add_succ_r in Hk.
Qed.

(** A lazy quantifier stops at the first place where what follows
    matches. *)
Lemma star_lazy_shortest (x : nat * caps) :
  forall w rest' pos cs,
    Forall (fun c => p c = true) w ->
    (forall u c v, w = u ++ c :: v -> k (pos + length u) (c :: v ++ rest') cs = None) ->
    k (pos + length w) rest' cs = Some x ->
    star_lazy p pos (w ++ rest') cs k = Some x.
Proof.
  induction w as [|c w IH]; intros rest' pos cs Hw Hn Hk.
  - simpl in *. rewrite Nat.add_0_r in Hk. rewrite star_lazy_unfold. now rewrite Hk.
  - inversion Hw; subst. rewrite star_lazy_unfold.
    pose proof (Hn [] c w eq_refl) as H0. simpl in H0. rewrite Nat.add_0_r in H0.
    cbn [app]. rewrite H0, H1. apply IH; auto.
    + intros u d v ->. specialize (Hn (c :: u) d v eq_refl).
      simpl in Hn. now rewrite Nat.add_succ_r in Hn.
    + simpl in Hk. now rewrite Nat.add_succ_r in Hk.
Qed.

End StarsComplete.

(** ** Testing a pattern *)

Lemma testFrom_app r rest :
  (forall pos, execAt r pos rest <> None) ->
  forall q pos, testFrom r pos (q ++ rest) = true.
Proof.
  intros H. induction q as [|c q IH]; intros pos.
  - simpl. specialize (H pos). destruct rest; simpl;
      destruct (execAt r pos _); congruence.
  - simpl. destruct (execAt r pos (c :: q ++ rest)); auto.
Qed.

Lemma testFrom_sound r :
  forall rest pos, testFrom r pos rest = true ->
  exists q rest' x, rest = q ++ rest' /\ execAt r (pos + length q) rest' = Some x.
Proof.
  induction rest as [|c rest IH]; intros pos H.
  - simpl in H. destruct (execAt r pos []) eqn:E; [|discriminate].
    exists [], [], p. simpl. now rewrite Nat.add_0_r.
  - simpl in H. destruct (execAt r pos (c :: rest)) eqn:E.
    + exists [], (c :: rest), p. simpl. now rewrite Nat.add_0_r.
    + apply IH in H as (q & rest' & x & -> & H).
      exists (c :: q), rest', x. simpl. now rewrite Nat.add_succ_r.
Qed.

(** ** The test of line 74 *)

Lemma execAt_interpolatedRe_sound pos rest x :
  execAt interpolatedRe pos rest = Some x ->
  pos = 0 /\ Forall (fun c => dot c = true) rest /\
  exists a b c, rest = a ++ s_ "${" ++ b ++ s_ "}" ++ c.
Proof.
  unfold execAt, interpolatedRe. cbn [Seq Lit s_ list_ascii_of_string rmatch].
  destruct (pos =? 0) eqn:E0; [|discriminate]. apply Nat.eqb_eq in E0. subst pos. intros H.
  apply star_greedy_sound in H as (wa & r1 & -> & Ha & H).
  do 2 eat H.
  apply star_lazy_sound in H as (wb & r2 & -> & Hb & H).
  eat H.
  apply star_greedy_sound in H as (wc & r3 & -> & Hc & H).
  destruct r3; [|discriminate].
  repeat match goal with E : chr _ _ = true |- _ => apply chr_true in E; subst end.
  split; [reflexivity|]. split.
  - apply Forall_app. split; [exact Ha|].
    constructor; [reflexivity|]. constructor; [reflexivity|].
    apply Forall_app. split; [exact Hb|].
    constructor; [reflexivity|]. now rewrite app_nil_r.
  - exists wa, wb, wc. now rewrite app_nil_r.
Qed.

Lemma execAt_interpolatedRe_complete a b c :
  Forall (fun x => dot x = true) (a ++ s_ "${" ++ b ++ s_ "}" ++ c) ->
  execAt interpolatedRe 0 (a ++ s_ "${" ++ b ++ s_ "}" ++ c) <> None.
Proof.
  intros H. apply Forall_app in H as [Ha H].
  inversion H as [|x1 l1 _ H1]; subst. inversion H1 as [|x2 l2 _ H2]; subst.
  apply Forall_app in H2 as [Hb H3]. inversion H3 as [|x3 l3 _ Hc]; subst.
  unfold execAt, interpolatedRe. cbn [Seq Lit s_ list_ascii_of_string rmatch Nat.eqb].
  apply star_greedy_complete; [exact Ha|].
  cbn [app]. replace (chr "$" "$") with true by reflexivity.
  replace (chr "{" "{") with true by reflexivity.
  apply star_lazy_complete; [exact Hb|].
  cbn [app]. replace (chr "}" "}") with true by reflexivity.
  rewrite <- (app_nil_r c).
  apply star_greedy_complete; [exact Hc|]. discriminate.
Qed.

Lemma testFrom_interpolatedRe_later rest :
  forall pos, testFrom interpolatedRe (S pos) rest = false.
Proof.
  induction rest as [|c rest IH]; intros pos; simpl; auto.
Qed.

Lemma test_interpolatedRe_sound s :
  test interpolatedRe s = true ->
  Forall (fun c => dot c = true) s /\
  exists a b c, s = a ++ s_ "${" ++ b ++ s_ "}" ++ c.
Proof.
  intros H. unfold test in H.
  destruct (execAt interpolatedRe 0 s) eqn:E.
  - now apply execAt_interpolatedRe_sound in E as (_ & Hd & He).
  - destruct s as [|c s]; cbn [testFrom] in H; rewrite E in H; [discriminate|].
    now rewrite testFrom_interpolatedRe_later in H.
Qed.

Lemma test_interpolatedRe_complete a b c :
  Forall (fun x => dot x = true) (a ++ s_ "${" ++ b ++ s_ "}" ++ c) ->
  test interpolatedRe (a ++ s_ "${" ++ b ++ s_ "}" ++ c) = true.
Proof.
  intros Hd. pose proof (execAt_interpolatedRe_complete a b c Hd) as H.
  unfold test.
  destruct (a ++ s_ "${" ++ b ++ s_ "}" ++ c) as [|x l] eqn:E; cbn [testFrom];
    destruct (execAt interpolatedRe 0 _); congruence.
Qed.

(** X1.  Line 74.  A destination counts as interpolated exactly when it holds
    no line terminator and a [${] that is followed, anywhere later, by a
    closing brace. *)
Theorem interpolated_exactly_when (s : str) :
  test interpolatedRe s = true <->
  Forall (fun c => dot c = true) s /\
  exists a b c, s = a ++ s_ "${" ++ b ++ s_ "}" ++ c.
Proof.
  split.
  - apply test_interpolatedRe_sound.
  - intros (Hd & a & b & c & ->). now apply test_interpolatedRe_complete.
Qed.

(** ** The default filter *)

Lemma execAt_jsJsonEndRe_sound pos rest x :
  execAt jsJsonEndRe pos rest = Some x -> rest = s_ ".js" \/ rest = s_ ".json".
Proof.
  unfold execAt, jsJsonEndRe. cbn [Seq Lit s_ list_ascii_of_string rmatch].
  intros H. eat H.
  match type of H with
  | match ?a with Some _ => _ | None => _ end = _ => destruct a eqn:Ha
  end.
  - clear H. do 2 eat Ha. destruct rest; [|discriminate].
    repeat match goal with E : chr _ _ = true |- _ => apply chr_true in E; subst end.
    now left.
  - do 4 eat H. destruct rest; [|discriminate].
    repeat match goal with E : chr _ _ = true |- _ => apply chr_true in E; subst end.
    now right.
Qed.

Lemma execAt_jsJsonEndRe_js pos : execAt jsJsonEndRe pos (s_ ".js") <> None.
Proof. vm_compute. discriminate. Qed.

Lemma execAt_jsJsonEndRe_json pos : execAt jsJsonEndRe pos (s_ ".json") <> None.
Proof. vm_compute. discriminate. Qed.

Lemma test_jsJsonEndRe p :
  test jsJsonEndRe p = true <-> endsWith (s_ ".js") p \/ endsWith (s_ ".json") p.
Proof.
  split.
  - intros H. apply testFrom_sound in H as (q & rest' & x & -> & H).
    apply execAt_jsJsonEndRe_sound in H as [->| ->]; [left|right]; now exists q.
  - intros [[q ->]|[q ->]]; apply testFrom_app.
    + apply execAt_jsJsonEndRe_js.
    + apply execAt_jsJsonEndRe_json.
Qed.

(** ** The glob pattern of line 76 *)

Lemma replaceFrom_app_noMatch global r tmpl s pre rest :
  (forall u v pos, pre = u ++ v -> v <> [] -> execAt r pos (v ++ rest) = None) ->
  forall pos,
    replaceFrom global r tmpl s pos (pre ++ rest) 0 =
    pre ++ replaceFrom global r tmpl s (pos + length pre) rest 0.
Proof.
  induction pre as [|c pre IH]; intros H pos.
  - simpl. now rewrite Nat.add_0_r.
  - cbn [app replaceFrom].
    pose proof (H [] (c :: pre) pos eq_refl) as H0. cbn [app] in H0.
    rewrite H0 by discriminate.
    rewrite IH.
    + cbn [length]. now rewrite Nat.add_succ_r.
    + intros u v pos' -> Hv. apply (H (c :: u) v pos'); auto.
Qed.

Lemma execAt_markerRe_sound pos rest x :
  execAt markerRe pos rest = Some x -> exists t, rest = s_ "${" ++ t.
Proof.
  unfold execAt, markerRe. cbn [Seq Lit s_ list_ascii_of_string rmatch].
  intros H. do 2 eat H.
  repeat match goal with E : chr _ _ = true |- _ => apply chr_true in E; subst end.
  now exists rest.
Qed.

Lemma execAt_markerRe_complete pos b c :
  Forall (fun x => dot x = true) b -> ~ In "}" b ->
  execAt markerRe pos (s_ "${" ++ b ++ s_ "}" ++ c) =
  Some (pos + length (s_ "${" ++ b ++ s_ "}"), []).
Proof.
  intros Hb Hn.
  unfold execAt, markerRe. cbn [Seq Lit s_ list_ascii_of_string rmatch app].
  replace (chr "$" "$") with true by reflexivity.
  replace (chr "{" "{") with true by reflexivity.
  erewrite star_lazy_shortest with (w := b); [reflexivity|exact Hb| |].
  - intros u d v ->. cbn [rmatch].
    replace (chr "}" d) with false; [reflexivity|].
    symmetry. apply chr_false. intros ->. apply Hn, in_or_app. right. now left.
  - cbn [rmatch app]. replace (chr "}" "}") with true by reflexivity.
    unfold accept. do 2 f_equal. cbn [length]. rewrite length_app. cbn [length]. lia.
Qed.

Lemma noMarkerStart_never s : noMarkerStart s -> neverMatches markerRe s.
Proof.
  intros H pos pre rest' ->.
  destruct (execAt markerRe pos rest') eqn:E; auto.
  apply execAt_markerRe_sound in E as (t & ->). exfalso. now apply (H pre t).
Qed.

(** Where text free of [${] is followed by a marker, no attempt succeeds
    before the marker. *)
Lemma markerRe_before_marker a rest u v pos :
  noMarkerStart a -> a = u ++ v -> v <> [] ->
  execAt markerRe pos (v ++ s_ "${" ++ rest) = None.
Proof.
  intros Ha -> Hv.
  destruct (execAt markerRe pos (v ++ s_ "${" ++ rest)) eqn:E; auto. exfalso.
  apply execAt_markerRe_sound in E as (t & E).
  destruct v as [|c1 [|c2 v]]; [congruence| |].
  - cbn in E. injection E as -> E _. discriminate E.
  - cbn in E. injection E as -> -> _. now apply (Ha u v).
Qed.

Lemma replaceFrom_markerRe_marker s a b c pos :
  noMarkerStart a -> Forall (fun x => dot x = true) b -> ~ In "}" b ->
  replaceFrom true markerRe (s_ "**/*") s pos (a ++ s_ "${" ++ b ++ s_ "}" ++ c) 0 =
  a ++ s_ "**/*" ++
  replaceFrom true markerRe (s_ "**/*") s
    (pos + length (a ++ s_ "${" ++ b ++ s_ "}")) c 0.
Proof.
  intros Ha Hb Hn.
  rewrite replaceFrom_app_noMatch.
  2:{ intros u v pos' E Hv. now apply markerRe_before_marker with (a := a) (u := u). }
  f_equal.
  set (marker := s_ "${" ++ b ++ s_ "}").
  assert (Hm : s_ "${" ++ b ++ s_ "}" ++ c = marker ++ c)
    by (unfold marker; now rewrite <- !app_assoc).
  rewrite Hm.
  assert (He : execAt markerRe (pos + length a) (marker ++ c) =
               Some (pos + length a + length marker, [])).
  { rewrite <- Hm. now apply execAt_markerRe_complete. }
  destruct marker as [|c0 w] eqn:Em; [discriminate|].
  cbn [app replaceFrom]. cbn [app] in He. rewrite He.
  replace (pos + length a + length (c0 :: w) - (pos + length a))
    with (length (c0 :: w)) by lia.
  change (ngroups markerRe) with 0.
  rewrite getSubstitution_plain with (n := 4) by (auto; reflexivity).
  f_equal.
  replace (pos + length a + length (c0 :: w) =? pos + length a) with false
    by (symmetry; apply Nat.eqb_neq; cbn [length]; lia).
  cbn [length]. replace (S (length w) - 1) with (length w) by lia.
  rewrite replaceFrom_skip. f_equal.
  rewrite length_app. cbn [length]. lia.
Qed.

Lemma replaceFrom_markerRe_segments s tail :
  noMarkerStart tail ->
  forall segments pos,
    Forall (fun '(a, b) =>
              noMarkerStart a /\ Forall (fun x => dot x = true) b /\ ~ In "}" b)
      segments ->
    replaceFrom true markerRe (s_ "**/*") s pos (withMarkers segments tail) 0 =
    globPatternOf segments tail.
Proof.
  intros Ht. induction segments as [|[a b] segments IH]; intros pos H.
  - unfold withMarkers, globPatternOf. cbn [map concat app].
    apply replaceFrom_never. now apply noMarkerStart_never.
  - inversion H as [|x l Hx Hl]; subst. destruct Hx as (Ha & Hb & Hn).
    unfold withMarkers, globPatternOf. cbn [map concat].
    rewrite <- !app_assoc.
    rewrite replaceFrom_markerRe_marker by auto.
    do 2 f_equal. apply (IH _ Hl).
Qed.

(** X2.  Line 76.  In a destination made of text free of [${] and of markers
    [${...}] whose bodies hold no closing brace and no line terminator,
    every marker gives way to [**/*] and the text stays. *)
Theorem markers_become_globstars (segments : list (str * str)) (tail : str) :
  Forall (fun '(a, b) =>
            noMarkerStart a /\ Forall (fun x => dot x = true) b /\ ~ In "}" b)
    segments ->
  noMarkerStart tail ->
  replaceRe true markerRe (s_ "**/*") (withMarkers segments tail) =
  globPatternOf segments tail.
Proof.
  intros Hs Ht. unfold replaceRe. now apply replaceFrom_markerRe_segments.
Qed.

Lemma noMarkerStart_indexOf s : indexOf (s_ "${") s = None -> noMarkerStart s.
Proof. intros H u v. eapply indexOfFrom_none; eauto. Qed.

Lemma markers_become_globstars_witness :
  replaceRe true markerRe (s_ "**/*") (s_ "./${dir}/mod-${name}.js") =
  s_ "./**/*/mod-**/*.js".
Proof.
  change (s_ "./${dir}/mod-${name}.js")
    with (withMarkers [(s_ "./", s_ "dir"); (s_ "/mod-", s_ "name")] (s_ ".js")).
  rewrite markers_become_globstars.
  - reflexivity.
  - repeat constructor; try (apply noMarkerStart_indexOf; reflexivity);
      intros H; repeat (destruct H as [H|H]; [discriminate H|]); exact H.
  - apply noMarkerStart_indexOf. reflexivity.
Defined.

(** X3.  Lines 17 to 24.  The plugin a valid configuration gives registers one
    hook and keeps the hooks of the build.  The hook starts with an empty
    cache, its callback runs with the configured loader, [js] without one,
    as the default, and its filter is the configured one; without one it
    accepts exactly the paths that end in [.js] or [.json]. *)
Theorem default_filter_is_js_or_json
  (Path : PathApi) (FastGlob : str -> str -> promise (list str))
  (readFile : str -> promise str) (config : DynamicImportConfig) (plugin : Plugin) :
  dynamicImport Path FastGlob readFile config = Returned plugin ->
  exists hook,
    (forall build, setup plugin build = build ++ [hook]) /\
    hookCache hook = [] /\
    hookCallback hook =
      onLoad Path FastGlob readFile config
        (match loader config with Some l => l | None => s_ "js" end) /\
    (forall f, filter config = Some f -> hookFilter hook = f) /\
    (filter config = None ->
     forall p, test (hookFilter hook) p = true <->
               endsWith (s_ ".js") p \/ endsWith (s_ ".json") p).
Proof.
  unfold dynamicImport. intros H.
  destruct (negb _ && negb _); [discriminate|]. injection H as <-.
  eexists. split; [intros build; reflexivity|].
  cbn [hookFilter hookCache hookCallback].
  split; [reflexivity|]. split; [reflexivity|]. split.
  - intros f ->. reflexivity.
  - intros ->. apply test_jsJsonEndRe.
Qed.

Lemma default_filter_is_js_or_json_witness :
  exists plugin hook,
    dynamicImport Posix.api globNothing (fun _ => Rejected) configTransformJs =
      Returned plugin /\
    setup plugin [] = [hook] /\
    test (hookFilter hook) (s_ "/src/data.json") = true /\
    test (hookFilter hook) (s_ "/src/main.ts") = false.
Proof.
  eexists.
  destruct (@default_filter_is_js_or_json Posix.api globNothing (fun _ => Rejected)
              configTransformJs _ eq_refl) as (hook & Hs & _ & _ & _ & Hf).
  exists hook. split; [reflexivity|]. split; [apply (Hs [])|].
  specialize (Hf eq_refl). split.
  - apply Hf. right. now exists (s_ "/src/data").
  - destruct (test (hookFilter hook) (s_ "/src/main.ts")) eqn:E; [|reflexivity].
    apply Hf in E as [[q E]|[q E]]; exfalso;
      apply (f_equal (@rev ascii)) in E; rewrite rev_app_distr in E; discriminate E.
Defined.

(** ** Trimming *)

Lemma In_trimStart c s : In c (trimStart s) -> In c s.
Proof.
  induction s as [|d s IH]; simpl; auto.
  destruct (isSpace d); simpl; intuition.
Qed.

Lemma In_trim c s : In c (trim s) -> In c s.
Proof.
  unfold trim, trimEnd. intros H.
  apply In_trimStart. apply in_rev. apply In_trimStart. now apply in_rev in H.
Qed.

Lemma trimStart_head_nospace s :
  match trimStart s with c :: _ => isSpace c = false | [] => True end.
Proof.
  induction s as [|d s IH]; simpl; auto.
  destruct (isSpace d) eqn:E; simpl; auto.
Qed.

Lemma trimStart_fix s :
  match s with c :: _ => isSpace c = false | [] => True end -> trimStart s = s.
Proof. destruct s as [|c s]; simpl; auto. now intros ->. Qed.

Lemma trimStart_idem s : trimStart (trimStart s) = trimStart s.
Proof. apply trimStart_fix, trimStart_head_nospace. Qed.

Lemma trimStart_snoc_nospace c :
  isSpace c = false -> forall l, exists u, trimStart (l ++ [c]) = u ++ [c].
Proof.
  intros Hc. induction l as [|d l IH]; simpl.
  - rewrite Hc. now exists [].
  - destruct (isSpace d); auto. now exists (d :: l).
Qed.

Lemma trimEnd_head_nospace s :
  match s with c :: _ => isSpace c = false | [] => True end ->
  match trimEnd s with c :: _ => isSpace c = false | [] => True end.
Proof.
  destruct s as [|c s]; [intros _; exact I|]. intros Hc.
  unfold trimEnd. cbn [rev].
  destruct (@trimStart_snoc_nospace c Hc (rev s)) as [u ->].
  rewrite rev_app_distr. exact Hc.
Qed.

Lemma trim_idem s : trim (trim s) = trim s.
Proof.
  unfold trim.
  rewrite (@trimStart_fix (trimEnd (trimStart s))).
  - unfold trimEnd. now rewrite rev_involutive, trimStart_idem.
  - apply trimEnd_head_nospace, trimStart_head_nospace.
Qed.

(** ** The module map and the static imports *)

Lemma firstSeenFrom_incl norm :
  forall paths seen q, In q (firstSeenFrom norm seen paths) -> In q paths.
Proof.
  induction paths as [|p paths IH]; intros seen q; simpl; auto.
  destruct (existsb _ seen); simpl; eauto. intros [H|H]; eauto.
Qed.

Lemma map_get_key_In {V} (k : str) (v : V) m : map_get k m = Some v -> In k (map fst m).
Proof. intros H. apply map_get_In. unfold map_has. now rewrite H. Qed.

(** ** The loop when no match meets a condition *)

Lemma classify_idle (Path : PathApi) (resolveDir : str) (config : DynamicImportConfig)
  (file : str) :
  (forall m, In m (matchAll importRe file) ->
     rewriteCondition Path config (destinationOf (group 1 m))
       (extname Path (destinationOf (group 1 m))) = false /\
     queueCondition config (destinationOf (group 1 m))
       (extname Path (destinationOf (group 1 m))) = false) ->
  classify Path file resolveDir config =
  {| ls_fileContents := file; ls_importsToReplace := []; ls_globImports := [] |}.
Proof.
  intros H. unfold classify.
  apply (@fold_left_invariant _ _ (processMatch Path resolveDir config)
           (fun st => st = {| ls_fileContents := file; ls_importsToReplace := [];
                              ls_globImports := [] |})); auto.
  intros st m Hin ->. destruct (H m Hin) as [Hr Hq].
  unfold processMatch. now rewrite Hr, Hq.
Qed.

Lemma classify_bounds (Path : PathApi) (resolveDir : str) (config : DynamicImportConfig)
  (file : str) :
  length (ls_globImports (classify Path file resolveDir config)) <=
  length (matchAll importRe file).
Proof.
  assert (H : forall l st,
             length (ls_globImports (fold_left (processMatch Path resolveDir config) l st)) <=
             length (ls_globImports st) + length l).
  { induction l as [|m l IH]; intros st; simpl; [lia|].
    specialize (IH (processMatch Path resolveDir config st m)).
    assert (length (ls_globImports (processMatch Path resolveDir config st m)) <=
            S (length (ls_globImports st))).
    { unfold processMatch. destruct (rewriteCondition _ _ _ _); simpl; [lia|].
      destruct (queueCondition _ _ _); simpl; [|lia].
      rewrite length_app. simpl. lia. }
    lia. }
  unfold classify. apply (H (matchAll importRe file)).
Qed.

(** X4.  Lines 50 to 75.  Whatever the argument of the call, its destination
    holds no backtick and neither starts nor ends with white space; so the
    path expression queued for a call is one template literal, a backtick
    at either end and none inside. *)
Theorem destination_is_trimmed_without_backtick
  (Path : PathApi) (resolveDir : str) (config : DynamicImportConfig) :
  (forall arg,
     ~ In "`" (destinationOf arg) /\ trim (destinationOf arg) = destinationOf arg) /\
  (forall file,
     Forall (fun imp =>
               exists d, pathString imp = s_ "`" ++ d ++ s_ "`" /\
                         ~ In "`" d /\ trim d = d)
       (ls_importsToReplace (classify Path file resolveDir config))).
Proof.
  assert (H : forall arg,
             ~ In "`" (destinationOf arg) /\ trim (destinationOf arg) = destinationOf arg).
  { intros arg. unfold destinationOf. cbv zeta. split.
    - intros H. apply In_trim in H. unfold replaceRe in H.
      rewrite replaceFrom_backtickRe in H. apply filter_In in H as [_ H].
      discriminate H.
    - apply trim_idem. }
  split; [exact H|]. intros file.
  destruct (classify_queue Path resolveDir config file) as [Hq _].
  eapply Forall_impl; [|exact Hq].
  intros imp (a & _ & _ & _ & Hp & _). exists (destinationOf a).
  split; [exact Hp|]. apply H.
Qed.

(** X5.  Lines 113 to 127.  No static import is left unused: the spelling
    imported as [_DynamicImportModule<i>] is one of the paths and is itself
    a key of the module map, bound to that identifier. *)
Theorem every_static_import_is_mapped
  (Path : PathApi) (resolveDir : str) (paths : list str) (i : nat) (q : str) :
  let d := dedupe Path resolveDir paths in
  nth_error (dedupedImportFilePaths d) i = Some q ->
  In q paths /\
  map_get q (moduleMap d) = Some (s_ "_DynamicImportModule" ++ dec i).
Proof.
  intros d Hi.
  destruct (dedupe_spec Path resolveDir paths) as (Hk & _ & Hn & Hs).
  fold d in Hk, Hs. rewrite Hk in Hi.
  assert (Hin : In q paths).
  { apply nth_error_In in Hi. unfold firstSeen in Hi.
    eapply firstSeenFrom_incl; eauto. }
  split; [exact Hin|].
  destruct (Hs q Hin) as (i' & q' & Hg & Hq' & Hnorm).
  assert (i' = i); [|subst i'; exact Hg].
  assert (Hlt : i' < length (map (normalizedIn Path resolveDir)
                               (firstSeen (normalizedIn Path resolveDir) paths))).
  { rewrite length_map. apply nth_error_Some. congruence. }
  apply (proj1 (NoDup_nth_error _) Hn i' i Hlt).
  rewrite !nth_error_map, Hi, Hq'. simpl. congruence.
Qed.

Lemma every_static_import_is_mapped_witness :
  let d := dedupe Posix.api (s_ "/d") [s_ "lib/a.js"; s_ "./lib/a.js"; s_ "lib/b.js"] in
  nth_error (dedupedImportFilePaths d) 1 = Some (s_ "lib/b.js") /\
  map_get (s_ "lib/b.js") (moduleMap d) = Some (s_ "_DynamicImportModule1").
Proof.
  intros d.
  assert (H : nth_error (dedupedImportFilePaths d) 1 = Some (s_ "lib/b.js"))
    by (vm_compute; reflexivity).
  split; [exact H|].
  exact (proj2 (@every_static_import_is_mapped Posix.api (s_ "/d")
                  [s_ "lib/a.js"; s_ "./lib/a.js"; s_ "lib/b.js"] 1 (s_ "lib/b.js") H)).
Defined.

(** X6.  Lines 112 to 120.  The module map has one entry for every distinct
    spelling among the paths and no other. *)
Theorem module_map_keys_are_the_spellings
  (Path : PathApi) (resolveDir : str) (paths : list str) :
  let keys := map fst (moduleMap (dedupe Path resolveDir paths)) in
  NoDup keys /\ forall k, In k keys <-> In k paths.
Proof.
  intros keys.
  destruct (dedupe_spec Path resolveDir paths) as (_ & Hm & _ & _).
  unfold keys. rewrite Hm. unfold distinct. split.
  - apply distinctFrom_NoDup.
  - intros k. split.
    + apply distinctFrom_incl.
    + intros H. destruct (distinctFrom_covers paths [] k H) as [[]|H']; exact H'.
Qed.

(** X7.  Lines 48 to 81.  When the destination of every [import(...)] match
    meets neither the condition of line 71 nor that of line 74, the text
    comes back as it is and the glob resolver is not called. *)
Theorem imports_meeting_no_condition_are_left_alone
  (Path : PathApi) (FastGlob : str -> str -> promise (list str))
  (file resolveDir : str) (config : DynamicImportConfig) :
  (forall m, In m (matchAll importRe file) ->
     rewriteCondition Path config (destinationOf (group 1 m))
       (extname Path (destinationOf (group 1 m))) = false /\
     queueCondition config (destinationOf (group 1 m))
       (extname Path (destinationOf (group 1 m))) = false) ->
  replaceImports Path FastGlob file resolveDir config = (Fulfilled file, noEffects).
Proof.
  intros H. unfold replaceImports. now rewrite (classify_idle Path resolveDir config file H).
Qed.

Lemma imports_meeting_no_condition_are_left_alone_witness :
  replaceImports Posix.api globFailing
    (s_ "const a = import('./a.js'); const b = import(name);") (s_ "/d")
    configTransformJs =
  (Fulfilled (s_ "const a = import('./a.js'); const b = import(name);"), noEffects).
Proof.
  apply imports_meeting_no_condition_are_left_alone.
  intros m Hm. vm_compute in Hm.
  destruct Hm as [<-|[<-|[]]]; vm_compute; split; reflexivity.
Defined.

Lemma promiseAll_rejected_inv {A} (ps : list (promise A)) :
  promiseAll ps = Rejected -> In Rejected ps.
Proof.
  induction ps as [|[a|] ps IH]; simpl; [discriminate| |auto].
  destruct (promiseAll ps); [discriminate|]. auto.
Qed.

Lemma replaceImports_effects
  (Path : PathApi) (FastGlob : str -> str -> promise (list str))
  (file resolveDir : str) (config : DynamicImportConfig) :
  let st := classify Path file resolveDir config in
  let eff := snd (replaceImports Path FastGlob file resolveDir config) in
  globCalls eff = map (fun g => (g, resolveDir)) (ls_globImports st) /\
  (consoleErrors eff = 1 <->
   In Rejected (map (fun g => FastGlob g resolveDir) (ls_globImports st))) /\
  consoleErrors eff <= 1.
Proof.
  intros st eff. unfold eff, replaceImports. fold st.
  destruct (ls_globImports st) as [|g gs] eqn:Eg.
  - simpl. repeat split; try lia; try discriminate; intros [].
  - cbn [length Nat.ltb Nat.leb]. unfold resolveGlobs.
    destruct (promiseAll (map (fun globImport => FastGlob globImport resolveDir) (g :: gs)))
      as [resolved|] eqn:Ep.
    + destruct (length (withExtensionless (concat resolved)) =? 0);
        cbn [snd globCalls consoleErrors];
        (split; [reflexivity|]); (split; [|lia]);
        (split; [discriminate|]); intros Hin;
        apply promiseAll_rejected in Hin; congruence.
    + cbn [withExtensionless List.filter map app length Nat.eqb snd globCalls consoleErrors].
      split; [reflexivity|]. split; [|lia]. split; [|reflexivity].
      intros _. now apply promiseAll_rejected_inv.
Qed.

(** X8.  Lines 81 to 92.  The glob resolver is called once for every queued
    call, in the order of the text and with the directory of the file as
    [cwd], hence at most once for every [import(...)] match; at most one
    error is logged, and one is logged exactly when a resolution is
    rejected. *)
Theorem one_glob_call_per_queued_import
  (Path : PathApi) (FastGlob : str -> str -> promise (list str))
  (file resolveDir : str) (config : DynamicImportConfig) :
  let st := classify Path file resolveDir config in
  let eff := snd (replaceImports Path FastGlob file resolveDir config) in
  globCalls eff = map (fun g => (g, resolveDir)) (ls_globImports st) /\
  length (globCalls eff) = length (ls_importsToReplace st) /\
  length (globCalls eff) <= length (matchAll importRe file) /\
  (consoleErrors eff = 1 <->
   In Rejected (map (fun g => FastGlob g resolveDir) (ls_globImports st))) /\
  consoleErrors eff <= 1.
Proof.
  intros st eff.
  destruct (replaceImports_effects Path FastGlob file resolveDir config)
    as (Hc & He & Hl).
  fold st in Hc, He. fold eff in Hc, He, Hl.
  destruct (classify_queue Path resolveDir config file) as [_ Hlen]. fold st in Hlen.
  pose proof (classify_bounds Path resolveDir config file) as Hb. fold st in Hb.
  rewrite Hc, length_map. repeat split; auto; try lia; apply He.
Qed.

(** ** The cache over a sequence of calls *)

Section CacheCalls.

Variable Path : PathApi.
Variable config : DynamicImportConfig.
Variable defaultLoader : str.

Local Abbreviation call := (loadCall Path config defaultLoader).

(** What a call does to the cache: nothing, or one [set] at its path. *)
Lemma loadCall_cache cache c :
  snd (fst (call cache c)) = cache \/
  exists text contents eff,
    lc_read c = Fulfilled text /\
    replaceImports Path (lc_glob c) text (dirname Path (lc_path c)) config =
      (Fulfilled contents, eff) /\
    snd (fst (call cache c)) =
    map_set (lc_path c)
      {| fileContents := text;
         output := {| contents := contents;
                      resultLoader := loaderFor Path defaultLoader (lc_path c) |} |}
      cache.
Proof.
  unfold loadCall, onLoad.
  destruct (lc_read c) as [text|]; [|now left].
  destruct (match map_get (lc_path c) cache with
            | Some v => negb (str_eqb (fileContents v) text)
            | None => true
            end).
  - destruct (replaceImports Path (lc_glob c) text (dirname Path (lc_path c)) config)
      as [[contents|] eff] eqn:E; [|now left].
    right. exists text, contents, eff. repeat split; auto.
  - left. destruct (map_get (lc_path c) cache); reflexivity.
Qed.

Lemma cacheAfter_snoc calls c :
  cacheAfter Path config defaultLoader (calls ++ [c]) =
  snd (fst (call (cacheAfter Path config defaultLoader calls) c)).
Proof. unfold cacheAfter. now rewrite fold_left_app. Qed.

(** A property of the entries that every call of a kind establishes holds
    after any sequence of calls of that kind. *)
Lemma cacheAfter_invariant (Q : LoadCall -> Prop) (I : str -> CacheValue -> Prop) :
  (forall c text contents eff,
      Q c -> lc_read c = Fulfilled text ->
      replaceImports Path (lc_glob c) text (dirname Path (lc_path c)) config =
        (Fulfilled contents, eff) ->
      I (lc_path c)
        {| fileContents := text;
           output := {| contents := contents;
                        resultLoader := loaderFor Path defaultLoader (lc_path c) |} |}) ->
  forall calls, Forall Q calls ->
    forall p v, map_get p (cacheAfter Path config defaultLoader calls) = Some v -> I p v.
Proof.
  intros Hstep calls.
  induction calls as [|c calls IH] using rev_ind; intros HQ p v Hg.
  - discriminate Hg.
  - apply Forall_app in HQ as [HQ Hc]. inversion Hc as [|x l Hqc _]; subst.
    rewrite cacheAfter_snoc in Hg.
    destruct (loadCall_cache (cacheAfter Path config defaultLoader calls) c)
      as [E|(text & contents & eff & Hr & Hrep & E)];
      rewrite E in Hg; [now apply IH|].
    destruct (list_eq_dec ascii_dec p (lc_path c)) as [->|Hne].
    + rewrite map_get_set_same in Hg. injection Hg as <-.
      now apply (Hstep c text contents eff).
    + rewrite map_get_set_other in Hg by auto. now apply IH.
Qed.

(** The keys of the cache. *)
Lemma map_set_keys {V} (k : str) (v : V) m :
  map fst (map_set k v m) = map fst m \/
  (~ In k (map fst m) /\ map fst (map_set k v m) = map fst m ++ [k]).
Proof.
  destruct (map_has k m) eqn:E.
  - left. now apply map_set_keys_present.
  - right. split.
    + intros H. apply map_get_In in H. congruence.
    + rewrite (@map_set_fresh _ k v m E), map_app. reflexivity.
Qed.

Lemma map_set_key_In {V} (k : str) (v : V) m : In k (map fst (map_set k v m)).
Proof.
  apply map_get_In. unfold map_has. now rewrite map_get_set_same.
Qed.

(** A call whose read succeeds leaves an entry at its path. *)
Lemma loadCall_key cache c text :
  lc_read c = Fulfilled text -> In (lc_path c) (map fst (snd (fst (call cache c)))).
Proof.
  intros Hr. unfold loadCall, onLoad. rewrite Hr.
  destruct (map_get (lc_path c) cache) as [v|] eqn:Eg.
  - destruct (negb (str_eqb (fileContents v) text)).
    + destruct (replaceImports_fulfilled Path (lc_glob c) text
                  (dirname Path (lc_path c)) config) as (t & eff & ->).
      apply map_set_key_In.
    + cbn [fst snd]. now apply map_get_key_In with (v := v).
  - destruct (replaceImports_fulfilled Path (lc_glob c) text
                (dirname Path (lc_path c)) config) as (t & eff & ->).
    apply map_set_key_In.
Qed.

End CacheCalls.

(** X9.  Lines 26 to 37.  Whatever was loaded before, a load whose read
    succeeds returns a result, and the loader of the result is [json] for a
    path with the extension [.json] and the default loader for any other
    path, whether the result comes from the cache or not. *)
Theorem loader_follows_the_extension
  (Path : PathApi) (config : DynamicImportConfig) (defaultLoader : str)
  (calls : list LoadCall) (c : LoadCall) (text : str) :
  lc_read c = Fulfilled text ->
  exists out,
    fst (fst (loadCall Path config defaultLoader
                (cacheAfter Path config defaultLoader calls) c)) = Fulfilled out /\
    resultLoader out =
      if str_eqb (extname Path (lc_path c)) (s_ ".json") then s_ "json"
      else defaultLoader.
Proof.
  intros Hr.
  assert (Hinv : forall p v,
             map_get p (cacheAfter Path config defaultLoader calls) = Some v ->
             resultLoader (output v) = loaderFor Path defaultLoader p).
  { apply cacheAfter_invariant with (Q := fun _ => True).
    - intros; reflexivity.
    - apply Forall_forall. auto. }
  unfold loadCall, onLoad. rewrite Hr.
  destruct (replaceImports_fulfilled Path (lc_glob c) text
              (dirname Path (lc_path c)) config) as (t & eff & Hrep).
  destruct (map_get (lc_path c) (cacheAfter Path config defaultLoader calls))
    as [v|] eqn:Eg.
  - destruct (negb (str_eqb (fileContents v) text)).
    + rewrite Hrep. eexists. split; reflexivity.
    + exists (output v). split; [reflexivity|]. apply (Hinv _ _ Eg).
  - rewrite Hrep. eexists. split; reflexivity.
Qed.

Lemma loader_follows_the_extension_witness :
  let first := {| lc_path := s_ "/d/data.json"; lc_read := Fulfilled (s_ "{}");
                  lc_glob := globNothing |} in
  exists out,
    fst (fst (loadCall Posix.api configTransformJs (s_ "js")
                (cacheAfter Posix.api configTransformJs (s_ "js") [first]) first)) =
      Fulfilled out /\
    resultLoader out = s_ "json".
Proof.
  intros first.
  destruct (@loader_follows_the_extension Posix.api configTransformJs (s_ "js")
              [first] first (s_ "{}") eq_refl) as (out & Ho & Hl).
  exists out. split; [exact Ho|]. rewrite Hl. reflexivity.
Defined.

(** X10.  Lines 29 to 37.  As long as the glob resolver answers the same, the
    cache is not observable in the results: after any sequence of loads, a
    load returns what it returns on an empty cache. *)
Theorem cache_is_transparent_for_a_stable_resolver
  (Path : PathApi) (FastGlob : str -> str -> promise (list str))
  (config : DynamicImportConfig) (defaultLoader : str)
  (calls : list LoadCall) (c : LoadCall) :
  Forall (fun c' => lc_glob c' = FastGlob) calls -> lc_glob c = FastGlob ->
  fst (fst (loadCall Path config defaultLoader
              (cacheAfter Path config defaultLoader calls) c)) =
  fst (fst (loadCall Path config defaultLoader [] c)).
Proof.
  intros Hcalls Hc.
  assert (Hinv : forall p v,
             map_get p (cacheAfter Path config defaultLoader calls) = Some v ->
             exists eff,
               replaceImports Path FastGlob (fileContents v) (dirname Path p) config =
                 (Fulfilled (contents (output v)), eff) /\
               resultLoader (output v) = loaderFor Path defaultLoader p).
  { apply cacheAfter_invariant with (Q := fun c' => lc_glob c' = FastGlob);
      [|exact Hcalls].
    intros c' text contents eff Hq Hr Hrep. exists eff. rewrite <- Hq. now split. }
  unfold loadCall, onLoad. rewrite Hc.
  destruct (lc_read c) as [text|]; [|reflexivity].
  cbn [map_get negb].
  destruct (map_get (lc_path c) (cacheAfter Path config defaultLoader calls))
    as [v|] eqn:Eg.
  - destruct (str_eqb (fileContents v) text) eqn:Et; cbn [negb].
    + apply str_eqb_eq in Et. subst text.
      destruct (Hinv _ _ Eg) as (eff & -> & Hl).
      cbn [fst output]. f_equal. destruct v as [f [ct ld]]. cbn in *.
      unfold loaderFor in Hl. now rewrite Hl.
    + destruct (replaceImports Path FastGlob text (dirname Path (lc_path c)) config)
        as [[t|] eff]; reflexivity.
  - destruct (replaceImports Path FastGlob text (dirname Path (lc_path c)) config)
      as [[t|] eff]; reflexivity.
Qed.

Lemma cache_is_transparent_for_a_stable_resolver_witness :
  let load := {| lc_path := s_ "/d/main.js";
                 lc_read := Fulfilled (s_ "const m = import(`./mod-${x}.js`);");
                 lc_glob := globTwoModules |} in
  fst (fst (loadCall Posix.api configTransformJs (s_ "js")
              (cacheAfter Posix.api configTransformJs (s_ "js") [load; load]) load)) =
  fst (fst (loadCall Posix.api configTransformJs (s_ "js") [] load)).
Proof.
  intros load.
  apply cache_is_transparent_for_a_stable_resolver with (FastGlob := globTwoModules).
  - repeat constructor.
  - reflexivity.
Defined.

(** X11.  Lines 22 to 36.  The cache holds one entry for every path whose read
    has succeeded in a call, and nothing else. *)
Theorem cache_has_one_entry_per_loaded_path
  (Path : PathApi) (config : DynamicImportConfig) (defaultLoader : str)
  (calls : list LoadCall) :
  let keys := map fst (cacheAfter Path config defaultLoader calls) in
  NoDup keys /\
  forall p, In p keys <->
            exists c text, In c calls /\ lc_path c = p /\ lc_read c = Fulfilled text.
Proof.
  cbv zeta.
  induction calls as [|c calls [IHn IHi]] using rev_ind.
  - split; [constructor|]. intros p. split; [intros []|]. now intros (c & text & [] & _).
  - rewrite cacheAfter_snoc.
    set (cache := cacheAfter Path config defaultLoader calls) in *.
    assert (Hnew : forall text, lc_read c = Fulfilled text ->
                     In (lc_path c) (map fst (snd (fst (loadCall Path config defaultLoader cache c)))))
      by (intros text; apply loadCall_key).
    destruct (loadCall_cache Path config defaultLoader cache c)
      as [E|(text & contents & eff & Hr & Hrep & E)].
    + rewrite E in *. split; [exact IHn|]. intros p. split.
      * intros Hp. apply IHi in Hp as (c0 & text & Hin & Hpath & Hr).
        exists c0, text. split; [apply in_or_app; now left|auto].
      * intros (c0 & text & Hin & Hpath & Hr).
        apply in_app_or in Hin as [Hin|[<-|[]]].
        -- apply IHi. now exists c0, text.
        -- subst p. now apply (Hnew text).
    + rewrite E in *.
      match goal with
      | |- context [map_set ?k ?v ?m] => destruct (map_set_keys k v m) as [Ek|[Hfresh Ek]]
      end; rewrite Ek in *.
      * split; [exact IHn|]. intros p. split.
        -- intros Hp. apply IHi in Hp as (c0 & text0 & Hin & Hpath & Hr0).
           exists c0, text0. split; [apply in_or_app; now left|auto].
        -- intros (c0 & text0 & Hin & Hpath & Hr0).
           apply in_app_or in Hin as [Hin|[<-|[]]].
           ++ apply IHi. now exists c0, text0.
           ++ subst p. now apply (Hnew text0).
      * split.
        -- apply NoDup_app; [exact IHn|repeat constructor; intros []|].
           intros x Hx [<-|[]]. contradiction.
        -- intros p. split.
           ++ intros Hp. apply in_app_or in Hp as [Hp|[<-|[]]].
              ** apply IHi in Hp as (c0 & text0 & Hin & Hpath & Hr0).
                 exists c0, text0. split; [apply in_or_app; now left|auto].
              ** exists c, text. split; [apply in_or_app; right; now left|auto].
           ++ intros (c0 & text0 & Hin & Hpath & Hr0).
              apply in_app_or in Hin as [Hin|[<-|[]]].
              ** apply in_or_app. left. apply IHi. now exists c0, text0.
              ** subst p. apply in_or_app. right. now left.
Qed.

(** X12.  Lines 25 to 33.  Every glob resolution of a load runs in the directory
    of the loaded file. *)
Theorem load_resolves_in_the_directory_of_the_file
  (Path : PathApi) (config : DynamicImportConfig) (defaultLoader : str)
  (cache : Cache) (c : LoadCall) :
  Forall (fun call => snd call = dirname Path (lc_path c))
    (globCalls (snd (loadCall Path config defaultLoader cache c))).
Proof.
  unfold loadCall, onLoad.
  destruct (lc_read c) as [text|]; [|constructor].
  destruct (match map_get (lc_path c) cache with
            | Some v => negb (str_eqb (fileContents v) text)
            | None => true
            end).
  - destruct (replaceImports_effects Path (lc_glob c) text (dirname Path (lc_path c)) config)
      as (Hc & _).
    destruct (replaceImports Path (lc_glob c) text (dirname Path (lc_path c)) config)
      as [[t|] eff]; cbn [snd] in *; rewrite Hc;
      apply Forall_forall; intros call Hin; apply in_map_iff in Hin as (g & <- & _);
      reflexivity.
  - destruct (map_get (lc_path c) cache); constructor.
Qed.

(** ** String concatenations (lines 53 to 62) *)

Lemma isSpace_facts c :
  isSpace c = true ->
  isQuote c = false /\ c <> "+" /\ c <> "*" /\ c <> "`" /\ c <> ")".
Proof.
  intros H. repeat split; try (intros ->; discriminate H).
  destruct (isQuote c) eqn:E; auto.
  unfold isQuote in E. apply orb_true_iff in E as [E|E];
    apply chr_true in E; subst; discriminate H.
Qed.

Lemma blankChar_facts c :
  blankChar c = true ->
  isSpace c = true /\ c <> LF /\ isQuote c = false /\ c <> "+" /\ c <> "*" /\
  c <> "`" /\ c <> ")".
Proof.
  unfold blankChar. intros H. apply andb_true_iff in H as [H1 H2].
  apply negb_true_iff, chr_false in H2.
  destruct (@isSpace_facts c H1) as (? & ? & ? & ? & ?). repeat split; auto.
Qed.

Lemma replaceFrom_skip_inert global r tmpl s pre rest :
  (forall c t pos, In c pre -> execAt r pos (c :: t) = None) ->
  forall pos,
    replaceFrom global r tmpl s pos (pre ++ rest) 0 =
    pre ++ replaceFrom global r tmpl s (pos + length pre) rest 0.
Proof.
  intros H. apply replaceFrom_app_noMatch.
  intros u v pos -> Hv. destruct v as [|c v]; [congruence|].
  cbn [app]. apply H. apply in_or_app. right. now left.
Qed.

Lemma replaceFrom_cons_noMatch global r tmpl s c rest pos :
  execAt r pos (c :: rest) = None ->
  replaceFrom global r tmpl s pos (c :: rest) 0 =
  c :: replaceFrom global r tmpl s (S pos) rest 0.
Proof. intros H. cbn [replaceFrom]. now rewrite H. Qed.

Lemma replaceFrom_nil_noMatch global r tmpl s pos :
  execAt r pos [] = None -> replaceFrom global r tmpl s pos [] 0 = [].
Proof. intros H. cbn [replaceFrom]. now rewrite H. Qed.

Lemma replaceFrom_all_inert global r tmpl s l :
  (forall c t pos, In c l -> execAt r pos (c :: t) = None) ->
  (forall pos, execAt r pos [] = None) ->
  forall pos, replaceFrom global r tmpl s pos l 0 = l.
Proof.
  intros H H0 pos.
  pose proof (@replaceFrom_skip_inert global r tmpl s l [] H pos) as E.
  rewrite app_nil_r in E. rewrite E, replaceFrom_nil_noMatch by auto.
  apply app_nil_r.
Qed.

(** A match of at least one unit, in a global replacement. *)
Lemma replaceFrom_match r tmpl s pos c w rest cs :
  execAt r pos (c :: w ++ rest) = Some (pos + S (length w), cs) ->
  replaceFrom true r tmpl s pos (c :: w ++ rest) 0 =
  getSubstitution (c :: w) s pos cs (ngroups r) tmpl ++
  replaceFrom true r tmpl s (pos + S (length w)) rest 0.
Proof.
  intros H. cbn [replaceFrom]. rewrite H.
  replace (pos + S (length w) - pos) with (S (length w)) by lia.
  replace (pos + S (length w) =? pos) with false
    by (symmetry; apply Nat.eqb_neq; lia).
  cbn [firstn]. rewrite firstn_app, Nat.sub_diag, firstn_all. cbn [firstn].
  rewrite app_nil_r. f_equal.
  replace (S (length w) - 1) with (length w) by lia.
  rewrite replaceFrom_skip. f_equal. lia.
Qed.

(** *** Line 54: a string, then a variable *)

Lemma strVarRe_not_quote pos c t :
  isQuote c = false -> execAt strVarRe pos (c :: t) = None.
Proof.
  intros H. unfold execAt, strVarRe. cbn [Seq rmatch]. now rewrite H.
Qed.

Lemma strVarRe_quote_stuck pos q t :
  match t with d :: _ => isSpace d = false /\ d <> "+" | [] => True end ->
  execAt strVarRe pos (q :: t) = None.
Proof.
  unfold execAt, strVarRe. cbn [Seq rmatch].
  destruct (isQuote q); [|reflexivity].
  destruct t as [|d t]; cbn [star_greedy rmatch]; [reflexivity|].
  intros [Hs Hp]. rewrite Hs. cbn [rmatch].
  now rewrite (proj2 (chr_false "+" d) Hp).
Qed.

Lemma execAt_strVarRe_match pos q ws1 ws2 c t :
  isQuote q = true ->
  Forall (fun x => isSpace x = true) ws1 ->
  Forall (fun x => isSpace x = true) ws2 ->
  notQuoteSpace c = true ->
  execAt strVarRe pos (q :: ws1 ++ "+" :: ws2 ++ c :: t) =
  Some (pos + S (length (ws1 ++ "+" :: ws2 ++ [c])),
        [(2, [c]); (1, q :: ws1 ++ "+" :: ws2)]).
Proof.
  intros Hq H1 H2 Hc.
  assert (Hcs : isSpace c = false).
  { unfold notQuoteSpace in Hc. apply negb_true_iff, orb_false_iff in Hc. tauto. }
  unfold execAt, strVarRe. cbn [Seq rmatch]. rewrite Hq.
  erewrite star_greedy_longest with (w := ws1); [reflexivity|exact H1| |reflexivity].
  cbn [rmatch]. replace (chr "+" "+") with true by reflexivity.
  erewrite star_greedy_longest with (w := ws2); [reflexivity|exact H2| |exact Hcs].
  cbn [rmatch]. rewrite Hc. unfold accept. f_equal. f_equal.
  - rewrite !length_app. cbn [length]. rewrite length_app. cbn [length]. lia.
  - f_equal.
    + f_equal.
      match goal with
      | |- firstn ?n _ = _ => replace n with 1 by lia
      end.
      reflexivity.
    + f_equal. f_equal.
      match goal with
      | |- firstn ?n _ = _ =>
          replace n with (length (q :: ws1 ++ "+" :: ws2)) by
            (cbn [length]; rewrite length_app; cbn [length]; lia)
      end.
      replace (q :: ws1 ++ "+" :: ws2 ++ c :: t)
        with ((q :: ws1 ++ "+" :: ws2) ++ c :: t)
        by (cbn [app]; now rewrite <- app_assoc).
      now rewrite firstn_app, Nat.sub_diag, firstn_all, app_nil_r.
Qed.

Lemma getSubstitution_strVar matched s pos c g :
  getSubstitution matched s pos [(2, [c]); (1, g)] 2 (s_ "${$2") = "$" :: "{" :: [c].
Proof. reflexivity. Qed.

Lemma execAt_strVarRe_nil pos : execAt strVarRe pos [] = None.
Proof. reflexivity. Qed.

Lemma quote_not_space_plus q : isQuote q = true -> isSpace q = false /\ q <> "+".
Proof.
  intros H. destruct (@isQuote_facts q H) as (? & _ & ? & _). now split.
Qed.

Lemma plain_not_space_plus c : plainPathChar c = true -> isSpace c = false /\ c <> "+".
Proof.
  intros H. destruct (@plainPathChar_facts c H) as (_ & ? & _ & ? & _). now split.
Qed.

(** Line 54 on [q1 s1 q2 + v R], [R] being [+ q3 s2 q4] with white space
    around the plus signs: the closing quote, the plus sign and the white
    space give way to [${]. *)
Lemma replaceRe_strVarRe q1 s1 q2 ws1 ws2 v ws3 ws4 q3 s2 q4 :
  isQuote q1 = true -> isQuote q2 = true -> isQuote q3 = true -> isQuote q4 = true ->
  (forall c, In c s1 -> plainPathChar c = true) ->
  (forall c, In c s2 -> plainPathChar c = true) ->
  (forall c, In c v -> plainPathChar c = true) -> v <> [] ->
  (forall c, In c ws1 -> isSpace c = true) ->
  (forall c, In c ws2 -> isSpace c = true) ->
  (forall c, In c ws3 -> isSpace c = true) ->
  (forall c, In c ws4 -> isSpace c = true) ->
  replaceRe true strVarRe (s_ "${$2")
    (q1 :: s1 ++ q2 :: ws1 ++ "+" :: ws2 ++ v ++ ws3 ++ "+" :: ws4 ++ q3 :: s2 ++ [q4]) =
  q1 :: s1 ++ s_ "${" ++ v ++ ws3 ++ "+" :: ws4 ++ q3 :: s2 ++ [q4].
Proof.
  intros Hq1 Hq2 Hq3 Hq4 Hs1 Hs2 Hv Hne H1 H2 H3 H4.
  destruct v as [|c v]; [congruence|].
  assert (Hc : notQuoteSpace c = true).
  { destruct (@plainPathChar_facts c (Hv c (or_introl eq_refl))) as (Hcq & Hcs & _).
    unfold notQuoteSpace. now rewrite Hcq, Hcs. }
  assert (Hplainq : forall x, plainPathChar x = true -> isQuote x = false)
    by (intros x Hx; now destruct (@plainPathChar_facts x Hx)).
  assert (Hspaceq : forall x, isSpace x = true -> isQuote x = false)
    by (intros x Hx; now destruct (@isSpace_facts x Hx)).
  unfold replaceRe.
  rewrite replaceFrom_cons_noMatch.
  2:{ apply strVarRe_quote_stuck. destruct s1 as [|d s1]; cbn [app].
      - now apply quote_not_space_plus.
      - apply plain_not_space_plus, Hs1. now left. }
  rewrite replaceFrom_skip_inert.
  2:{ intros d t pos Hd. apply strVarRe_not_quote. auto. }
  replace (q2 :: ws1 ++ "+" :: ws2 ++ (c :: v) ++ ws3 ++ "+" :: ws4 ++ q3 :: s2 ++ [q4])
    with (q2 :: (ws1 ++ "+" :: ws2 ++ [c]) ++
          (v ++ ws3 ++ "+" :: ws4 ++ q3 :: s2 ++ [q4]))
    by (cbn [app]; rewrite <- !app_assoc; cbn [app]; rewrite <- !app_assoc; reflexivity).
  rewrite replaceFrom_match
    with (cs := [(2, [c]); (1, q2 :: ws1 ++ "+" :: ws2)]).
  2:{ rewrite <- execAt_strVarRe_match with (t := v ++ ws3 ++ "+" :: ws4 ++ q3 :: s2 ++ [q4]);
        try (apply Forall_forall); auto.
      f_equal. cbn [app]. rewrite <- !app_assoc. cbn [app].
      rewrite <- !app_assoc. reflexivity. }
  change (ngroups strVarRe) with 2. rewrite getSubstitution_strVar.
  rewrite replaceFrom_skip_inert.
  2:{ intros d t pos Hd. apply strVarRe_not_quote, Hplainq, Hv. now right. }
  rewrite replaceFrom_skip_inert.
  2:{ intros d t pos Hd. apply strVarRe_not_quote. auto. }
  rewrite replaceFrom_cons_noMatch by (now apply strVarRe_not_quote).
  rewrite replaceFrom_skip_inert.
  2:{ intros d t pos Hd. apply strVarRe_not_quote. auto. }
  rewrite replaceFrom_cons_noMatch.
  2:{ apply strVarRe_quote_stuck. destruct s2 as [|d s2]; cbn [app].
      - now apply quote_not_space_plus.
      - apply plain_not_space_plus, Hs2. now left. }
  rewrite replaceFrom_skip_inert.
  2:{ intros d t pos Hd. apply strVarRe_not_quote. auto. }
  rewrite replaceFrom_cons_noMatch by (now apply strVarRe_quote_stuck).
  rewrite replaceFrom_nil_noMatch by reflexivity.
  cbn [app s_ list_ascii_of_string]. reflexivity.
Qed.

(** *** Line 55: a variable, then a string *)

Lemma varStrRe_quote_or_space pos c t :
  notQuoteSpace c = false -> execAt varStrRe pos (c :: t) = None.
Proof.
  intros H. unfold execAt, varStrRe. cbn [Seq rmatch]. now rewrite H.
Qed.

Lemma varStrRe_stuck pos c d t :
  isSpace d = false -> d <> "+" -> execAt varStrRe pos (c :: d :: t) = None.
Proof.
  intros Hs Hp. unfold execAt, varStrRe. cbn [Seq rmatch].
  destruct (notQuoteSpace c); [|reflexivity].
  cbn [star_greedy]. rewrite Hs. cbn [rmatch].
  now rewrite (proj2 (chr_false "+" d) Hp).
Qed.

Lemma execAt_varStrRe_nil pos : execAt varStrRe pos [] = None.
Proof. reflexivity. Qed.

Lemma execAt_varStrRe_match pos c ws3 ws4 q t :
  notQuoteSpace c = true ->
  Forall (fun x => isSpace x = true) ws3 ->
  Forall (fun x => isSpace x = true) ws4 ->
  isQuote q = true ->
  execAt varStrRe pos (c :: ws3 ++ "+" :: ws4 ++ q :: t) =
  Some (pos + S (length (ws3 ++ "+" :: ws4 ++ [q])),
        [(2, ws3 ++ "+" :: ws4 ++ [q]); (1, [c])]).
Proof.
  intros Hc H3 H4 Hq.
  destruct (@quote_not_space_plus q Hq) as [Hqs _].
  unfold execAt, varStrRe. cbn [Seq rmatch]. rewrite Hc.
  erewrite star_greedy_longest with (w := ws3); [reflexivity|exact H3| |reflexivity].
  cbn [rmatch]. replace (chr "+" "+") with true by reflexivity.
  erewrite star_greedy_longest with (w := ws4); [reflexivity|exact H4| |exact Hqs].
  cbn [rmatch]. rewrite Hq. unfold accept. f_equal. f_equal.
  - rewrite !length_app. cbn [length]. rewrite length_app. cbn [length]. lia.
  - f_equal.
    + f_equal.
      match goal with
      | |- firstn ?n _ = _ =>
          replace n with (length (ws3 ++ "+" :: ws4 ++ [q])) by
            (rewrite length_app; cbn [length]; rewrite length_app; cbn [length]; lia)
      end.
      replace (ws3 ++ "+" :: ws4 ++ q :: t) with ((ws3 ++ "+" :: ws4 ++ [q]) ++ t)
        by (rewrite <- ?app_assoc; cbn [app]; rewrite <- ?app_assoc; reflexivity).
      now rewrite firstn_app, Nat.sub_diag, firstn_all, app_nil_r.
    + f_equal. f_equal.
      match goal with
      | |- firstn ?n _ = _ => replace n with 1 by lia
      end.
      reflexivity.
Qed.

Lemma getSubstitution_varStr matched s pos c g :
  getSubstitution matched s pos [(2, g); (1, [c])] 2 (s_ "$1}") = c :: s_ "}".
Proof. reflexivity. Qed.

(** A run of units none of which is followed by white space or a plus
    sign. *)
Lemma replaceFrom_varStrRe_run tmpl s X d rest pos :
  (forall c, In c (X ++ [d]) -> isSpace c = false /\ c <> "+") ->
  replaceFrom true varStrRe tmpl s pos (X ++ d :: rest) 0 =
  X ++ replaceFrom true varStrRe tmpl s (pos + length X) (d :: rest) 0.
Proof.
  intros H. apply replaceFrom_app_noMatch.
  intros u v pos' -> Hv. destruct v as [|c [|c' v]]; [congruence| |].
  - cbn [app]. destruct (H d) as [Hs Hp]; [apply in_or_app; right; now left|].
    now apply varStrRe_stuck.
  - cbn [app]. destruct (H c') as [Hs Hp].
    { apply in_or_app. left. apply in_or_app. right. right. now left. }
    now apply varStrRe_stuck.
Qed.

Lemma replaceRe_varStrRe q1 s1 v ws3 ws4 q3 s2 q4 :
  isQuote q1 = true -> isQuote q3 = true -> isQuote q4 = true ->
  (forall c, In c s1 -> plainPathChar c = true) ->
  (forall c, In c s2 -> plainPathChar c = true) ->
  (forall c, In c v -> plainPathChar c = true) -> v <> [] ->
  (forall c, In c ws3 -> isSpace c = true) ->
  (forall c, In c ws4 -> isSpace c = true) ->
  replaceRe true varStrRe (s_ "$1}")
    (q1 :: s1 ++ s_ "${" ++ v ++ ws3 ++ "+" :: ws4 ++ q3 :: s2 ++ [q4]) =
  q1 :: s1 ++ s_ "${" ++ v ++ s_ "}" ++ s2 ++ [q4].
Proof.
  intros Hq1 Hq3 Hq4 Hs1 Hs2 Hv Hne H3 H4.
  destruct (exists_last Hne) as (vi & vl & ->).
  assert (Hvl : plainPathChar vl = true)
    by (apply Hv, in_or_app; right; now left).
  assert (Hc : notQuoteSpace vl = true).
  { destruct (@plainPathChar_facts vl Hvl) as (Hcq & Hcs & _).
    unfold notQuoteSpace. now rewrite Hcq, Hcs. }
  assert (Hnq : forall q, isQuote q = true -> notQuoteSpace q = false)
    by (intros q Hq; unfold notQuoteSpace; now rewrite Hq).
  unfold replaceRe.
  rewrite replaceFrom_cons_noMatch by (now apply varStrRe_quote_or_space, Hnq).
  replace (s1 ++ s_ "${" ++ (vi ++ [vl]) ++ ws3 ++ "+" :: ws4 ++ q3 :: s2 ++ [q4])
    with ((s1 ++ s_ "${" ++ vi) ++ vl :: ws3 ++ "+" :: ws4 ++ q3 :: s2 ++ [q4])
    by (rewrite <- ?app_assoc; cbn [app]; rewrite <- ?app_assoc; reflexivity).
  rewrite replaceFrom_varStrRe_run.
  2:{ intros c Hin. apply in_app_or in Hin as [Hin|[<-|[]]].
      - apply in_app_or in Hin as [Hin|Hin]; [now apply plain_not_space_plus, Hs1|].
        cbn [s_ list_ascii_of_string app] in Hin.
        destruct Hin as [<-|[<-|Hin]]; [split; [reflexivity|discriminate]..|].
        apply plain_not_space_plus, Hv, in_or_app. now left.
      - now apply plain_not_space_plus. }
  replace (vl :: ws3 ++ "+" :: ws4 ++ q3 :: s2 ++ [q4])
    with (vl :: (ws3 ++ "+" :: ws4 ++ [q3]) ++ (s2 ++ [q4]))
    by (rewrite <- ?app_assoc; cbn [app]; rewrite <- ?app_assoc; reflexivity).
  rewrite replaceFrom_match
    with (cs := [(2, ws3 ++ "+" :: ws4 ++ [q3]); (1, [vl])]).
  2:{ rewrite <- execAt_varStrRe_match with (t := s2 ++ [q4]);
        try (apply Forall_forall); auto.
      f_equal. rewrite <- ?app_assoc. cbn [app]. rewrite <- ?app_assoc. reflexivity. }
  change (ngroups varStrRe) with 2. rewrite getSubstitution_varStr.
  rewrite replaceFrom_varStrRe_run.
  2:{ intros c Hin. apply in_app_or in Hin as [Hin|[<-|[]]].
      - now apply plain_not_space_plus, Hs2.
      - now apply quote_not_space_plus. }
  rewrite replaceFrom_cons_noMatch by (now apply varStrRe_quote_or_space, Hnq).
  rewrite replaceFrom_nil_noMatch by reflexivity.
  cbn [app s_ list_ascii_of_string]. rewrite <- ?app_assoc. cbn [app]. reflexivity.
Qed.

(** *** Lines 56 to 65 on a quoted text without plus signs *)

Lemma template_of_quoted q1 q4 M :
  isQuote q1 = true -> isQuote q4 = true ->
  (forall c, In c M -> plainPathChar c = true) ->
  trim (replaceRe true backtickRe []
    (replaceRe true endStrRe (s_ "`")
    (replaceRe true endVarRe (s_ "$1}`")
    (replaceRe true beginStrRe (s_ "`")
    (replaceRe true beginVarRe (s_ "`${$2")
    (replaceRe true strStrRe []
    (replaceRe true varVarRe (s_ "$1}${$3") (q1 :: M ++ [q4])))))))) = M.
Proof.
  intros Hq1 Hq4 HM.
  assert (Hplus : ~ In "+" (q1 :: M ++ [q4])).
  { intros [H|H].
    - destruct (@quote_not_space_plus q1 Hq1) as [_ Hp]. now apply Hp.
    - apply in_app_or in H as [H|[H|[]]].
      + destruct (@plain_not_space_plus "+" (HM _ H)) as [_ Hp]. now apply Hp.
      + destruct (@quote_not_space_plus q4 Hq4) as [_ Hp]. now apply Hp. }
  rewrite (@replaceRe_never varVarRe true (s_ "$1}${$3") _
             (@neverMatches_without_plus varVarRe _ execAt_varVarRe_sound Hplus)).
  rewrite (@replaceRe_never strStrRe true [] _
             (@neverMatches_without_plus strStrRe _ execAt_strStrRe_sound Hplus)).
  rewrite replaceRe_beginVarRe, replaceRe_beginStrRe by auto.
  change ("`" :: M ++ [q4]) with (("`" :: M) ++ [q4]).
  unfold replaceRe.
  rewrite replaceFrom_endVarRe, replaceFrom_endStrRe by auto.
  rewrite replaceFrom_backtickRe.
  cbn [app List.filter]. replace (negb (chr "`" "`")) with false by reflexivity.
  rewrite filter_app. cbn [s_ list_ascii_of_string List.filter].
  replace (negb (chr "`" "`")) with false by reflexivity.
  rewrite app_nil_r, filter_all.
  - apply trim_nospace. apply Forall_forall. intros c Hc.
    now destruct (@plainPathChar_facts c (HM c Hc)) as (_ & Hs & _).
  - apply Forall_forall. intros c Hc.
    destruct (@plainPathChar_facts c (HM c Hc)) as (_ & _ & Hb & _).
    now apply negb_true_iff, chr_false.
Qed.

Lemma plainPathChar_marker c : In c (s_ "${") \/ In c (s_ "}") -> plainPathChar c = true.
Proof.
  cbn [s_ list_ascii_of_string In].
  intros [[<-|[<-|[]]]|[<-|[]]]; reflexivity.
Qed.

(** The destination of [q1 s1 q2 + v + q3 s2 q4]. *)
Lemma destinationOf_concatenation q1 s1 q2 ws1 ws2 v ws3 ws4 q3 s2 q4 :
  isQuote q1 = true -> isQuote q2 = true -> isQuote q3 = true -> isQuote q4 = true ->
  forallb plainPathChar s1 = true -> forallb plainPathChar s2 = true ->
  forallb plainPathChar v = true -> v <> [] ->
  forallb blankChar ws1 = true -> forallb blankChar ws2 = true ->
  forallb blankChar ws3 = true -> forallb blankChar ws4 = true ->
  destinationOf
    (q1 :: s1 ++ q2 :: ws1 ++ "+" :: ws2 ++ v ++ ws3 ++ "+" :: ws4 ++ q3 :: s2 ++ [q4]) =
  s1 ++ s_ "${" ++ v ++ s_ "}" ++ s2.
Proof.
  intros Hq1 Hq2 Hq3 Hq4 Hs1 Hs2 Hv Hne H1 H2 H3 H4.
  rewrite forallb_forall in Hs1, Hs2, Hv, H1, H2, H3, H4.
  assert (Hb : forall ws, (forall c, In c ws -> blankChar c = true) ->
                          forall c, In c ws -> isSpace c = true)
    by (intros ws H c Hc; now destruct (@blankChar_facts c (H c Hc))).
  set (P := fun c : ascii => c <> "*" /\ c <> LF).
  assert (Pq : forall q, isQuote q = true -> P q)
    by (intros q Hq; destruct (@isQuote_facts q Hq) as (_ & _ & _ & ? & ?); now split).
  assert (Pp : forall s, (forall c, In c s -> plainPathChar c = true) -> Forall P s).
  { intros s Hs. apply Forall_forall. intros c Hc.
    destruct (@plainPathChar_facts c (Hs c Hc)) as (_ & Hsp & _ & _ & Hst & _).
    split; auto. intros ->. now rewrite isSpace_LF in Hsp. }
  assert (Pb : forall s, (forall c, In c s -> blankChar c = true) -> Forall P s).
  { intros s Hs. apply Forall_forall. intros c Hc.
    destruct (@blankChar_facts c (Hs c Hc)) as (_ & ? & _ & _ & ? & _). now split. }
  assert (Pplus : P "+") by (split; discriminate).
  set (arg := q1 :: s1 ++ q2 :: ws1 ++ "+" :: ws2 ++ v ++ ws3 ++ "+" :: ws4 ++ q3 :: s2 ++ [q4]).
  assert (Hall : Forall P arg).
  { unfold arg.
    repeat first [ apply Forall_cons | apply Forall_app; split | apply Forall_nil ];
      auto. }
  unfold destinationOf.
  rewrite (@replaceRe_never commentRe true [] arg).
  2:{ apply neverMatches_commentRe; intros H;
      apply (proj1 (Forall_forall _ _) Hall) in H; destruct H as [Hx Hy]; congruence. }
  assert (Harg : arg =
                 q1 :: (s1 ++ q2 :: ws1 ++ "+" :: ws2 ++ v ++ ws3 ++ "+" :: ws4 ++ q3 :: s2)
                    ++ [q4]).
  { unfold arg. rewrite <- ?app_assoc. cbn [app]. rewrite <- ?app_assoc. cbn [app].
    rewrite <- ?app_assoc. cbn [app]. rewrite <- ?app_assoc. reflexivity. }
  rewrite Harg.
  rewrite !trim_delimited by (now apply quote_not_space_plus).
  rewrite <- Harg.
  replace (chr "`" q1) with false.
  2:{ symmetry. apply chr_false. now destruct (@isQuote_facts q1 Hq1) as (_ & ? & _). }
  pose proof (Hb _ H1) as H1s. pose proof (Hb _ H2) as H2s.
  pose proof (Hb _ H3) as H3s. pose proof (Hb _ H4) as H4s.
  unfold concatToTemplate, arg.
  rewrite replaceRe_strVarRe by assumption.
  rewrite replaceRe_varStrRe by assumption.
  replace (q1 :: s1 ++ s_ "${" ++ v ++ s_ "}" ++ s2 ++ [q4])
    with (q1 :: (s1 ++ s_ "${" ++ v ++ s_ "}" ++ s2) ++ [q4])
    by (rewrite <- ?app_assoc; cbn [app]; rewrite <- ?app_assoc; reflexivity).
  apply template_of_quoted; auto.
  intros c Hc.
  apply in_app_or in Hc as [Hc|Hc]; [auto|].
  apply in_app_or in Hc as [Hc|Hc]; [apply plainPathChar_marker; now left|].
  apply in_app_or in Hc as [Hc|Hc]; [auto|].
  apply in_app_or in Hc as [Hc|Hc]; [apply plainPathChar_marker; now right|auto].
Qed.

(** *** Lines 58 to 61 on texts that start or end with a variable *)

Lemma getSubstitution_beginVar matched s pos c :
  getSubstitution matched s pos [(2, [c]); (1, [])] 2 (s_ "`${$2") = s_ "`${" ++ [c].
Proof. reflexivity. Qed.

Lemma getSubstitution_endVar matched s pos c :
  getSubstitution matched s pos [(2, []); (1, [c])] 2 (s_ "$1}`") = c :: s_ "}`".
Proof. reflexivity. Qed.

(** Line 58 on a text that starts with something else than a quote: [`${]
    comes first. *)
Lemma replaceRe_beginVarRe_var c rest :
  notQuote c = true ->
  replaceRe true beginVarRe (s_ "`${$2") (c :: rest) = s_ "`${" ++ c :: rest.
Proof.
  intros Hc. unfold replaceRe. cbn [replaceFrom]. rewrite execAt_beginVarRe.
  cbn [Nat.eqb]. rewrite Hc. cbn [Nat.sub firstn Nat.eqb].
  change (ngroups beginVarRe) with 2. rewrite getSubstitution_beginVar.
  rewrite replaceFrom_noMatchFrom; [now rewrite <- app_assoc|].
  apply noMatchFrom_after_start. intros pos' rest' Hp.
  rewrite execAt_beginVarRe. destruct pos'; [congruence|reflexivity].
Qed.

(** Line 59 on a text that starts with something else than a quote:
    nothing to do. *)
Lemma replaceRe_beginStrRe_other tmpl c rest :
  isQuote c = false -> replaceRe true beginStrRe tmpl (c :: rest) = c :: rest.
Proof.
  intros Hc. unfold replaceRe. cbn [replaceFrom]. rewrite execAt_beginStrRe.
  cbn [Nat.eqb]. rewrite Hc.
  rewrite replaceFrom_noMatchFrom; [reflexivity|].
  apply noMatchFrom_after_start. intros pos' rest' Hp.
  rewrite execAt_beginStrRe. destruct pos'; [congruence|reflexivity].
Qed.

(** Line 60 on a text that ends with something else than a quote: [}`]
    comes last. *)
Lemma replaceFrom_endVarRe_var s c :
  notQuote c = true ->
  forall X pos,
    replaceFrom true endVarRe (s_ "$1}`") s pos (X ++ [c]) 0 = X ++ c :: s_ "}`".
Proof.
  intros Hc. induction X as [|x X IH]; intros pos.
  - cbn [app replaceFrom]. rewrite execAt_endVarRe, Hc.
    rewrite eqb_succ_self. replace (S pos - pos - 1) with 0 by lia.
    replace (S pos - pos) with 1 by lia.
    change (ngroups endVarRe) with 2. cbn [firstn]. rewrite getSubstitution_endVar.
    cbn [replaceFrom]. rewrite execAt_endVarRe. reflexivity.
  - cbn [app replaceFrom]. rewrite execAt_endVarRe.
    destruct (X ++ [c]) as [|d rest] eqn:E; [destruct X; discriminate|].
    now rewrite IH.
Qed.

(** Line 61 on a text that ends with something else than a quote: nothing
    to do. *)
Lemma replaceFrom_endStrRe_other tmpl s c :
  isQuote c = false ->
  forall X pos, replaceFrom true endStrRe tmpl s pos (X ++ [c]) 0 = X ++ [c].
Proof.
  intros Hc. induction X as [|x X IH]; intros pos.
  - cbn [app replaceFrom]. rewrite execAt_endStrRe, Hc.
    cbn [replaceFrom]. rewrite execAt_endStrRe. reflexivity.
  - cbn [app replaceFrom]. rewrite execAt_endStrRe.
    destruct (X ++ [c]) as [|d rest] eqn:E; [destruct X; discriminate|].
    now rewrite IH.
Qed.

Lemma plainPathChar_notQuote c : plainPathChar c = true -> notQuote c = true.
Proof.
  intros H. destruct (@plainPathChar_facts c H) as (Hq & _).
  unfold notQuote. now rewrite Hq.
Qed.

Lemma plainPathChar_notQuoteSpace c : plainPathChar c = true -> notQuoteSpace c = true.
Proof.
  intros H. destruct (@plainPathChar_facts c H) as (Hq & Hs & _).
  unfold notQuoteSpace. now rewrite Hq, Hs.
Qed.

Lemma filter_backtick_plain M :
  (forall c, In c M -> plainPathChar c = true) ->
  List.filter (fun c => negb (chr "`" c)) M = M.
Proof.
  intros HM. apply filter_all, Forall_forall. intros c Hc.
  destruct (@plainPathChar_facts c (HM c Hc)) as (_ & _ & Hb & _).
  now apply negb_true_iff, chr_false.
Qed.

Lemma trim_plain M : (forall c, In c M -> plainPathChar c = true) -> trim M = M.
Proof.
  intros HM. apply trim_nospace, Forall_forall. intros c Hc.
  now destruct (@plainPathChar_facts c (HM c Hc)) as (_ & Hs & _).
Qed.

(** The destination of [q1 s1 q2 + v]. *)
Lemma destinationOf_string_variable q1 s1 q2 ws1 ws2 v :
  isQuote q1 = true -> isQuote q2 = true ->
  forallb plainPathChar s1 = true -> forallb plainPathChar v = true -> v <> [] ->
  forallb blankChar ws1 = true -> forallb blankChar ws2 = true ->
  destinationOf (q1 :: s1 ++ q2 :: ws1 ++ "+" :: ws2 ++ v) = s1 ++ s_ "${" ++ v ++ s_ "}".
Proof.
  intros Hq1 Hq2 Hs1 Hv Hne H1 H2.
  rewrite forallb_forall in Hs1, Hv, H1, H2.
  assert (Hb : forall ws, (forall c, In c ws -> blankChar c = true) ->
                          forall c, In c ws -> isSpace c = true)
    by (intros ws H c Hc; now destruct (@blankChar_facts c (H c Hc))).
  pose proof (Hb _ H1) as H1s. pose proof (Hb _ H2) as H2s.
  set (P := fun c : ascii => c <> "*" /\ c <> LF).
  assert (Pq : forall q, isQuote q = true -> P q)
    by (intros q Hq; destruct (@isQuote_facts q Hq) as (_ & _ & _ & ? & ?); now split).
  assert (Pp : forall s, (forall c, In c s -> plainPathChar c = true) -> Forall P s).
  { intros s Hs. apply Forall_forall. intros c Hc.
    destruct (@plainPathChar_facts c (Hs c Hc)) as (_ & Hsp & _ & _ & Hst & _).
    split; auto. intros ->. now rewrite isSpace_LF in Hsp. }
  assert (Pb : forall s, (forall c, In c s -> blankChar c = true) -> Forall P s).
  { intros s Hs. apply Forall_forall. intros c Hc.
    destruct (@blankChar_facts c (Hs c Hc)) as (_ & ? & _ & _ & ? & _). now split. }
  assert (Pplus : P "+") by (split; discriminate).
  destruct (exists_last Hne) as (vi & vl & Ev).
  assert (Hvl : plainPathChar vl = true)
    by (apply Hv; rewrite Ev; apply in_or_app; right; now left).
  set (arg := q1 :: s1 ++ q2 :: ws1 ++ "+" :: ws2 ++ v).
  assert (Hall : Forall P arg).
  { unfold arg.
    repeat first [ apply Forall_cons | apply Forall_app; split | apply Forall_nil ];
      auto. }
  unfold destinationOf.
  rewrite (@replaceRe_never commentRe true [] arg).
  2:{ apply neverMatches_commentRe; intros H;
      apply (proj1 (Forall_forall _ _) Hall) in H; destruct H as [Hx Hy]; congruence. }
  assert (Harg : arg = q1 :: (s1 ++ q2 :: ws1 ++ "+" :: ws2 ++ vi) ++ [vl]).
  { unfold arg. rewrite Ev. rewrite <- ?app_assoc. cbn [app]. rewrite <- ?app_assoc.
    cbn [app]. rewrite <- ?app_assoc. reflexivity. }
  rewrite Harg.
  rewrite !trim_delimited
    by first [ now apply quote_not_space_plus | now apply plain_not_space_plus ].
  rewrite <- Harg.
  replace (chr "`" q1) with false.
  2:{ symmetry. apply chr_false. now destruct (@isQuote_facts q1 Hq1) as (_ & ? & _). }
  unfold concatToTemplate, arg.
  (* line 54 *)
  assert (E1 : replaceRe true strVarRe (s_ "${$2")
                 (q1 :: s1 ++ q2 :: ws1 ++ "+" :: ws2 ++ v) =
               q1 :: s1 ++ s_ "${" ++ v).
  { destruct v as [|c v]; [congruence|].
    assert (Hplainq : forall x, plainPathChar x = true -> isQuote x = false)
      by (intros x Hx; now destruct (@plainPathChar_facts x Hx)).
    unfold replaceRe.
    rewrite replaceFrom_cons_noMatch.
    2:{ apply strVarRe_quote_stuck. destruct s1 as [|d s1]; cbn [app].
        - now apply quote_not_space_plus.
        - apply plain_not_space_plus, Hs1. now left. }
    rewrite replaceFrom_skip_inert.
    2:{ intros d t pos Hd. apply strVarRe_not_quote. auto. }
    replace (q2 :: ws1 ++ "+" :: ws2 ++ c :: v)
      with (q2 :: (ws1 ++ "+" :: ws2 ++ [c]) ++ v)
      by (cbn [app]; rewrite <- ?app_assoc; cbn [app]; rewrite <- ?app_assoc; reflexivity).
    rewrite replaceFrom_match
      with (cs := [(2, [c]); (1, q2 :: ws1 ++ "+" :: ws2)]).
    2:{ rewrite <- execAt_strVarRe_match with (t := v);
          try (apply Forall_forall); auto.
        - f_equal. cbn [app]. rewrite <- ?app_assoc. cbn [app].
          rewrite <- ?app_assoc. reflexivity.
        - apply plainPathChar_notQuoteSpace, Hv. now left. }
    change (ngroups strVarRe) with 2. rewrite getSubstitution_strVar.
    rewrite replaceFrom_all_inert.
    2:{ intros d t pos Hd. apply strVarRe_not_quote, Hplainq, Hv. now right. }
    2:{ reflexivity. }
    cbn [app s_ list_ascii_of_string]. reflexivity. }
  rewrite E1.
  set (M := s1 ++ s_ "${" ++ v).
  assert (HM : forall c, In c M -> plainPathChar c = true).
  { intros c Hc. unfold M in Hc.
    apply in_app_or in Hc as [Hc|Hc]; [auto|].
    apply in_app_or in Hc as [Hc|Hc]; [apply plainPathChar_marker; now left|auto]. }
  assert (Hplus : ~ In "+" (q1 :: M)).
  { intros [H|H].
    - destruct (@quote_not_space_plus q1 Hq1) as [_ Hp]. now apply Hp.
    - destruct (@plain_not_space_plus "+" (HM _ H)) as [_ Hp]. now apply Hp. }
  rewrite (@replaceRe_never varStrRe true (s_ "$1}") _
             (@neverMatches_without_plus varStrRe _ execAt_varStrRe_sound Hplus)).
  rewrite (@replaceRe_never varVarRe true (s_ "$1}${$3") _
             (@neverMatches_without_plus varVarRe _ execAt_varVarRe_sound Hplus)).
  rewrite (@replaceRe_never strStrRe true [] _
             (@neverMatches_without_plus strStrRe _ execAt_strStrRe_sound Hplus)).
  rewrite replaceRe_beginVarRe, replaceRe_beginStrRe by auto.
  assert (EM : "`" :: M = ("`" :: s1 ++ s_ "${" ++ vi) ++ [vl]).
  { unfold M. rewrite Ev. cbn [app]. rewrite <- ?app_assoc. cbn [app].
    now rewrite <- ?app_assoc. }
  rewrite EM. unfold replaceRe.
  rewrite replaceFrom_endVarRe_var by now apply plainPathChar_notQuote.
  replace (("`" :: s1 ++ s_ "${" ++ vi) ++ vl :: s_ "}`")
    with (("`" :: M ++ s_ "}") ++ ["`"])
    by (unfold M; rewrite Ev; cbn [app]; rewrite <- ?app_assoc; cbn [app];
        rewrite <- ?app_assoc; reflexivity).
  rewrite replaceFrom_endStrRe_other by reflexivity.
  rewrite replaceFrom_backtickRe.
  cbn [app List.filter]. replace (negb (chr "`" "`")) with false by reflexivity.
  rewrite !filter_app. cbn [s_ list_ascii_of_string List.filter].
  replace (negb (chr "`" "`")) with false by reflexivity.
  replace (negb (chr "`" "}")) with true by reflexivity.
  rewrite app_nil_r, filter_backtick_plain by exact HM.
  unfold M. rewrite <- !app_assoc.
  apply trim_plain. intros c Hc.
  apply in_app_or in Hc as [Hc|Hc]; [auto|].
  apply in_app_or in Hc as [Hc|Hc]; [apply plainPathChar_marker; now left|].
  apply in_app_or in Hc as [Hc|Hc]; [auto|apply plainPathChar_marker; now right].
Qed.

(** The destination of [v + q3 s2 q4]. *)
Lemma destinationOf_variable_string v ws3 ws4 q3 s2 q4 :
  isQuote q3 = true -> isQuote q4 = true ->
  forallb plainPathChar s2 = true -> forallb plainPathChar v = true -> v <> [] ->
  forallb blankChar ws3 = true -> forallb blankChar ws4 = true ->
  destinationOf (v ++ ws3 ++ "+" :: ws4 ++ q3 :: s2 ++ [q4]) = s_ "${" ++ v ++ s_ "}" ++ s2.
Proof.
  intros Hq3 Hq4 Hs2 Hv Hne H3 H4.
  rewrite forallb_forall in Hs2, Hv, H3, H4.
  assert (Hb : forall ws, (forall c, In c ws -> blankChar c = true) ->
                          forall c, In c ws -> isSpace c = true)
    by (intros ws H c Hc; now destruct (@blankChar_facts c (H c Hc))).
  pose proof (Hb _ H3) as H3s. pose proof (Hb _ H4) as H4s.
  set (P := fun c : ascii => c <> "*" /\ c <> LF).
  assert (Pq : forall q, isQuote q = true -> P q)
    by (intros q Hq; destruct (@isQuote_facts q Hq) as (_ & _ & _ & ? & ?); now split).
  assert (Pp : forall s, (forall c, In c s -> plainPathChar c = true) -> Forall P s).
  { intros s Hs. apply Forall_forall. intros c Hc.
    destruct (@plainPathChar_facts c (Hs c Hc)) as (_ & Hsp & _ & _ & Hst & _).
    split; auto. intros ->. now rewrite isSpace_LF in Hsp. }
  assert (Pb : forall s, (forall c, In c s -> blankChar c = true) -> Forall P s).
  { intros s Hs. apply Forall_forall. intros c Hc.
    destruct (@blankChar_facts c (Hs c Hc)) as (_ & ? & _ & _ & ? & _). now split. }
  assert (Pplus : P "+") by (split; discriminate).
  assert (Hplainq : forall x, plainPathChar x = true -> isQuote x = false)
    by (intros x Hx; now destruct (@plainPathChar_facts x Hx)).
  assert (Hspaceq : forall x, isSpace x = true -> isQuote x = false)
    by (intros x Hx; now destruct (@isSpace_facts x Hx)).
  assert (Hnq : forall q, isQuote q = true -> notQuoteSpace q = false)
    by (intros q Hq; unfold notQuoteSpace; now rewrite Hq).
  destruct (exists_last Hne) as (vi & vl & Ev).
  assert (Hvl : plainPathChar vl = true)
    by (apply Hv; rewrite Ev; apply in_or_app; right; now left).
  destruct v as [|v0 v'] eqn:Ev0; [congruence|]. rewrite <- Ev0 in *.
  assert (Hv0 : plainPathChar v0 = true) by (apply Hv; rewrite Ev0; now left).
  set (arg := v ++ ws3 ++ "+" :: ws4 ++ q3 :: s2 ++ [q4]).
  assert (Hall : Forall P arg).
  { unfold arg.
    repeat first [ apply Forall_cons | apply Forall_app; split | apply Forall_nil ];
      auto. }
  unfold destinationOf.
  rewrite (@replaceRe_never commentRe true [] arg).
  2:{ apply neverMatches_commentRe; intros H;
      apply (proj1 (Forall_forall _ _) Hall) in H; destruct H as [Hx Hy]; congruence. }
  assert (Harg : arg = v0 :: (v' ++ ws3 ++ "+" :: ws4 ++ q3 :: s2) ++ [q4]).
  { unfold arg. rewrite Ev0. cbn [app]. rewrite <- ?app_assoc. cbn [app].
    rewrite <- ?app_assoc. cbn [app]. rewrite <- ?app_assoc. reflexivity. }
  rewrite Harg.
  rewrite !trim_delimited
    by first [ now apply quote_not_space_plus | now apply plain_not_space_plus ].
  rewrite <- Harg.
  replace (chr "`" v0) with false.
  2:{ symmetry. apply chr_false.
      now destruct (@plainPathChar_facts v0 Hv0) as (_ & _ & ? & _). }
  unfold concatToTemplate, arg.
  (* line 54 *)
  assert (E1 : replaceRe true strVarRe (s_ "${$2")
                 (v ++ ws3 ++ "+" :: ws4 ++ q3 :: s2 ++ [q4]) =
               v ++ ws3 ++ "+" :: ws4 ++ q3 :: s2 ++ [q4]).
  { unfold replaceRe.
    rewrite replaceFrom_skip_inert.
    2:{ intros d t pos Hd. apply strVarRe_not_quote. auto. }
    rewrite replaceFrom_skip_inert.
    2:{ intros d t pos Hd. apply strVarRe_not_quote. auto. }
    rewrite replaceFrom_cons_noMatch by (now apply strVarRe_not_quote).
    rewrite replaceFrom_skip_inert.
    2:{ intros d t pos Hd. apply strVarRe_not_quote. auto. }
    rewrite replaceFrom_cons_noMatch.
    2:{ apply strVarRe_quote_stuck. destruct s2 as [|d s2]; cbn [app].
        - now apply quote_not_space_plus.
        - apply plain_not_space_plus, Hs2. now left. }
    rewrite replaceFrom_skip_inert.
    2:{ intros d t pos Hd. apply strVarRe_not_quote. auto. }
    rewrite replaceFrom_cons_noMatch by (now apply strVarRe_quote_stuck).
    rewrite replaceFrom_nil_noMatch by reflexivity.
    reflexivity. }
  rewrite E1.
  (* line 55 *)
  assert (E2 : replaceRe true varStrRe (s_ "$1}")
                 (v ++ ws3 ++ "+" :: ws4 ++ q3 :: s2 ++ [q4]) =
               v ++ s_ "}" ++ s2 ++ [q4]).
  { unfold replaceRe. rewrite Ev.
    replace ((vi ++ [vl]) ++ ws3 ++ "+" :: ws4 ++ q3 :: s2 ++ [q4])
      with (vi ++ vl :: ws3 ++ "+" :: ws4 ++ q3 :: s2 ++ [q4])
      by (rewrite <- ?app_assoc; cbn [app]; rewrite <- ?app_assoc; reflexivity).
    rewrite replaceFrom_varStrRe_run.
    2:{ intros c Hin. apply plain_not_space_plus, Hv. now rewrite Ev. }
    replace (vl :: ws3 ++ "+" :: ws4 ++ q3 :: s2 ++ [q4])
      with (vl :: (ws3 ++ "+" :: ws4 ++ [q3]) ++ (s2 ++ [q4]))
      by (rewrite <- ?app_assoc; cbn [app]; rewrite <- ?app_assoc; reflexivity).
    rewrite replaceFrom_match
      with (cs := [(2, ws3 ++ "+" :: ws4 ++ [q3]); (1, [vl])]).
    2:{ rewrite <- execAt_varStrRe_match with (t := s2 ++ [q4]);
          try (apply Forall_forall); auto.
        - f_equal. rewrite <- ?app_assoc. cbn [app]. rewrite <- ?app_assoc. reflexivity.
        - now apply plainPathChar_notQuoteSpace. }
    change (ngroups varStrRe) with 2. rewrite getSubstitution_varStr.
    rewrite replaceFrom_varStrRe_run.
    2:{ intros c Hin. apply in_app_or in Hin as [Hin|[<-|[]]].
        - now apply plain_not_space_plus, Hs2.
        - now apply quote_not_space_plus. }
    rewrite replaceFrom_cons_noMatch by (now apply varStrRe_quote_or_space, Hnq).
    rewrite replaceFrom_nil_noMatch by reflexivity.
    cbn [app s_ list_ascii_of_string]. rewrite <- ?app_assoc. cbn [app]. reflexivity. }
  rewrite E2.
  set (M := v ++ s_ "}" ++ s2).
  assert (HM : forall c, In c M -> plainPathChar c = true).
  { intros c Hc. unfold M in Hc.
    apply in_app_or in Hc as [Hc|Hc]; [auto|].
    apply in_app_or in Hc as [Hc|Hc]; [apply plainPathChar_marker; now right|auto]. }
  replace (v ++ s_ "}" ++ s2 ++ [q4]) with (M ++ [q4])
    by (unfold M; now rewrite <- ?app_assoc).
  assert (Hplus : ~ In "+" (M ++ [q4])).
  { intros H. apply in_app_or in H as [H|[H|[]]].
    - destruct (@plain_not_space_plus "+" (HM _ H)) as [_ Hp]. now apply Hp.
    - destruct (@quote_not_space_plus q4 Hq4) as [_ Hp]. now apply Hp. }
  rewrite (@replaceRe_never varVarRe true (s_ "$1}${$3") _
             (@neverMatches_without_plus varVarRe _ execAt_varVarRe_sound Hplus)).
  rewrite (@replaceRe_never strStrRe true [] _
             (@neverMatches_without_plus strStrRe _ execAt_strStrRe_sound Hplus)).
  assert (EM : M ++ [q4] = v0 :: (v' ++ s_ "}" ++ s2) ++ [q4]).
  { unfold M. rewrite Ev0. cbn [app]. now rewrite <- ?app_assoc. }
  rewrite EM.
  rewrite replaceRe_beginVarRe_var by now apply plainPathChar_notQuote.
  cbn [app s_ list_ascii_of_string].
  rewrite replaceRe_beginStrRe_other by reflexivity.
  replace ("`" :: "$" :: "{" :: v0 :: (v' ++ "}" :: s2) ++ [q4])
    with ((s_ "`${" ++ M) ++ [q4])
    by (unfold M; rewrite Ev0; cbn [app s_ list_ascii_of_string];
        rewrite <- ?app_assoc; reflexivity).
  unfold replaceRe.
  rewrite replaceFrom_endVarRe, replaceFrom_endStrRe by auto.
  rewrite replaceFrom_backtickRe.
  rewrite !filter_app. cbn [s_ list_ascii_of_string List.filter].
  replace (negb (chr "`" "`")) with false by reflexivity.
  replace (negb (chr "`" "$")) with true by reflexivity.
  replace (negb (chr "`" "{")) with true by reflexivity.
  rewrite app_nil_r, filter_backtick_plain by exact HM.
  unfold M. cbn [app].
  change ("$" :: "{" :: v ++ "}" :: s2) with (s_ "${" ++ v ++ s_ "}" ++ s2).
  apply trim_plain. intros c Hc.
  cbn [app s_ list_ascii_of_string In] in Hc.
  destruct Hc as [<-|[<-|Hc]]; [reflexivity..|].
  apply in_app_or in Hc as [Hc|[<-|Hc]]; [auto|reflexivity|auto].
Qed.

(** *** Concatenations of two strings and of two variables *)

Section StarsNone.

Variable p : ascii -> bool.
Variable k : cont.

(** A greedy quantifier fails when what follows fails at every place it
    can stop. *)
Lemma star_greedy_none :
  forall w rest' pos cs,
    Forall (fun c => p c = true) w ->
    match rest' with c :: _ => p c = false | [] => True end ->
    (forall u v, w = u ++ v -> k (pos + length u) (v ++ rest') cs = None) ->
    star_greedy p pos (w ++ rest') cs k = None.
Proof.
  induction w as [|c w IH]; intros rest' pos cs Hw Hr Hk.
  - pose proof (Hk [] [] eq_refl) as H0. cbn [app length] in *.
    rewrite Nat.add_0_r in H0.
    destruct rest' as [|d r]; cbn [star_greedy]; [exact H0|]. now rewrite Hr.
  - inversion Hw; subst. cbn [app star_greedy]. rewrite H1.
    rewrite IH; auto.
    + pose proof (Hk [] (c :: w) eq_refl) as H0. cbn [app length] in H0.
      now rewrite Nat.add_0_r in H0.
    + intros u v ->. specialize (Hk (c :: u) v eq_refl).
      cbn [length] in Hk. now rewrite Nat.add_succ_r in Hk.
Qed.

End StarsNone.

Lemma space_not_plus d : isSpace d = true -> chr "+" d = false.
Proof. intros H. apply chr_false. intros ->. discriminate H. Qed.

Lemma strVarRe_sep_fail pos q ws1 ws2 d t :
  Forall (fun x => isSpace x = true) ws1 ->
  Forall (fun x => isSpace x = true) ws2 ->
  notQuoteSpace d = false -> isSpace d = false ->
  execAt strVarRe pos (q :: ws1 ++ "+" :: ws2 ++ d :: t) = None.
Proof.
  intros H1 H2 Hd Hds. unfold execAt, strVarRe. cbn [Seq rmatch].
  destruct (isQuote q); [|reflexivity].
  apply star_greedy_none; auto.
  intros u v ->. apply Forall_app in H1 as [_ Hv]. cbv beta.
  destruct v as [|c v]; cbn [app rmatch].
  - replace (chr "+" "+") with true by reflexivity.
    apply star_greedy_none; auto.
    intros u2 v2 ->. apply Forall_app in H2 as [_ Hv2]. cbv beta.
    destruct v2 as [|c2 v2]; cbn [app rmatch]; [now rewrite Hd|].
    inversion Hv2; subst. unfold notQuoteSpace.
    match goal with H : isSpace c2 = true |- _ => rewrite H end.
    now rewrite orb_true_r.
  - inversion Hv; subst. now rewrite space_not_plus.
Qed.

Lemma varStrRe_no_plus pos c ws r :
  Forall (fun x => isSpace x = true) ws ->
  match r with d :: _ => isSpace d = false /\ d <> "+" | [] => True end ->
  execAt varStrRe pos (c :: ws ++ r) = None.
Proof.
  intros Hws Hr. unfold execAt, varStrRe. cbn [Seq rmatch].
  destruct (notQuoteSpace c); [|reflexivity].
  apply star_greedy_none; auto.
  - destruct r; tauto.
  - intros u v ->. apply Forall_app in Hws as [_ Hv]. cbv beta.
    destruct v as [|d v]; cbn [app rmatch].
    + destruct r as [|d r]; [reflexivity|].
      destruct Hr as [_ Hp]. now rewrite (proj2 (chr_false "+" d) Hp).
    + inversion Hv; subst. now rewrite space_not_plus.
Qed.

Lemma varStrRe_sep_fail pos c ws1 ws2 d t :
  Forall (fun x => isSpace x = true) ws1 ->
  Forall (fun x => isSpace x = true) ws2 ->
  isQuote d = false -> isSpace d = false ->
  execAt varStrRe pos (c :: ws1 ++ "+" :: ws2 ++ d :: t) = None.
Proof.
  intros H1 H2 Hd Hds. unfold execAt, varStrRe. cbn [Seq rmatch].
  destruct (notQuoteSpace c); [|reflexivity].
  apply star_greedy_none; auto.
  intros u v ->. apply Forall_app in H1 as [_ Hv]. cbv beta.
  destruct v as [|c1 v]; cbn [app rmatch].
  - replace (chr "+" "+") with true by reflexivity.
    apply star_greedy_none; auto.
    intros u2 v2 ->. apply Forall_app in H2 as [_ Hv2]. cbv beta.
    destruct v2 as [|c2 v2]; cbn [app rmatch]; [now rewrite Hd|].
    inversion Hv2; subst.
    match goal with H : isSpace c2 = true |- _ =>
      destruct (@isSpace_facts c2 H) as (Hq & _) end.
    now rewrite Hq.
  - inversion Hv; subst. now rewrite space_not_plus.
Qed.

Lemma varVarRe_not_class pos c t :
  notQuoteSpace c = false -> execAt varVarRe pos (c :: t) = None.
Proof.
  intros H. unfold execAt, varVarRe. cbn [Seq rmatch]. now rewrite H.
Qed.

Lemma varVarRe_no_plus pos c ws r :
  Forall (fun x => isSpace x = true) ws ->
  match r with d :: _ => isSpace d = false /\ d <> "+" | [] => True end ->
  execAt varVarRe pos (c :: ws ++ r) = None.
Proof.
  intros Hws Hr. unfold execAt, varVarRe. cbn [Seq rmatch].
  destruct (notQuoteSpace c); [|reflexivity].
  apply star_greedy_none; auto.
  - destruct r; tauto.
  - intros u v ->. apply Forall_app in Hws as [_ Hv]. cbv beta.
    destruct v as [|d v]; cbn [app rmatch].
    + destruct r as [|d r]; [reflexivity|].
      destruct Hr as [_ Hp]. now rewrite (proj2 (chr_false "+" d) Hp).
    + inversion Hv; subst. now rewrite space_not_plus.
Qed.

Lemma execAt_varVarRe_nil pos : execAt varVarRe pos [] = None.
Proof. reflexivity. Qed.

Lemma execAt_varVarRe_match pos c ws1 ws2 d t :
  notQuoteSpace c = true ->
  Forall (fun x => isSpace x = true) ws1 ->
  Forall (fun x => isSpace x = true) ws2 ->
  notQuoteSpace d = true ->
  execAt varVarRe pos (c :: ws1 ++ "+" :: ws2 ++ d :: t) =
  Some (pos + S (length (ws1 ++ "+" :: ws2 ++ [d])),
        [(3, [d]); (2, ws1 ++ "+" :: ws2); (1, [c])]).
Proof.
  intros Hc H1 H2 Hd.
  assert (Hds : isSpace d = false).
  { unfold notQuoteSpace in Hd. apply negb_true_iff, orb_false_iff in Hd. tauto. }
  unfold execAt, varVarRe. cbn [Seq rmatch]. rewrite Hc.
  erewrite star_greedy_longest with (w := ws1); [reflexivity|exact H1| |reflexivity].
  cbn [rmatch]. replace (chr "+" "+") with true by reflexivity.
  erewrite star_greedy_longest with (w := ws2); [reflexivity|exact H2| |exact Hds].
  cbn [rmatch]. rewrite Hd. unfold accept. f_equal. f_equal.
  - rewrite !length_app. cbn [length]. rewrite length_app. cbn [length]. lia.
  - f_equal; [|f_equal; [|f_equal]].
    + f_equal.
      match goal with
      | |- firstn ?n _ = _ => replace n with 1 by lia
      end.
      reflexivity.
    + f_equal.
      match goal with
      | |- firstn ?n _ = _ =>
          replace n with (length (ws1 ++ "+" :: ws2)) by
            (rewrite length_app; cbn [length]; lia)
      end.
      replace (ws1 ++ "+" :: ws2 ++ d :: t) with ((ws1 ++ "+" :: ws2) ++ d :: t)
        by (rewrite <- ?app_assoc; reflexivity).
      now rewrite firstn_app, Nat.sub_diag, firstn_all, app_nil_r.
    + f_equal.
      match goal with
      | |- firstn ?n _ = _ => replace n with 1 by lia
      end.
      reflexivity.
Qed.

Lemma getSubstitution_varVar matched s pos c g d :
  getSubstitution matched s pos [(3, [d]); (2, g); (1, [c])] 3 (s_ "$1}${$3") =
  c :: s_ "}${" ++ [d].
Proof. reflexivity. Qed.

Lemma strStrRe_not_quote pos c t :
  isQuote c = false -> execAt strStrRe pos (c :: t) = None.
Proof.
  intros H. unfold execAt, strStrRe. cbn [Seq rmatch]. now rewrite H.
Qed.

Lemma strStrRe_no_plus pos q ws r :
  Forall (fun x => isSpace x = true) ws ->
  match r with d :: _ => isSpace d = false /\ d <> "+" | [] => True end ->
  execAt strStrRe pos (q :: ws ++ r) = None.
Proof.
  intros Hws Hr. unfold execAt, strStrRe. cbn [Seq rmatch].
  destruct (isQuote q); [|reflexivity].
  apply star_greedy_none; auto.
  - destruct r; tauto.
  - intros u v ->. apply Forall_app in Hws as [_ Hv]. cbv beta.
    destruct v as [|d v]; cbn [app rmatch].
    + destruct r as [|d r]; [reflexivity|].
      destruct Hr as [_ Hp]. now rewrite (proj2 (chr_false "+" d) Hp).
    + inversion Hv; subst. now rewrite space_not_plus.
Qed.

Lemma execAt_strStrRe_nil pos : execAt strStrRe pos [] = None.
Proof. reflexivity. Qed.

Lemma execAt_strStrRe_match pos q ws1 ws2 q' t :
  isQuote q = true ->
  Forall (fun x => isSpace x = true) ws1 ->
  Forall (fun x => isSpace x = true) ws2 ->
  isQuote q' = true ->
  execAt strStrRe pos (q :: ws1 ++ "+" :: ws2 ++ q' :: t) =
  Some (pos + S (length (ws1 ++ "+" :: ws2 ++ [q'])), []).
Proof.
  intros Hq H1 H2 Hq'.
  destruct (@quote_not_space_plus q' Hq') as [Hqs _].
  unfold execAt, strStrRe. cbn [Seq rmatch]. rewrite Hq.
  erewrite star_greedy_longest with (w := ws1); [reflexivity|exact H1| |reflexivity].
  cbn [rmatch]. replace (chr "+" "+") with true by reflexivity.
  erewrite star_greedy_longest with (w := ws2); [reflexivity|exact H2| |exact Hqs].
  cbn [rmatch]. rewrite Hq'. unfold accept. do 2 f_equal.
  rewrite !length_app. cbn [length]. rewrite length_app. cbn [length]. lia.
Qed.

(** Units none of which is followed by white space or a plus sign are
    passed over by a pattern that needs one of them after its first unit. *)
Lemma replaceFrom_run r tmpl s X d rest pos :
  (forall pos c e t, isSpace e = false -> e <> "+" -> execAt r pos (c :: e :: t) = None) ->
  (forall c, In c (X ++ [d]) -> isSpace c = false /\ c <> "+") ->
  replaceFrom true r tmpl s pos (X ++ d :: rest) 0 =
  X ++ replaceFrom true r tmpl s (pos + length X) (d :: rest) 0.
Proof.
  intros Hr H. apply replaceFrom_app_noMatch.
  intros u v pos' -> Hv. destruct v as [|c [|c' v]]; [congruence| |].
  - cbn [app]. destruct (H d) as [Hs Hp]; [apply in_or_app; right; now left|].
    now apply Hr.
  - cbn [app]. destruct (H c') as [Hs Hp].
    { apply in_or_app. left. apply in_or_app. right. right. now left. }
    now apply Hr.
Qed.

Lemma replaceFrom_plain r tmpl s l pos :
  (forall pos c e t, isSpace e = false -> e <> "+" -> execAt r pos (c :: e :: t) = None) ->
  (forall pos c, execAt r pos [c] = None) ->
  (forall pos, execAt r pos [] = None) ->
  (forall c, In c l -> isSpace c = false /\ c <> "+") ->
  replaceFrom true r tmpl s pos l 0 = l.
Proof.
  intros Hr H1 H0 H.
  pose proof (@replaceFrom_app_noMatch true r tmpl s l []) as E.
  rewrite app_nil_r in E. rewrite E.
  - rewrite replaceFrom_nil_noMatch by auto. apply app_nil_r.
  - intros u v pos' -> Hv. rewrite app_nil_r.
    destruct v as [|c [|c' v]]; [congruence|apply H1|].
    destruct (H c') as [Hs Hp]; [|now apply Hr].
    apply in_or_app. right. right. now left.
Qed.

Lemma varStrRe_stuck_any pos c e t :
  isSpace e = false -> e <> "+" -> execAt varStrRe pos (c :: e :: t) = None.
Proof. intros Hs Hp. now apply varStrRe_stuck. Qed.

Lemma varVarRe_stuck pos c e t :
  isSpace e = false -> e <> "+" -> execAt varVarRe pos (c :: e :: t) = None.
Proof.
  intros Hs Hp. apply (@varVarRe_no_plus pos c [] (e :: t)); [constructor|now split].
Qed.

Lemma varStrRe_single pos c : execAt varStrRe pos [c] = None.
Proof. apply (@varStrRe_no_plus pos c [] []); [constructor|exact I]. Qed.

Lemma varVarRe_single pos c : execAt varVarRe pos [c] = None.
Proof. apply (@varVarRe_no_plus pos c [] []); [constructor|exact I]. Qed.

(** Lines 58 to 65 on a quoted text. *)
Lemma tail_of_quoted q1 q4 M :
  isQuote q1 = true -> isQuote q4 = true ->
  (forall c, In c M -> plainPathChar c = true) ->
  trim (replaceRe true backtickRe []
    (replaceRe true endStrRe (s_ "`")
    (replaceRe true endVarRe (s_ "$1}`")
    (replaceRe true beginStrRe (s_ "`")
    (replaceRe true beginVarRe (s_ "`${$2") (q1 :: M ++ [q4])))))) = M.
Proof.
  intros Hq1 Hq4 HM.
  rewrite replaceRe_beginVarRe, replaceRe_beginStrRe by auto.
  change ("`" :: M ++ [q4]) with (("`" :: M) ++ [q4]).
  unfold replaceRe.
  rewrite replaceFrom_endVarRe, replaceFrom_endStrRe by auto.
  rewrite replaceFrom_backtickRe.
  cbn [app List.filter]. replace (negb (chr "`" "`")) with false by reflexivity.
  rewrite filter_app. cbn [s_ list_ascii_of_string List.filter].
  replace (negb (chr "`" "`")) with false by reflexivity.
  rewrite app_nil_r, filter_backtick_plain by exact HM.
  now apply trim_plain.
Qed.

(** Lines 58 to 65 on a text that starts and ends with a variable. *)
Lemma tail_of_variables c0 M cl :
  plainPathChar c0 = true -> plainPathChar cl = true ->
  (forall c, In c M -> plainPathChar c = true) ->
  trim (replaceRe true backtickRe []
    (replaceRe true endStrRe (s_ "`")
    (replaceRe true endVarRe (s_ "$1}`")
    (replaceRe true beginStrRe (s_ "`")
    (replaceRe true beginVarRe (s_ "`${$2") (c0 :: M ++ [cl])))))) =
  s_ "${" ++ c0 :: M ++ cl :: s_ "}".
Proof.
  intros H0 Hl HM.
  assert (Hall : forall c, In c (s_ "${" ++ c0 :: M ++ cl :: s_ "}") ->
                           plainPathChar c = true).
  { intros c [<-|[<-|[<-|Hc]]]; try reflexivity; auto.
    apply in_app_or in Hc as [Hc|[<-|Hc]]; auto.
    apply plainPathChar_marker. now right. }
  rewrite replaceRe_beginVarRe_var by now apply plainPathChar_notQuote.
  cbn [app s_ list_ascii_of_string].
  rewrite replaceRe_beginStrRe_other by reflexivity.
  change ("`" :: "$" :: "{" :: c0 :: M ++ [cl])
    with (("`" :: "$" :: "{" :: c0 :: M) ++ [cl]).
  unfold replaceRe.
  rewrite replaceFrom_endVarRe_var by now apply plainPathChar_notQuote.
  replace (("`" :: "$" :: "{" :: c0 :: M) ++ cl :: s_ "}`")
    with (("`" :: s_ "${" ++ c0 :: M ++ cl :: s_ "}") ++ ["`"])
    by (cbn [app s_ list_ascii_of_string]; rewrite <- ?app_assoc; reflexivity).
  rewrite replaceFrom_endStrRe_other by reflexivity.
  rewrite replaceFrom_backtickRe.
  rewrite filter_app.
  change (List.filter (fun c => negb (chr "`" c)) ["`"]) with (@nil ascii).
  rewrite app_nil_r.
  change (List.filter (fun c => negb (chr "`" c))
            ("`" :: s_ "${" ++ c0 :: M ++ cl :: s_ "}"))
    with (List.filter (fun c => negb (chr "`" c)) (s_ "${" ++ c0 :: M ++ cl :: s_ "}")).
  rewrite filter_backtick_plain by exact Hall.
  now apply trim_plain.
Qed.

(** The destination of [q1 s1 q2 + q3 s2 q4]. *)
Lemma destinationOf_string_string q1 s1 q2 ws1 ws2 q3 s2 q4 :
  isQuote q1 = true -> isQuote q2 = true -> isQuote q3 = true -> isQuote q4 = true ->
  forallb plainPathChar s1 = true -> forallb plainPathChar s2 = true ->
  forallb blankChar ws1 = true -> forallb blankChar ws2 = true ->
  destinationOf (q1 :: s1 ++ q2 :: ws1 ++ "+" :: ws2 ++ q3 :: s2 ++ [q4]) = s1 ++ s2.
Proof.
  intros Hq1 Hq2 Hq3 Hq4 Hs1 Hs2 H1 H2.
  rewrite forallb_forall in Hs1, Hs2, H1, H2.
  assert (Hb : forall ws, (forall c, In c ws -> blankChar c = true) ->
                          forall c, In c ws -> isSpace c = true)
    by (intros ws H c Hc; now destruct (@blankChar_facts c (H c Hc))).
  pose proof (Hb _ H1) as H1s. pose proof (Hb _ H2) as H2s.
  assert (F1 : Forall (fun x => isSpace x = true) ws1) by now apply Forall_forall.
  assert (F2 : Forall (fun x => isSpace x = true) ws2) by now apply Forall_forall.
  set (P := fun c : ascii => c <> "*" /\ c <> LF).
  assert (Pq : forall q, isQuote q = true -> P q)
    by (intros q Hq; destruct (@isQuote_facts q Hq) as (_ & _ & _ & ? & ?); now split).
  assert (Pp : forall s, (forall c, In c s -> plainPathChar c = true) -> Forall P s).
  { intros s Hs. apply Forall_forall. intros c Hc.
    destruct (@plainPathChar_facts c (Hs c Hc)) as (_ & Hsp & _ & _ & Hst & _).
    split; auto. intros ->. now rewrite isSpace_LF in Hsp. }
  assert (Pb : forall s, (forall c, In c s -> blankChar c = true) -> Forall P s).
  { intros s Hs. apply Forall_forall. intros c Hc.
    destruct (@blankChar_facts c (Hs c Hc)) as (_ & ? & _ & _ & ? & _). now split. }
  assert (Pplus : P "+") by (split; discriminate).
  assert (Hplainq : forall x, plainPathChar x = true -> isQuote x = false)
    by (intros x Hx; now destruct (@plainPathChar_facts x Hx)).
  assert (Hspaceq : forall x, isSpace x = true -> isQuote x = false)
    by (intros x Hx; now destruct (@isSpace_facts x Hx)).
  assert (Hnq : forall q, isQuote q = true -> notQuoteSpace q = false)
    by (intros q Hq; unfold notQuoteSpace; now rewrite Hq).
  assert (Hns : forall x, isSpace x = true -> notQuoteSpace x = false)
    by (intros x Hx; unfold notQuoteSpace; rewrite Hx; now rewrite orb_true_r).
  assert (Hhead : forall (s : str) q t, (forall c, In c s -> plainPathChar c = true) ->
            isQuote q = true ->
            match s ++ q :: t with d :: _ => isSpace d = false /\ d <> "+" | [] => True end).
  { intros s q t Hs Hq. destruct s as [|d s]; cbn [app].
    - now apply quote_not_space_plus.
    - apply plain_not_space_plus, Hs. now left. }
  assert (Hrun : forall (s : str) q, (forall c, In c s -> plainPathChar c = true) ->
            isQuote q = true ->
            forall c, In c (s ++ [q]) -> isSpace c = false /\ c <> "+").
  { intros s q Hs Hq c Hc. apply in_app_or in Hc as [Hc|[<-|[]]].
    - now apply plain_not_space_plus, Hs.
    - now apply quote_not_space_plus. }
  set (arg := q1 :: s1 ++ q2 :: ws1 ++ "+" :: ws2 ++ q3 :: s2 ++ [q4]).
  assert (Hall : Forall P arg).
  { unfold arg.
    repeat first [ apply Forall_cons | apply Forall_app; split | apply Forall_nil ];
      auto. }
  unfold destinationOf.
  rewrite (@replaceRe_never commentRe true [] arg).
  2:{ apply neverMatches_commentRe; intros H;
      apply (proj1 (Forall_forall _ _) Hall) in H; destruct H as [Hx Hy]; congruence. }
  assert (Harg : arg = q1 :: (s1 ++ q2 :: ws1 ++ "+" :: ws2 ++ q3 :: s2) ++ [q4]).
  { unfold arg. rewrite <- ?app_assoc. cbn [app]. rewrite <- ?app_assoc. cbn [app].
    rewrite <- ?app_assoc. reflexivity. }
  rewrite Harg.
  rewrite !trim_delimited by (now apply quote_not_space_plus).
  rewrite <- Harg.
  replace (chr "`" q1) with false.
  2:{ symmetry. apply chr_false. now destruct (@isQuote_facts q1 Hq1) as (_ & ? & _). }
  unfold concatToTemplate, arg.
  (* line 54 *)
  assert (E1 : replaceRe true strVarRe (s_ "${$2")
                 (q1 :: s1 ++ q2 :: ws1 ++ "+" :: ws2 ++ q3 :: s2 ++ [q4]) =
               q1 :: s1 ++ q2 :: ws1 ++ "+" :: ws2 ++ q3 :: s2 ++ [q4]).
  { unfold replaceRe.
    rewrite replaceFrom_cons_noMatch by (apply strVarRe_quote_stuck; now apply Hhead).
    rewrite replaceFrom_skip_inert.
    2:{ intros d t pos Hd. apply strVarRe_not_quote. auto. }
    rewrite replaceFrom_cons_noMatch.
    2:{ apply strVarRe_sep_fail; auto. now apply quote_not_space_plus. }
    rewrite replaceFrom_skip_inert.
    2:{ intros d t pos Hd. apply strVarRe_not_quote. auto. }
    rewrite replaceFrom_cons_noMatch by (now apply strVarRe_not_quote).
    rewrite replaceFrom_skip_inert.
    2:{ intros d t pos Hd. apply strVarRe_not_quote. auto. }
    rewrite replaceFrom_cons_noMatch by (apply strVarRe_quote_stuck; now apply Hhead).
    rewrite replaceFrom_skip_inert.
    2:{ intros d t pos Hd. apply strVarRe_not_quote. auto. }
    rewrite replaceFrom_cons_noMatch by (now apply strVarRe_quote_stuck).
    rewrite replaceFrom_nil_noMatch by reflexivity.
    reflexivity. }
  rewrite E1.
  (* lines 55 and 56 *)
  assert (E23 : forall r tmpl,
             (forall pos c t, notQuoteSpace c = false -> execAt r pos (c :: t) = None) ->
             (forall pos c ws t,
                 Forall (fun x => isSpace x = true) ws ->
                 match t with d :: _ => isSpace d = false /\ d <> "+" | [] => True end ->
                 execAt r pos (c :: ws ++ t) = None) ->
             (forall pos, execAt r pos [] = None) ->
             replaceRe true r tmpl
               (q1 :: s1 ++ q2 :: ws1 ++ "+" :: ws2 ++ q3 :: s2 ++ [q4]) =
             q1 :: s1 ++ q2 :: ws1 ++ "+" :: ws2 ++ q3 :: s2 ++ [q4]).
  { intros r tmpl Hclass Hnp Hnil.
    assert (Hstuck : forall pos c e t, isSpace e = false -> e <> "+" ->
                                       execAt r pos (c :: e :: t) = None).
    { intros pos c e t Hs Hp. apply (Hnp pos c [] (e :: t)); [constructor|now split]. }
    unfold replaceRe.
    rewrite replaceFrom_cons_noMatch by (now apply Hclass, Hnq).
    rewrite replaceFrom_run by (auto; now apply Hrun).
    rewrite replaceFrom_cons_noMatch by (now apply Hclass, Hnq).
    rewrite replaceFrom_skip_inert.
    2:{ intros d t pos Hd. apply Hclass. auto. }
    rewrite replaceFrom_cons_noMatch.
    2:{ apply Hnp; auto. now apply quote_not_space_plus. }
    rewrite replaceFrom_skip_inert.
    2:{ intros d t pos Hd. apply Hclass. auto. }
    rewrite replaceFrom_cons_noMatch by (now apply Hclass, Hnq).
    rewrite replaceFrom_run by (auto; now apply Hrun).
    rewrite replaceFrom_cons_noMatch by (now apply Hclass, Hnq).
    rewrite replaceFrom_nil_noMatch by auto.
    reflexivity. }
  rewrite (E23 varStrRe (s_ "$1}")
             varStrRe_quote_or_space varStrRe_no_plus execAt_varStrRe_nil).
  rewrite (E23 varVarRe (s_ "$1}${$3")
             varVarRe_not_class varVarRe_no_plus execAt_varVarRe_nil).
  (* line 57 *)
  assert (E4 : replaceRe true strStrRe []
                 (q1 :: s1 ++ q2 :: ws1 ++ "+" :: ws2 ++ q3 :: s2 ++ [q4]) =
               q1 :: s1 ++ s2 ++ [q4]).
  { unfold replaceRe.
    rewrite replaceFrom_cons_noMatch.
    2:{ apply (@strStrRe_no_plus 0 q1 []); [constructor|now apply Hhead]. }
    rewrite replaceFrom_skip_inert.
    2:{ intros d t pos Hd. apply strStrRe_not_quote. auto. }
    replace (q2 :: ws1 ++ "+" :: ws2 ++ q3 :: s2 ++ [q4])
      with (q2 :: (ws1 ++ "+" :: ws2 ++ [q3]) ++ (s2 ++ [q4]))
      by (rewrite <- ?app_assoc; cbn [app]; rewrite <- ?app_assoc; reflexivity).
    rewrite replaceFrom_match with (cs := []).
    2:{ rewrite <- (@execAt_strStrRe_match _ q2 ws1 ws2 q3 (s2 ++ [q4]) Hq2 F1 F2 Hq3).
        f_equal. rewrite <- ?app_assoc. cbn [app]. rewrite <- ?app_assoc. reflexivity. }
    cbn [getSubstitution app].
    rewrite replaceFrom_skip_inert.
    2:{ intros d t pos Hd. apply strStrRe_not_quote. auto. }
    rewrite replaceFrom_cons_noMatch.
    2:{ apply (@strStrRe_no_plus _ q4 [] []); [constructor|exact I]. }
    rewrite replaceFrom_nil_noMatch by reflexivity.
    reflexivity. }
  rewrite E4.
  replace (q1 :: s1 ++ s2 ++ [q4]) with (q1 :: (s1 ++ s2) ++ [q4])
    by now rewrite <- app_assoc.
  apply tail_of_quoted; auto.
  intros c Hc. apply in_app_or in Hc as [Hc|Hc]; auto.
Qed.

(** The destination of [v1 + v2]. *)
Lemma destinationOf_variable_variable v1 ws1 ws2 v2 :
  forallb plainPathChar v1 = true -> v1 <> [] ->
  forallb plainPathChar v2 = true -> v2 <> [] ->
  forallb blankChar ws1 = true -> forallb blankChar ws2 = true ->
  destinationOf (v1 ++ ws1 ++ "+" :: ws2 ++ v2) =
  s_ "${" ++ v1 ++ s_ "}${" ++ v2 ++ s_ "}".
Proof.
  intros Hv1 Hn1 Hv2 Hn2 H1 H2.
  rewrite forallb_forall in Hv1, Hv2, H1, H2.
  assert (Hb : forall ws, (forall c, In c ws -> blankChar c = true) ->
                          forall c, In c ws -> isSpace c = true)
    by (intros ws H c Hc; now destruct (@blankChar_facts c (H c Hc))).
  pose proof (Hb _ H1) as H1s. pose proof (Hb _ H2) as H2s.
  assert (F1 : Forall (fun x => isSpace x = true) ws1) by now apply Forall_forall.
  assert (F2 : Forall (fun x => isSpace x = true) ws2) by now apply Forall_forall.
  set (P := fun c : ascii => c <> "*" /\ c <> LF).
  assert (Pp : forall s, (forall c, In c s -> plainPathChar c = true) -> Forall P s).
  { intros s Hs. apply Forall_forall. intros c Hc.
    destruct (@plainPathChar_facts c (Hs c Hc)) as (_ & Hsp & _ & _ & Hst & _).
    split; auto. intros ->. now rewrite isSpace_LF in Hsp. }
  assert (Pb : forall s, (forall c, In c s -> blankChar c = true) -> Forall P s).
  { intros s Hs. apply Forall_forall. intros c Hc.
    destruct (@blankChar_facts c (Hs c Hc)) as (_ & ? & _ & _ & ? & _). now split. }
  assert (Pplus : P "+") by (split; discriminate).
  assert (Hplainq : forall x, plainPathChar x = true -> isQuote x = false)
    by (intros x Hx; now destruct (@plainPathChar_facts x Hx)).
  assert (Hspaceq : forall x, isSpace x = true -> isQuote x = false)
    by (intros x Hx; now destruct (@isSpace_facts x Hx)).
  assert (Hns : forall x, isSpace x = true -> notQuoteSpace x = false)
    by (intros x Hx; unfold notQuoteSpace; rewrite Hx; now rewrite orb_true_r).
  destruct (exists_last Hn1) as (v1i & v1l & E1l).
  destruct (exists_last Hn2) as (v2i & v2l & E2l).
  destruct v1 as [|a1 v1'] eqn:E10; [congruence|]. rewrite <- E10 in *.
  destruct v2 as [|a2 v2'] eqn:E20; [congruence|]. rewrite <- E20 in *.
  assert (Ha1 : plainPathChar a1 = true) by (apply Hv1; rewrite E10; now left).
  assert (Ha2 : plainPathChar a2 = true) by (apply Hv2; rewrite E20; now left).
  assert (Hl1 : plainPathChar v1l = true)
    by (apply Hv1; rewrite E1l; apply in_or_app; right; now left).
  assert (Hl2 : plainPathChar v2l = true)
    by (apply Hv2; rewrite E2l; apply in_or_app; right; now left).
  set (arg := v1 ++ ws1 ++ "+" :: ws2 ++ v2).
  assert (Hall : Forall P arg).
  { unfold arg.
    repeat first [ apply Forall_cons | apply Forall_app; split | apply Forall_nil ];
      auto. }
  unfold destinationOf.
  rewrite (@replaceRe_never commentRe true [] arg).
  2:{ apply neverMatches_commentRe; intros H;
      apply (proj1 (Forall_forall _ _) Hall) in H; destruct H as [Hx Hy]; congruence. }
  assert (Harg : arg = a1 :: (v1' ++ ws1 ++ "+" :: ws2 ++ v2i) ++ [v2l]).
  { unfold arg. rewrite E2l, E10. cbn [app]. rewrite <- ?app_assoc. cbn [app].
    rewrite <- ?app_assoc. reflexivity. }
  rewrite Harg.
  rewrite !trim_delimited by (now apply plain_not_space_plus).
  rewrite <- Harg.
  replace (chr "`" a1) with false.
  2:{ symmetry. apply chr_false.
      now destruct (@plainPathChar_facts a1 Ha1) as (_ & _ & ? & _). }
  unfold concatToTemplate, arg.
  (* line 54 *)
  assert (E1 : replaceRe true strVarRe (s_ "${$2") (v1 ++ ws1 ++ "+" :: ws2 ++ v2) =
               v1 ++ ws1 ++ "+" :: ws2 ++ v2).
  { unfold replaceRe. apply replaceFrom_all_inert; [|reflexivity].
    intros c t pos Hc. apply strVarRe_not_quote.
    apply in_app_or in Hc as [Hc|Hc]; [auto|].
    apply in_app_or in Hc as [Hc|[<-|Hc]]; [auto|reflexivity|].
    apply in_app_or in Hc as [Hc|Hc]; auto. }
  rewrite E1.
  (* line 55 *)
  assert (E2 : replaceRe true varStrRe (s_ "$1}") (v1 ++ ws1 ++ "+" :: ws2 ++ v2) =
               v1 ++ ws1 ++ "+" :: ws2 ++ v2).
  { unfold replaceRe. rewrite E1l.
    replace ((v1i ++ [v1l]) ++ ws1 ++ "+" :: ws2 ++ v2)
      with (v1i ++ v1l :: ws1 ++ "+" :: ws2 ++ v2)
      by (rewrite <- ?app_assoc; reflexivity).
    rewrite replaceFrom_run.
    2:{ apply varStrRe_stuck_any. }
    2:{ intros c Hc. apply plain_not_space_plus, Hv1. now rewrite E1l. }
    rewrite replaceFrom_cons_noMatch.
    2:{ rewrite E20. apply varStrRe_sep_fail; auto.
        now apply plain_not_space_plus. }
    rewrite replaceFrom_skip_inert.
    2:{ intros d t pos Hd. apply varStrRe_quote_or_space. auto. }
    rewrite replaceFrom_cons_noMatch.
    2:{ apply varStrRe_no_plus; auto. rewrite E20. now apply plain_not_space_plus. }
    rewrite replaceFrom_skip_inert.
    2:{ intros d t pos Hd. apply varStrRe_quote_or_space. auto. }
    rewrite replaceFrom_plain;
      [ | apply varStrRe_stuck_any | apply varStrRe_single | apply execAt_varStrRe_nil
        | intros c Hc; now apply plain_not_space_plus, Hv2 ].
    rewrite <- ?app_assoc. reflexivity. }
  rewrite E2.
  (* line 56 *)
  assert (E3 : replaceRe true varVarRe (s_ "$1}${$3") (v1 ++ ws1 ++ "+" :: ws2 ++ v2) =
               v1 ++ s_ "}${" ++ v2).
  { unfold replaceRe. rewrite E1l, E20.
    replace ((v1i ++ [v1l]) ++ ws1 ++ "+" :: ws2 ++ a2 :: v2')
      with (v1i ++ v1l :: (ws1 ++ "+" :: ws2 ++ [a2]) ++ v2')
      by (rewrite <- ?app_assoc; cbn [app]; rewrite <- ?app_assoc; reflexivity).
    rewrite replaceFrom_run.
    2:{ apply varVarRe_stuck. }
    2:{ intros c Hc. apply plain_not_space_plus, Hv1. now rewrite E1l. }
    rewrite replaceFrom_match
      with (cs := [(3, [a2]); (2, ws1 ++ "+" :: ws2); (1, [v1l])]).
    2:{ rewrite <- (@execAt_varVarRe_match _ v1l ws1 ws2 a2 v2'
                      (plainPathChar_notQuoteSpace _ Hl1) F1 F2
                      (plainPathChar_notQuoteSpace _ Ha2)).
        f_equal. rewrite <- ?app_assoc. cbn [app]. rewrite <- ?app_assoc. reflexivity. }
    change (ngroups varVarRe) with 3. rewrite getSubstitution_varVar.
    rewrite replaceFrom_plain;
      [ | apply varVarRe_stuck | apply varVarRe_single | apply execAt_varVarRe_nil
        | intros c Hc; apply plain_not_space_plus, Hv2; rewrite E20; now right ].
    cbn [app s_ list_ascii_of_string]. rewrite <- ?app_assoc. reflexivity. }
  rewrite E3.
  (* line 57 *)
  assert (E4 : replaceRe true strStrRe [] (v1 ++ s_ "}${" ++ v2) = v1 ++ s_ "}${" ++ v2).
  { unfold replaceRe. apply replaceFrom_all_inert; [|reflexivity].
    intros c t pos Hc. apply strStrRe_not_quote.
    apply in_app_or in Hc as [Hc|Hc]; [auto|].
    cbn [s_ list_ascii_of_string app In] in Hc.
    destruct Hc as [<-|[<-|[<-|Hc]]]; try reflexivity. auto. }
  rewrite E4.
  replace (v1 ++ s_ "}${" ++ v2) with (a1 :: (v1' ++ s_ "}${" ++ v2i) ++ [v2l])
    by (rewrite E2l, E10; cbn [app]; rewrite <- ?app_assoc; reflexivity).
  rewrite tail_of_variables; auto.
  - rewrite E10, E2l. cbn [app s_ list_ascii_of_string]. rewrite <- ?app_assoc.
    reflexivity.
  - intros c Hc. apply in_app_or in Hc as [Hc|Hc].
    + apply Hv1. rewrite E10. now right.
    + cbn [s_ list_ascii_of_string app In] in Hc.
      destruct Hc as [<-|[<-|[<-|Hc]]]; try reflexivity.
      apply Hv2. rewrite E2l. apply in_or_app. now left.
Qed.

(** ** Comments in the argument (line 50) *)

Lemma commentRe_not_slash pos c t : c <> "/" -> execAt commentRe pos (c :: t) = None.
Proof.
  intros H. unfold execAt, commentRe. cbn [Seq Lit s_ list_ascii_of_string rmatch].
  now rewrite (proj2 (chr_false "/" c) H).
Qed.

Lemma execAt_commentRe_start pos rest x :
  execAt commentRe pos rest = Some x ->
  (exists t, rest = s_ "/*" ++ t) \/ (exists t, rest = s_ "//" ++ t).
Proof.
  unfold execAt, commentRe. cbn [Seq Lit s_ list_ascii_of_string rmatch].
  intros H.
  match type of H with
  | match ?a with Some _ => _ | None => _ end = _ => destruct a eqn:Ha
  end.
  - clear H. do 2 eat Ha.
    repeat match goal with E : chr _ _ = true |- _ => apply chr_true in E; subst end.
    left. now exists rest.
  - do 2 eat H.
    repeat match goal with E : chr _ _ = true |- _ => apply chr_true in E; subst end.
    right. now exists rest.
Qed.

Lemma noCommentStart_never s : noCommentStart s -> neverMatches commentRe s.
Proof.
  intros H pos pre rest' ->.
  destruct (execAt commentRe pos rest') eqn:E; auto.
  exfalso. destruct (H pre (skipn 2 rest')) as [H1 H2].
  apply execAt_commentRe_start in E as [[t ->]|[t ->]]; [now apply H1|now apply H2].
Qed.

Lemma execAt_commentRe_block pos c rest :
  Forall (fun x => dot x = true) c -> ~ In "*" c ->
  execAt commentRe pos (s_ "/*" ++ c ++ s_ "*/" ++ rest) =
  Some (pos + length (s_ "/*" ++ c ++ s_ "*/"), []).
Proof.
  intros Hd Hn.
  unfold execAt, commentRe. cbn [Seq Lit s_ list_ascii_of_string rmatch app].
  replace (chr "/" "/") with true by reflexivity.
  replace (chr "*" "*") with true by reflexivity.
  erewrite star_lazy_shortest with (w := c); [reflexivity|exact Hd| |].
  - intros u d v ->. cbn [rmatch].
    replace (chr "*" d) with false; [reflexivity|].
    symmetry. apply chr_false. intros ->. apply Hn, in_or_app. right. now left.
  - cbn [rmatch app]. replace (chr "*" "*") with true by reflexivity.
    replace (chr "/" "/") with true by reflexivity.
    unfold accept. do 2 f_equal. cbn [length]. rewrite length_app. cbn [length]. lia.
Qed.

Lemma execAt_commentRe_line pos c rest :
  Forall (fun x => dot x = true) c ->
  execAt commentRe pos (s_ "//" ++ c ++ [LF] ++ rest) =
  Some (pos + length (s_ "//" ++ c ++ [LF]), []).
Proof.
  intros Hd.
  unfold execAt, commentRe. cbn [Seq Lit s_ list_ascii_of_string rmatch app].
  replace (chr "/" "/") with true by reflexivity.
  replace (chr "*" "/") with false by reflexivity.
  erewrite star_greedy_longest with (w := c); [reflexivity|exact Hd| |reflexivity].
  cbn [rmatch]. replace (chr LF LF) with true by reflexivity.
  unfold accept. do 2 f_equal. cbn [length]. rewrite length_app. cbn [length]. lia.
Qed.

Lemma replaceRe_commentRe_one pre comment rest :
  ~ In "/" pre -> noCommentStart rest ->
  (exists c, Forall (fun x => dot x = true) c /\
             ((~ In "*" c /\ comment = s_ "/*" ++ c ++ s_ "*/") \/
              comment = s_ "//" ++ c ++ [LF])) ->
  replaceRe true commentRe [] (pre ++ comment ++ rest) = pre ++ rest.
Proof.
  intros Hpre Hrest (c & Hd & Hc). unfold replaceRe.
  rewrite replaceFrom_skip_inert.
  2:{ intros d t pos Hin. apply commentRe_not_slash. intros ->. contradiction. }
  f_equal.
  assert (He : execAt commentRe (0 + length pre) (comment ++ rest) =
               Some (0 + length pre + length comment, []) /\
               exists c0 w, comment = c0 :: w).
  { destruct Hc as [[Hn ->]| ->].
    - split; [|now exists "/", ("*" :: c ++ s_ "*/")].
      rewrite <- execAt_commentRe_block with (rest := rest) by assumption.
      now rewrite <- !app_assoc.
    - split; [|now exists "/", ("/" :: c ++ [LF])].
      rewrite <- execAt_commentRe_line with (rest := rest) by assumption.
      now rewrite <- !app_assoc. }
  destruct He as (He & c0 & w & ->).
  cbn [app]. rewrite replaceFrom_match with (cs := []).
  - cbn [getSubstitution app]. apply replaceFrom_never. now apply noCommentStart_never.
  - cbn [app length] in He. rewrite He. do 2 f_equal.
Qed.

Lemma replaceRe_commentRe_none pre rest :
  ~ In "/" pre -> noCommentStart rest ->
  replaceRe true commentRe [] (pre ++ rest) = pre ++ rest.
Proof.
  intros Hpre Hrest. unfold replaceRe.
  rewrite replaceFrom_skip_inert.
  2:{ intros d t pos Hin. apply commentRe_not_slash. intros ->. contradiction. }
  f_equal. apply replaceFrom_never. now apply noCommentStart_never.
Qed.

Lemma noCommentStart_indexOf s :
  indexOf (s_ "/*") s = None -> indexOf (s_ "//") s = None -> noCommentStart s.
Proof.
  intros H1 H2 u v. split; eapply indexOfFrom_none; eauto.
Qed.

(** X13.  Line 50.  A block comment whose body holds no asterisk and no
    line terminator, line feed or carriage return, or a line comment whose
    body holds no carriage return and which ends with its line feed, counts
    for nothing in the destination, when no slash precedes it and no other
    comment follows it.  A line comment that ends in a carriage return
    before the line feed is outside this statement. *)
Theorem comment_in_argument_is_ignored (pre comment rest : str) :
  ~ In "/" pre -> noCommentStart rest ->
  (exists c, Forall (fun x => dot x = true) c /\
             ((~ In "*" c /\ comment = s_ "/*" ++ c ++ s_ "*/") \/
              comment = s_ "//" ++ c ++ [LF])) ->
  destinationOf (pre ++ comment ++ rest) = destinationOf (pre ++ rest).
Proof.
  intros Hpre Hrest Hc. unfold destinationOf.
  now rewrite (@replaceRe_commentRe_one pre comment rest Hpre Hrest Hc),
              (@replaceRe_commentRe_none pre rest Hpre Hrest).
Qed.

Lemma comment_in_argument_is_ignored_witness :
  destinationOf (s_ "/* webpackChunkName: 'mod' */ './mod.js'") = s_ "./mod.js".
Proof.
  change (s_ "/* webpackChunkName: 'mod' */ './mod.js'")
    with ([] ++ s_ "/* webpackChunkName: 'mod' */" ++ s_ " './mod.js'").
  rewrite comment_in_argument_is_ignored.
  - reflexivity.
  - intros [].
  - apply noCommentStart_indexOf; reflexivity.
  - exists (s_ " webpackChunkName: 'mod' "). split.
    + repeat constructor.
    + left. split; [|reflexivity].
      intros H. repeat (destruct H as [H|H]; [discriminate H|]). exact H.
Defined.

(** ** Texts with a single import call, whatever its argument *)

Section SingleImportAny.

Variable Path : PathApi.
Variable FastGlob : str -> str -> promise (list str).
Variable resolveDir : str.
Variable config : DynamicImportConfig.
Variables pre post : str.
Hypothesis Hpre : noImportText pre.
Hypothesis Hpost : noImportText post.

Variable a : str.
Hypothesis Ha : a <> [].
Hypothesis Hfa : Forall (fun c => c <> ")") a.

Local Abbreviation file := (pre ++ s_ "import(" ++ a ++ s_ ")" ++ post).
Local Abbreviation d := (destinationOf a).

Lemma replaceImports_single_idle :
  rewriteCondition Path config d (extname Path d) = false ->
  queueCondition config d (extname Path d) = false ->
  replaceImports Path FastGlob file resolveDir config = (Fulfilled file, noEffects).
Proof.
  intros Hr Hq.
  assert (Hst : classify Path file resolveDir config =
                {| ls_fileContents := file; ls_importsToReplace := [];
                   ls_globImports := [] |}).
  { rewrite (classify_single_import Path resolveDir config Hpre Hpost Ha Hfa).
    unfold processMatch, group. cbn [m_caps capture Nat.eqb m_text].
    now rewrite Hr, Hq. }
  unfold replaceImports. now rewrite Hst.
Qed.

Lemma replaceImports_single_rewritten :
  let normalizedPath := normalize Path (resolveDir ++ s_ "/" ++ d) in
  rewriteCondition Path config d (extname Path d) = true ->
  firstOccurrence a file (pre ++ s_ "import(") (s_ ")" ++ post) ->
  plainTemplate (s_ "`" ++ normalizedPath ++ s_ "`") = true ->
  replaceImports Path FastGlob file resolveDir config =
  (Fulfilled (pre ++ s_ "import(" ++ (s_ "`" ++ normalizedPath ++ s_ "`") ++ s_ ")" ++ post),
   noEffects).
Proof.
  intros normalizedPath Hr Hfirst Hplain.
  assert (Hst : classify Path file resolveDir config =
                {| ls_fileContents :=
                     replaceStr file a (s_ "`" ++ normalizedPath ++ s_ "`");
                   ls_importsToReplace := [];
                   ls_globImports := [] |}).
  { rewrite (classify_single_import Path resolveDir config Hpre Hpost Ha Hfa).
    unfold processMatch, group. cbn [m_caps capture Nat.eqb m_text].
    now rewrite Hr. }
  unfold replaceImports. rewrite Hst.
  cbn [ls_fileContents ls_globImports length Nat.ltb Nat.leb].
  rewrite (@replaceStr_first_plain _ _ _ _ _ Hfirst Hplain).
  rewrite <- !app_assoc. reflexivity.
Qed.

Lemma replaceImports_single_queued paths :
  rewriteCondition Path config d (extname Path d) = false ->
  queueCondition config d (extname Path d) = true ->
  FastGlob (replaceRe true markerRe (s_ "**/*") d) resolveDir = Fulfilled paths ->
  paths <> [] ->
  plainTemplate (s_ "_DynamicImport(" ++ (s_ "`" ++ d ++ s_ "`") ++ s_ ")") = true ->
  replaceImports Path FastGlob file resolveDir config =
  (Fulfilled
     (generatedCode
        (map importLine
           (numbered (firstSeen (normalizedIn Path resolveDir) (withExtensionless paths))))
        (map mapEntry (moduleMap (dedupe Path resolveDir (withExtensionless paths))))
      ++ pre ++ s_ "_DynamicImport(" ++ (s_ "`" ++ d ++ s_ "`") ++ s_ ")" ++ post),
   {| globCalls := [(replaceRe true markerRe (s_ "**/*") d, resolveDir)];
      consoleErrors := 0 |}).
Proof.
  intros Hr Hqc Hg Hne Hplain.
  set (pattern := replaceRe true markerRe (s_ "**/*") d) in *.
  set (dd := dedupe Path resolveDir (withExtensionless paths)).
  assert (Hst : classify Path file resolveDir config =
                {| ls_fileContents := file;
                   ls_importsToReplace :=
                     [{| fullImport := s_ "import(" ++ a ++ s_ ")";
                         pathString := s_ "`" ++ d ++ s_ "`" |}];
                   ls_globImports := [pattern] |}).
  { rewrite (classify_single_import Path resolveDir config Hpre Hpost Ha Hfa).
    unfold processMatch, group. cbn [m_caps capture Nat.eqb m_text].
    now rewrite Hr, Hqc. }
  assert (Hp : promiseAll
                 (map (fun g => FastGlob g resolveDir)
                    (ls_globImports (classify Path file resolveDir config))) =
               Fulfilled [paths]).
  { rewrite Hst. cbn [ls_globImports map promiseAll]. now rewrite Hg. }
  assert (Hc : concat [paths] <> []) by (simpl; now rewrite app_nil_r).
  rewrite (replaceImports_resolved Path FastGlob file resolveDir config Hp Hc).
  rewrite Hst. cbn [ls_globImports ls_importsToReplace ls_fileContents map fold_left concat].
  rewrite app_nil_r. fold dd. cbv zeta.
  destruct (dedupe_spec Path resolveDir (withExtensionless paths)) as (Hk & Hm & _ & _).
  fold dd in Hk, Hm.
  rewrite importStringOf_eq, Hk, objectMapStringOf_eq.
  - unfold substituteImport. cbn [fullImport pathString].
    rewrite (@replaceStr_first_plain file (s_ "import(" ++ a ++ s_ ")") _ pre post).
    + unfold generatedCode. rewrite <- !app_assoc. reflexivity.
    + apply firstOccurrence_single_import. exact Hpre.
    + exact Hplain.
  - intros H. rewrite H in Hm. simpl in Hm.
    assert (Hw : withExtensionless paths <> []).
    { rewrite withExtensionless_eq. intros E. apply app_eq_nil in E as [E _].
      contradiction. }
    apply (distinct_not_nil Hw). now rewrite <- Hm.
Qed.

End SingleImportAny.

Lemma dot_of_nospace c : isSpace c = false -> dot c = true.
Proof.
  unfold isSpace, dot. cbv zeta. intros H.
  apply orb_false_iff in H as [H _]. apply orb_false_iff in H as [H _].
  apply negb_true_iff, orb_false_iff.
  destruct (Nat.leb_spec 9 (nat_of_ascii c)), (Nat.leb_spec (nat_of_ascii c) 13);
    cbn in H; try discriminate H; split; apply Nat.eqb_neq; lia.
Qed.

(** X14.  Lines 53 to 65.  Concatenations of quoted strings and a variable, with
    any quotes and any white space but line feeds around the plus signs,
    have a template as their destination: [q s1 q + v + q s2 q] gives
    [s1${v}s2], [q s1 q + v] gives [s1${v}] and [v + q s2 q] gives
    [${v}s2]. *)
Theorem concatenation_becomes_template
  (q1 q2 q3 q4 : ascii) (s1 s2 v ws1 ws2 ws3 ws4 : str) :
  isQuote q1 = true -> isQuote q2 = true -> isQuote q3 = true -> isQuote q4 = true ->
  forallb plainPathChar s1 = true -> forallb plainPathChar s2 = true ->
  forallb plainPathChar v = true -> v <> [] ->
  forallb blankChar ws1 = true -> forallb blankChar ws2 = true ->
  forallb blankChar ws3 = true -> forallb blankChar ws4 = true ->
  destinationOf
    (q1 :: s1 ++ q2 :: ws1 ++ "+" :: ws2 ++ v ++ ws3 ++ "+" :: ws4 ++ q3 :: s2 ++ [q4]) =
    s1 ++ s_ "${" ++ v ++ s_ "}" ++ s2 /\
  destinationOf (q1 :: s1 ++ q2 :: ws1 ++ "+" :: ws2 ++ v) = s1 ++ s_ "${" ++ v ++ s_ "}" /\
  destinationOf (v ++ ws3 ++ "+" :: ws4 ++ q3 :: s2 ++ [q4]) = s_ "${" ++ v ++ s_ "}" ++ s2.
Proof.
  intros Hq1 Hq2 Hq3 Hq4 Hs1 Hs2 Hv Hne H1 H2 H3 H4. split; [|split].
  - now apply destinationOf_concatenation.
  - now apply destinationOf_string_variable.
  - now apply destinationOf_variable_string.
Qed.

Lemma concatenation_becomes_template_witness :
  destinationOf (s_ "'./mod-' + name +'.js'") = s_ "./mod-${name}.js" /\
  destinationOf (s_ "'./mod-' + name") = s_ "./mod-${name}" /\
  destinationOf (s_ "name +'.js'") = s_ "${name}.js".
Proof.
  exact (@concatenation_becomes_template "'" "'" "'" "'"
           (s_ "./mod-") (s_ ".js") (s_ "name") (s_ " ") (s_ " ") (s_ " ") []
           eq_refl eq_refl eq_refl eq_refl eq_refl eq_refl eq_refl
           (fun H => eq_ind (s_ "name") (fun l => match l with [] => False | _ => True end)
                       I [] H)
           eq_refl eq_refl eq_refl eq_refl).
Defined.

(** X18.  Lines 53 to 65, the other two concatenations.  Two quoted strings
    give the path made of both, [q s1 q + q s2 q] the destination [s1s2];
    two variables give two markers, [v1 + v2] the destination
    [${v1}${v2}]. *)
Theorem two_strings_or_two_variables_are_joined
  (q1 q2 q3 q4 : ascii) (s1 s2 v1 v2 ws1 ws2 : str) :
  isQuote q1 = true -> isQuote q2 = true -> isQuote q3 = true -> isQuote q4 = true ->
  forallb plainPathChar s1 = true -> forallb plainPathChar s2 = true ->
  forallb plainPathChar v1 = true -> v1 <> [] ->
  forallb plainPathChar v2 = true -> v2 <> [] ->
  forallb blankChar ws1 = true -> forallb blankChar ws2 = true ->
  destinationOf (q1 :: s1 ++ q2 :: ws1 ++ "+" :: ws2 ++ q3 :: s2 ++ [q4]) = s1 ++ s2 /\
  destinationOf (v1 ++ ws1 ++ "+" :: ws2 ++ v2) =
    s_ "${" ++ v1 ++ s_ "}${" ++ v2 ++ s_ "}".
Proof.
  intros Hq1 Hq2 Hq3 Hq4 Hs1 Hs2 Hv1 Hn1 Hv2 Hn2 H1 H2. split.
  - now apply destinationOf_string_string.
  - now apply destinationOf_variable_variable.
Qed.

Lemma two_strings_or_two_variables_are_joined_witness :
  destinationOf (s_ "'./lib/' + 'mod.js'") = s_ "./lib/mod.js" /\
  destinationOf (s_ "dir + name") = s_ "${dir}${name}".
Proof.
  exact (@two_strings_or_two_variables_are_joined "'" "'" "'" "'"
           (s_ "./lib/") (s_ "mod.js") (s_ "dir") (s_ "name") (s_ " ") (s_ " ")
           eq_refl eq_refl eq_refl eq_refl eq_refl eq_refl eq_refl
           (fun H => eq_ind (s_ "dir") (fun l => match l with [] => False | _ => True end)
                       I [] H)
           eq_refl
           (fun H => eq_ind (s_ "name") (fun l => match l with [] => False | _ => True end)
                       I [] H)
           eq_refl eq_refl).
Defined.

(** X19.  Lines 43 to 73 on a text whose only import call concatenates two
    quoted strings.  When the joined path meets the condition of line 71,
    the whole concatenation gives way to the template literal of the
    normalized joined path, and the call stays an [import(...)] call. *)
Theorem concatenated_strings_are_rewritten_as_one_path
  (Path : PathApi) (FastGlob : str -> str -> promise (list str))
  (resolveDir : str) (config : DynamicImportConfig) (pre post : str)
  (q1 q2 q3 q4 : ascii) (s1 s2 ws1 ws2 : str) :
  let argument := q1 :: s1 ++ q2 :: ws1 ++ "+" :: ws2 ++ q3 :: s2 ++ [q4] in
  let file := pre ++ s_ "import(" ++ argument ++ s_ ")" ++ post in
  let literal := s_ "`" ++ normalize Path (resolveDir ++ s_ "/" ++ s1 ++ s2) ++ s_ "`" in
  noImportText pre -> noImportText post ->
  isQuote q1 = true -> isQuote q2 = true -> isQuote q3 = true -> isQuote q4 = true ->
  forallb plainPathChar s1 = true -> forallb plainPathChar s2 = true ->
  forallb blankChar ws1 = true -> forallb blankChar ws2 = true ->
  rewriteCondition Path config (s1 ++ s2) (extname Path (s1 ++ s2)) = true ->
  firstOccurrence argument file (pre ++ s_ "import(") (s_ ")" ++ post) ->
  plainTemplate literal = true ->
  replaceImports Path FastGlob file resolveDir config =
  (Fulfilled (pre ++ s_ "import(" ++ literal ++ s_ ")" ++ post), noEffects).
Proof.
  intros argument file literal Hpre Hpost Hq1 Hq2 Hq3 Hq4 Hs1 Hs2 H1 H2 Hr Hfirst Hplain.
  assert (Hd : destinationOf argument = s1 ++ s2)
    by now apply destinationOf_string_string.
  assert (Hrp : forall ws, forallb blankChar ws = true -> Forall (fun c => c <> ")") ws).
  { intros ws H. apply Forall_forall. intros c Hc.
    now destruct (@blankChar_facts c (proj1 (forallb_forall _ _) H c Hc))
      as (_ & _ & _ & _ & _ & _ & ?). }
  assert (Hpp : forall s, forallb plainPathChar s = true -> Forall (fun c => c <> ")") s).
  { intros s H. apply Forall_forall. intros c Hc.
    now destruct (@plainPathChar_facts c (proj1 (forallb_forall _ _) H c Hc))
      as (_ & _ & _ & _ & _ & ?). }
  assert (Hqp : forall q, isQuote q = true -> q <> ")").
  { intros q Hq ->. discriminate Hq. }
  assert (Hfa : Forall (fun c => c <> ")") argument).
  { unfold argument.
    repeat first [ apply Forall_cons | apply Forall_app; split | apply Forall_nil ];
      auto; discriminate. }
  assert (Ha : argument <> []) by discriminate.
  pose proof (@replaceImports_single_rewritten Path FastGlob resolveDir config pre post
                Hpre Hpost argument Ha Hfa) as H.
  cbv zeta in H. rewrite Hd in H. now apply H.
Qed.

Lemma concatenated_strings_are_rewritten_as_one_path_witness :
  replaceImports Posix.api globFailing
    (s_ "const m = import('./lib/' + 'mod.js');") (s_ "/a/b") configAbsolute =
  (Fulfilled (s_ "const m = import(`/a/b/lib/mod.js`);"), noEffects).
Proof.
  change (s_ "const m = import('./lib/' + 'mod.js');")
    with (s_ "const m = " ++ s_ "import(" ++
          ("'" :: s_ "./lib/" ++ "'" :: s_ " " ++ "+" :: s_ " " ++ "'" :: s_ "mod.js" ++ ["'"])
          ++ s_ ")" ++ s_ ";").
  rewrite (@concatenated_strings_are_rewritten_as_one_path Posix.api globFailing (s_ "/a/b")
             configAbsolute (s_ "const m = ") (s_ ";") "'" "'" "'" "'"
             (s_ "./lib/") (s_ "mod.js") (s_ " ") (s_ " "));
    try reflexivity; try (apply noImportText_indexOf; reflexivity).
  exact (@firstOccurrence_indexOf (s_ "'./lib/' + 'mod.js'")
           (s_ "const m = import('./lib/' + 'mod.js');") 17 eq_refl).
Defined.

(** X15.  Lines 43 to 146 on a text whose only import call has the
    concatenation [q s1 q + v + q s2 q] as its argument.  When the extension
    of [s1${v}s2] is
    among [transformExtensions] and the condition of line 71 is not met,
    the resolver is asked once, for [s1**/*s2], and the call gives way to
    [_DynamicImport] on the template literal of the destination, after the
    generated code. *)
Theorem concatenated_import_is_queued_as_template
  (Path : PathApi) (FastGlob : str -> str -> promise (list str))
  (resolveDir : str) (config : DynamicImportConfig) (pre post : str)
  (q1 q2 q3 q4 : ascii) (s1 s2 v ws1 ws2 ws3 ws4 : str) (found : list str) :
  let argument :=
    q1 :: s1 ++ q2 :: ws1 ++ "+" :: ws2 ++ v ++ ws3 ++ "+" :: ws4 ++ q3 :: s2 ++ [q4] in
  let destination := s1 ++ s_ "${" ++ v ++ s_ "}" ++ s2 in
  let pattern := s1 ++ s_ "**/*" ++ s2 in
  let call := s_ "_DynamicImport(" ++ (s_ "`" ++ destination ++ s_ "`") ++ s_ ")" in
  let all := withExtensionless found in
  noImportText pre -> noImportText post ->
  isQuote q1 = true -> isQuote q2 = true -> isQuote q3 = true -> isQuote q4 = true ->
  forallb plainPathChar s1 = true -> forallb plainPathChar s2 = true ->
  forallb plainPathChar v = true -> v <> [] ->
  forallb blankChar ws1 = true -> forallb blankChar ws2 = true ->
  forallb blankChar ws3 = true -> forallb blankChar ws4 = true ->
  noMarkerStart s1 -> ~ In "}" v -> noMarkerStart s2 ->
  rewriteCondition Path config destination (extname Path destination) = false ->
  isArrayIncluding (transformExtensions config) (extname Path destination) = true ->
  FastGlob pattern resolveDir = Fulfilled found -> found <> [] ->
  plainTemplate call = true ->
  replaceImports Path FastGlob (pre ++ s_ "import(" ++ argument ++ s_ ")" ++ post)
    resolveDir config =
  (Fulfilled
     (generatedCode
        (map importLine (numbered (firstSeen (normalizedIn Path resolveDir) all)))
        (map mapEntry (moduleMap (dedupe Path resolveDir all)))
      ++ pre ++ call ++ post),
   {| globCalls := [(pattern, resolveDir)]; consoleErrors := 0 |}).
Proof.
  intros argument destination pattern call all Hpre Hpost Hq1 Hq2 Hq3 Hq4
    Hs1 Hs2 Hv Hne H1 H2 H3 H4 Hm1 Hmv Hm2 Hr Hinc Hg Hfound Hplain.
  assert (Hd : destinationOf argument = destination)
    by now apply destinationOf_concatenation.
  assert (Hs1' := proj1 (forallb_forall _ _) Hs1).
  assert (Hs2' := proj1 (forallb_forall _ _) Hs2).
  assert (Hv' := proj1 (forallb_forall _ _) Hv).
  assert (Hrp : forall ws, forallb blankChar ws = true -> Forall (fun c => c <> ")") ws).
  { intros ws H. apply Forall_forall. intros c Hc.
    now destruct (@blankChar_facts c (proj1 (forallb_forall _ _) H c Hc))
      as (_ & _ & _ & _ & _ & _ & ?). }
  assert (Hpp : forall s, (forall c, In c s -> plainPathChar c = true) ->
                          Forall (fun c => c <> ")") s).
  { intros s H. apply Forall_forall. intros c Hc.
    now destruct (@plainPathChar_facts c (H c Hc)) as (_ & _ & _ & _ & _ & ?). }
  assert (Hqp : forall q, isQuote q = true -> q <> ")").
  { intros q Hq ->. discriminate Hq. }
  assert (Hfa : Forall (fun c => c <> ")") argument).
  { unfold argument.
    repeat first [ apply Forall_cons | apply Forall_app; split | apply Forall_nil ];
      auto; discriminate. }
  assert (Hdot : forall s, (forall c, In c s -> plainPathChar c = true) ->
                           Forall (fun c => dot c = true) s).
  { intros s H. apply Forall_forall. intros c Hc. apply dot_of_nospace.
    now destruct (@plainPathChar_facts c (H c Hc)) as (_ & ? & _). }
  assert (Hpat : replaceRe true markerRe (s_ "**/*") destination = pattern).
  { unfold replaceRe, destination, pattern.
    rewrite replaceFrom_markerRe_marker by auto.
    do 2 f_equal. apply replaceFrom_never. now apply noMarkerStart_never. }
  assert (Hq : queueCondition config destination (extname Path destination) = true).
  { unfold queueCondition. rewrite Hinc. cbn [andb]. unfold destination.
    apply test_interpolatedRe_complete.
    repeat first [ apply Forall_cons | apply Forall_app; split | apply Forall_nil ];
      auto. }
  assert (Ha : argument <> []) by discriminate.
  pose proof (@replaceImports_single_queued Path FastGlob resolveDir config pre post
                Hpre Hpost argument Ha Hfa found) as H.
  rewrite Hd, Hpat in H. rewrite H by assumption.
  unfold call. now rewrite <- !app_assoc.
Qed.

Lemma concatenated_import_is_queued_as_template_witness :
  replaceImports Posix.api globTwoModules
    (s_ "const m = import('./mod-' + name + '.js');") (s_ "/d") configTransformJs =
  (Fulfilled (s_ "import * as _DynamicImportModule0 from 'mod-a.js';
import * as _DynamicImportModule1 from 'mod-b.js';
import * as _DynamicImportModule2 from 'mod-a';
import * as _DynamicImportModule3 from 'mod-b';
const _DynamicImportModuleMap = {'mod-a.js':_DynamicImportModule0,'mod-b.js':_DynamicImportModule1,'mod-a':_DynamicImportModule2,'mod-b':_DynamicImportModule3};
function _DynamicImport(path) {const mod=_DynamicImportModuleMap[path];if(mod) {mod[Symbol.toStringTag]='Module';}return Promise.resolve(mod);}
const m = _DynamicImport(`./mod-${name}.js`);"),
   {| globCalls := [(s_ "./mod-**/*.js", s_ "/d")]; consoleErrors := 0 |}).
Proof.
  change (s_ "const m = import('./mod-' + name + '.js');")
    with (s_ "const m = " ++ s_ "import(" ++
          ("'" :: s_ "./mod-" ++ "'" :: s_ " " ++ "+" :: s_ " " ++ s_ "name" ++ s_ " " ++
             "+" :: s_ " " ++ "'" :: s_ ".js" ++ ["'"]) ++ s_ ")" ++ s_ ";").
  rewrite (@concatenated_import_is_queued_as_template Posix.api globTwoModules (s_ "/d")
             configTransformJs (s_ "const m = ") (s_ ";") "'" "'" "'" "'"
             (s_ "./mod-") (s_ ".js") (s_ "name") (s_ " ") (s_ " ") (s_ " ") (s_ " ")
             [s_ "mod-a.js"; s_ "mod-b.js"]);
    try reflexivity; try discriminate;
    try (apply noImportText_indexOf; reflexivity);
    try (apply noMarkerStart_indexOf; reflexivity).
  intros H. repeat (destruct H as [H|H]; [discriminate H|]). exact H.
Defined.

(** X16.  Lines 67 to 73, applied twice.  Where a quoted relative [.js] path is
    rewritten to its normalized absolute path, a second run over the
    output changes nothing, provided the [path] module finds the
    normalized path absolute and of extension [.js] and the path holds no
    [${]. *)
Theorem absolute_js_rewrite_is_idempotent
  (Path : PathApi) (FastGlob : str -> str -> promise (list str))
  (resolveDir : str) (config : DynamicImportConfig) (pre post : str)
  (q : ascii) (p : str) :
  let normalizedPath := normalize Path (resolveDir ++ s_ "/" ++ p) in
  let file := pre ++ s_ "import(" ++ (q :: p ++ [q]) ++ s_ ")" ++ post in
  let output := pre ++ s_ "import(" ++ (s_ "`" ++ normalizedPath ++ s_ "`") ++ s_ ")" ++ post in
  noImportText pre -> noImportText post ->
  isQuote q = true -> forallb plainPathChar p = true ->
  truthy (changeRelativeToAbsolute config) = true ->
  isAbsolute Path p = false -> extname Path p = s_ ".js" ->
  firstOccurrence (q :: p ++ [q]) file (pre ++ s_ "import(") (s_ ")" ++ post) ->
  plainTemplate (s_ "`" ++ normalizedPath ++ s_ "`") = true ->
  cleanTemplateBody normalizedPath -> Forall (fun c => c <> ")") normalizedPath ->
  noMarkerStart normalizedPath ->
  isAbsolute Path normalizedPath = true -> extname Path normalizedPath = s_ ".js" ->
  replaceImports Path FastGlob file resolveDir config = (Fulfilled output, noEffects) /\
  replaceImports Path FastGlob output resolveDir config = (Fulfilled output, noEffects).
Proof.
  intros normalizedPath file output Hpre Hpost Hq Hp Hcfg Hrel Hext Hfirst Hplain
    Hclean Hrp Hmark Habs Hext'.
  split.
  - apply replaceImports_single_quoted_import; auto.
    unfold rewriteCondition. now rewrite Hcfg, Hrel, Hext.
  - assert (Ha : s_ "`" ++ normalizedPath ++ s_ "`" <> []) by discriminate.
    assert (Hfa : Forall (fun c => c <> ")") (s_ "`" ++ normalizedPath ++ s_ "`")).
    { constructor; [discriminate|]. apply Forall_app. split; auto.
      constructor; [discriminate|constructor]. }
    apply (@replaceImports_single_idle Path FastGlob resolveDir config pre post
             Hpre Hpost _ Ha Hfa);
      rewrite (destinationOf_clean_template Hclean).
    + unfold rewriteCondition. rewrite Habs, Hext'. cbn [negb].
      now rewrite andb_false_r.
    + unfold queueCondition.
      destruct (test interpolatedRe normalizedPath) eqn:E; [|apply andb_false_r].
      apply test_interpolatedRe_sound in E as (_ & a & b & c & E).
      exfalso. now apply (Hmark a (b ++ s_ "}" ++ c)).
Qed.

Lemma absolute_js_rewrite_is_idempotent_witness :
  replaceImports Posix.api globFailing (s_ "const m = import('./foo.js');") (s_ "/a/b")
    configAbsolute =
    (Fulfilled (s_ "const m = import(`/a/b/foo.js`);"), noEffects) /\
  replaceImports Posix.api globFailing (s_ "const m = import(`/a/b/foo.js`);") (s_ "/a/b")
    configAbsolute =
    (Fulfilled (s_ "const m = import(`/a/b/foo.js`);"), noEffects).
Proof.
  apply (@absolute_js_rewrite_is_idempotent Posix.api globFailing (s_ "/a/b")
           configAbsolute (s_ "const m = ") (s_ ";") "'" (s_ "./foo.js"));
    try reflexivity;
    try (apply noImportText_indexOf; reflexivity);
    try (apply noMarkerStart_indexOf; reflexivity).
  - exact (@firstOccurrence_indexOf (s_ "'./foo.js'") (s_ "const m = import('./foo.js');")
             17 eq_refl).
  - split; [|reflexivity]. repeat constructor; discriminate.
  - repeat constructor; discriminate.
Defined.

(** X17.  Lines 71 to 78.  Rewriting comes before queuing: whatever the
    configuration, a queued call has a destination whose extension is among
    [transformExtensions] and is not [.json], that is interpolated, and
    that, when [changeRelativeToAbsolute] is set and the extension is
    [.js], is an absolute path. *)
Theorem rewriting_takes_precedence_over_queuing
  (Path : PathApi) (resolveDir : str) (config : DynamicImportConfig) (file : str) :
  Forall (fun imp =>
            exists a,
              fullImport imp = s_ "import(" ++ a ++ s_ ")" /\
              let destination := destinationOf a in
              let extension := extname Path destination in
              extension <> s_ ".json" /\
              isArrayIncluding (transformExtensions config) extension = true /\
              test interpolatedRe destination = true /\
              (truthy (changeRelativeToAbsolute config) = true ->
               extension = s_ ".js" -> isAbsolute Path destination = true))
    (ls_importsToReplace (classify Path file resolveDir config)).
Proof.
  destruct (classify_queue Path resolveDir config file) as [Hq _].
  eapply Forall_impl; [|exact Hq].
  intros imp (a & Hfull & _ & _ & _ & Hr & Hqc). exists a.
  split; [exact Hfull|]. cbv zeta.
  unfold rewriteCondition in Hr. apply orb_false_iff in Hr as [Hr Hj].
  unfold queueCondition in Hqc. apply andb_true_iff in Hqc as [Hinc Ht].
  split; [now apply str_eqb_neq|]. split; [exact Hinc|]. split; [exact Ht|].
  intros Hc He. rewrite Hc, He, str_eqb_refl in Hr.
  destruct (isAbsolute Path (destinationOf a)); [reflexivity|discriminate Hr].
Qed.
